(** * pyproject-fmt: the command-line front end ([pyproject_fmt/cli.py])

    A shallow embedding of [cli.py] and of the library behaviour it is
    written against:

    - [pathlib] paths (POSIX flavour) and the file-system queries
      [is_dir], [exists], [is_file], [os.access], [read_text];
    - the [argparse] parser that [_build_cli] declares, with the parsing
      algorithm of [ArgumentParser.parse_args];
    - the [PyProjectFmtNamespace.configs] property.

    The library is that of CPython 3.11 on a POSIX system.  A string is
    kept as its UTF-8 encoding, the form in which an argument reaches the
    process (a byte that is no part of a well-formed sequence stands for
    itself, as [sys.argv] has it with its escapes).  The working
    directory is taken to be there ([os.getcwd] returns), and the
    package to be installed ([importlib.metadata.version], which
    [_build_cli] calls for the version text, returns).

    The formatting engine itself is not part of [cli.py]; the part of it
    that the version-trimming rule talks about is modelled from the
    specification in the module [Versions]. *)

From Stdlib Require Import Strings.String Strings.Ascii Strings.Byte List ZArith NArith Bool Lia.
Import ListNotations.
Local Open Scope string_scope.
Local Open Scope list_scope.

Set Implicit Arguments.

(** ** Outcomes

    [parse_args] either returns, or fails, or leaves through the help
    and version actions (text on stdout, exit status 0).  It fails
    through [parser.error] (usage and message on stderr, exit status 2)
    or, the last constructor of [ParseError], with an [OSError] that a
    file-system query of the validator raised: [argparse] catches
    [ArgumentTypeError], [TypeError] and [ValueError] around a [type]
    callable and lets everything else through. *)

Inductive Action : Type :=
| AHelp | AVersion | AStdout | ACheck | AKeepFullVersion | AIndent
| AMaxSupportedPython.

Inductive ParseError : Type :=
| ENotAllowedWith (a conflict : Action)
| EExpectedOneArgument (a : Action)
| EInvalidValue (a : Action) (value : string)
| EIgnoredExplicitArgument (a : Action) (explicit_arg : string)
| EArgumentInputs (msg : string)
| EAmbiguousOption (arg : string) (matches : list string)
| ERequired (names : list string)
| EUnrecognized (extras : list string)
| EUncaughtOSError.

Inductive outcome (A : Type) : Type :=
| Ok (a : A)
| Error (e : ParseError)
| Exited.

Arguments Ok {A} a.
Arguments Error {A} e.
Arguments Exited {A}.

Definition bind {A B : Type} (m : outcome A) (k : A -> outcome B) : outcome B :=
  match m with
  | Ok a => k a
  | Error e => Error e
  | Exited => Exited
  end.

Notation "x <- m ;; k" := (bind m (fun x => k))
  (at level 61, m at next level, right associativity).
Notation "' p <- m ;; k" := (bind m (fun x => match x with p => k end))
  (at level 61, p pattern, m at next level, right associativity).

Fixpoint mapM {A B : Type} (f : A -> outcome B) (l : list A) : outcome (list B) :=
  match l with
  | [] => Ok []
  | a :: rest => b <- f a ;; bs <- mapM f rest ;; Ok (b :: bs)
  end.

(** ** Strings *)

Definition slash : ascii := "/"%char.
Definition dash : ascii := "-"%char.
Definition equals_sign : ascii := "="%char.

Fixpoint startswith (s p : string) : bool :=
  match p, s with
  | EmptyString, _ => true
  | String c p', String d s' => Ascii.eqb c d && startswith s' p'
  | String _ _, EmptyString => false
  end.

Fixpoint contains_char (c : ascii) (s : string) : bool :=
  match s with
  | EmptyString => false
  | String d s' => Ascii.eqb c d || contains_char c s'
  end.

(** [s.split(c, 1)] for a string that contains [c]: the text before the
    first [c] and the text after it. *)
Fixpoint split_once (c : ascii) (s : string) : string * string :=
  match s with
  | EmptyString => (EmptyString, EmptyString)
  | String d s' =>
      if Ascii.eqb c d then (EmptyString, s')
      else let '(a, b) := split_once c s' in (String d a, b)
  end.

(** [s.split(c)]: always at least one piece. *)
Fixpoint split_on (c : ascii) (s : string) : list string :=
  match s with
  | EmptyString => [EmptyString]
  | String d s' =>
      if Ascii.eqb c d then EmptyString :: split_on c s'
      else match split_on c s' with
           | [] => [String d EmptyString]
           | piece :: pieces => String d piece :: pieces
           end
  end.

Fixpoint lstrip (c : ascii) (s : string) : string :=
  match s with
  | String d s' => if Ascii.eqb c d then lstrip c s' else s
  | EmptyString => EmptyString
  end.

Fixpoint join (sep : string) (l : list string) : string :=
  match l with
  | [] => EmptyString
  | [x] => x
  | x :: rest => x ++ sep ++ join sep rest
  end.

(** ** Paths: [pathlib.PurePosixPath]

    A path is its root (empty, one slash, or exactly two slashes) and the
    components after the root; empty components and single dots are
    dropped when a string is parsed. *)

Record Path : Type := mkPath { root : string; parts : list string }.

Definition splitroot (part : string) : string * string :=
  match part with
  | String c _ =>
      if Ascii.eqb c slash then
        let stripped := lstrip slash part in
        if Nat.eqb (String.length part - String.length stripped) 2
        then ("//", stripped) else ("/", stripped)
      else ("", part)
  | EmptyString => ("", part)
  end.

Definition keep_component (x : string) : bool :=
  negb (String.eqb x "") && negb (String.eqb x ".").

(** [Path(argument)] *)
Definition path_of_string (argument : string) : Path :=
  let '(r, rel) := splitroot argument in
  mkPath r (filter keep_component (split_on slash rel)).

(** [str(path)] *)
Definition path_str (p : Path) : string :=
  match root p, parts p with
  | EmptyString, [] => "."
  | r, ps => r ++ join "/" ps
  end.

Definition is_absolute (p : Path) : bool := negb (String.eqb (root p) "").

(** [path / name], for a name that is a single relative component. *)
Definition joinpath (p : Path) (name : string) : Path :=
  mkPath (root p) (parts p ++ [name]).

(** ** The file system as the process sees it

    A path resolves to a node or to nothing.  Of a node the validator
    asks the kind ([stat], following symbolic links) and the access
    rights of the process.  For a path that resolves to nothing,
    [stat_raises] tells the two ways in which [stat] fails apart: with
    an error that [pathlib] reads as "not there" ([ENOENT], [ENOTDIR],
    [EBADF], [ELOOP]: [is_dir], [exists] and [is_file] answer [False]),
    or with another [OSError] ([EACCES] on a directory that may not be
    searched, [ENAMETOOLONG], ...), which these methods raise again. *)

Inductive Kind : Type := Directory | Regular | Special.

Record Node : Type := mkNode {
  kind : Kind;
  r_ok : bool;            (* os.access(path, os.R_OK) *)
  w_ok : bool;            (* os.access(path, os.W_OK) *)
  data : list byte        (* the bytes of the file *)
}.

Record Env : Type := mkEnv {
  getcwd : string;                    (* os.getcwd() *)
  lookup : Path -> option Node;       (* what the path resolves to *)
  stat_raises : Path -> bool          (* for a path that resolves to nothing *)
}.

(** What leaves [pyproject_toml_path_creator] when it does not return. *)
Inductive Raised : Type :=
| ArgumentTypeError (msg : string)
| OSError.

Section FileSystem.
Variable env : Env.

(** [Path.absolute]: an absolute path is returned as it is, a relative one
    is put after the parsed working directory. *)
Definition absolute (p : Path) : Path :=
  if is_absolute p then p
  else let cwd := path_of_string (getcwd env) in
       mkPath (root cwd) (parts cwd ++ parts p).

(** [stat] on the path raises an [OSError] that [pathlib] does not
    take for an answer. *)
Definition raises (p : Path) : bool :=
  match lookup env p with
  | Some _ => false
  | None => stat_raises env p
  end.

(** The answers of [Path.is_dir], [Path.exists] and [Path.is_file]
    when [stat] does not raise, and of [os.access], which answers
    [False] whenever the call fails. *)
Definition is_dir (p : Path) : bool :=
  match lookup env p with
  | Some n => match kind n with Directory => true | _ => false end
  | None => false
  end.

Definition exists_ (p : Path) : bool :=
  match lookup env p with Some _ => true | None => false end.

Definition is_file (p : Path) : bool :=
  match lookup env p with
  | Some n => match kind n with Regular => true | _ => false end
  | None => false
  end.

Definition access_r (p : Path) : bool :=
  match lookup env p with Some n => r_ok n | None => false end.

Definition access_w (p : Path) : bool :=
  match lookup env p with Some n => w_ok n | None => false end.

(** *** [pyproject_toml_path_creator]

    [inr (ArgumentTypeError msg)] stands for
    [raise ArgumentTypeError(msg)], [inr OSError] for the [OSError]
    that [path.is_dir()] or [path.exists()] raises; [path.is_file()]
    asks about the path that [path.exists()] has just answered for. *)

Definition resolve (argument : string) : Path :=
  let path := absolute (path_of_string argument) in
  if is_dir path then joinpath path "pyproject.toml" else path.

Definition pyproject_toml_path_creator (argument : string) : Path + Raised :=
  let path := absolute (path_of_string argument) in
  if raises path then inr OSError
  else
    let path := if is_dir path then joinpath path "pyproject.toml" else path in
    if raises path then inr OSError
    else if negb (exists_ path) then inr (ArgumentTypeError "path does not exist")
    else if negb (is_file path) then inr (ArgumentTypeError "path is not a file")
    else if negb (access_r path) then inr (ArgumentTypeError "cannot read path")
    else if negb (access_w path) then inr (ArgumentTypeError "cannot write path")
    else inl path.

End FileSystem.

(** ** Code points

    A Python string is a sequence of code points.  Strict UTF-8: no
    over-long forms, no surrogates, nothing above U+10FFFF. *)

Definition text : Type := list N.

Definition in_range (lo hi b : N) : bool := (lo <=? b)%N && (b <=? hi)%N.

Definition continuation (b : N) : bool := in_range 128 191 b.

Fixpoint decode_utf8 (bs : list N) : option text :=
  match bs with
  | [] => Some []
  | b0 :: r0 =>
      if (b0 <? 128)%N then option_map (cons b0) (decode_utf8 r0)
      else if in_range 194 223 b0 then
        match r0 with
        | b1 :: r1 =>
            if continuation b1
            then option_map (cons ((b0 - 192) * 64 + (b1 - 128))%N) (decode_utf8 r1)
            else None
        | _ => None
        end
      else if in_range 224 239 b0 then
        match r0 with
        | b1 :: b2 :: r2 =>
            if continuation b1 && continuation b2
               && negb ((b0 =? 224)%N && (b1 <? 160)%N)
               && negb ((b0 =? 237)%N && (159 <? b1)%N)
            then option_map
                   (cons ((b0 - 224) * 4096 + (b1 - 128) * 64 + (b2 - 128))%N)
                   (decode_utf8 r2)
            else None
        | _ => None
        end
      else if in_range 240 244 b0 then
        match r0 with
        | b1 :: b2 :: b3 :: r3 =>
            if continuation b1 && continuation b2 && continuation b3
               && negb ((b0 =? 240)%N && (b1 <? 144)%N)
               && negb ((b0 =? 244)%N && (143 <? b1)%N)
            then option_map
                   (cons ((b0 - 240) * 262144 + (b1 - 128) * 4096
                          + (b2 - 128) * 64 + (b3 - 128))%N)
                   (decode_utf8 r3)
            else None
        | _ => None
        end
      else None
  end.

(** The code points of a string, when it is well-formed UTF-8.  In a
    string that is not, some code point is an escaped byte, which is no
    digit, no white space and no ASCII character. *)
Definition code_points (s : string) : option text :=
  decode_utf8 (map N_of_ascii (list_ascii_of_string s)).

(** The decimal digits of Unicode 14.0, the data of CPython 3.11
    ([Py_UNICODE_TODECIMAL]; for [re], the class of a backslash with d):
    they come in runs of ten, given here by their zeros. *)
Definition decimal_zeros : list N :=
  [ 48; 1632; 1776; 1984; 2406; 2534; 2662; 2790; 2918; 3046; 3174; 3302;
    3430; 3558; 3664; 3792; 3872; 4160; 4240; 6112; 6160; 6470; 6608; 6784;
    6800; 6992; 7088; 7232; 7248; 42528; 43216; 43264; 43472; 43504; 43600;
    44016; 65296; 66720; 68912; 69734; 69872; 69942; 70096; 70384; 70736;
    70864; 71248; 71360; 71472; 71904; 72016; 72784; 73040; 73120; 92768;
    92864; 93008; 120782; 120792; 120802; 120812; 120822; 123200; 123632;
    125264; 130032 ]%N.

Definition decimal_value (c : N) : option N :=
  match find (fun z => (z <=? c) && (c <? z + 10))%N decimal_zeros with
  | Some z => Some (c - z)%N
  | None => None
  end.

Definition is_decimal (c : N) : bool :=
  match decimal_value c with Some _ => true | None => false end.

(** The white space of [Py_UNICODE_ISSPACE] above ASCII. *)
Definition unicode_spaces : list N :=
  [ 133; 160; 5760; 8192; 8193; 8194; 8195; 8196; 8197; 8198; 8199; 8200;
    8201; 8202; 8232; 8233; 8239; 8287; 12288 ]%N.

(** ** The built-in [int] on strings

    [int(s)] first turns the code points into ASCII
    ([_PyUnicode_TransformDecimalAndSpaceToASCII]): a code point below
    127 stays as it is, a white-space character becomes a space, a
    decimal digit of any script becomes the ASCII digit of its value;
    anything else becomes a question mark, with which no literal is
    well-formed.  [PyLong_FromString] then skips the white space of C
    around the literal, reads one sign and the digits, which single
    underscores may separate, and refuses a literal of more than
    [int_max_str_digits] digits (the limit as the interpreter starts
    with it). *)

Definition to_ascii (c : N) : option N :=
  if (c <? 127)%N then Some c
  else if existsb (N.eqb c) unicode_spaces then Some 32%N
  else option_map (N.add 48) (decimal_value c).

Fixpoint transform (t : text) : option (list N) :=
  match t with
  | [] => Some []
  | c :: r =>
      match to_ascii c, transform r with
      | Some a, Some l => Some (a :: l)
      | _, _ => None
      end
  end.

(** [Py_ISSPACE] *)
Definition is_space (c : N) : bool :=
  ((c =? 32) || ((9 <=? c) && (c <=? 13)))%N.

Fixpoint lstrip_space (s : list N) : list N :=
  match s with
  | c :: s' => if is_space c then lstrip_space s' else s
  | [] => []
  end.

Fixpoint rstrip_space (s : list N) : list N :=
  match s with
  | c :: s' =>
      match rstrip_space s' with
      | [] => if is_space c then [] else [c]
      | r => c :: r
      end
  | [] => []
  end.

Definition int_max_str_digits : nat := 4300.

(** The value of the digits read so far, their number, and whether the
    last character was a digit. *)
Fixpoint digits_value (acc : Z) (digits : nat) (after_digit : bool) (s : list N)
  : option (Z * nat) :=
  match s with
  | [] => if after_digit then Some (acc, digits) else None
  | c :: s' =>
      if ((48 <=? c) && (c <=? 57))%N
      then digits_value (10 * acc + (Z.of_N c - 48)) (S digits) true s'
      else if (c =? 95)%N && after_digit then digits_value acc digits false s'
      else None
  end.

Definition literal (s : list N) : option Z :=
  match digits_value 0 0 false s with
  | Some (z, digits) =>
      if Nat.leb digits int_max_str_digits then Some z else None
  | None => None
  end.

Definition py_int (s : string) : option Z :=
  match code_points s with
  | Some t =>
      match transform t with
      | Some l =>
          match rstrip_space (lstrip_space l) with
          | c :: s' =>
              if (c =? 45)%N then option_map Z.opp (literal s')
              else if (c =? 43)%N then literal s'
              else literal (c :: s')
          | [] => None
          end
      | None => None
      end
  | None => None
  end.

(** ** The parser declared by [_build_cli]

    Option strings in the order in which [add_argument] registers them;
    [-h/--help] is added by [ArgumentParser] itself. *)

Definition option_string_actions : list (string * Action) :=
  [ ("-h", AHelp); ("--help", AHelp);
    ("-V", AVersion); ("--version", AVersion);
    ("-s", AStdout); ("--stdout", AStdout);
    ("--check", ACheck);
    ("--keep-full-version", AKeepFullVersion);
    ("--indent", AIndent);
    ("--max-supported-python", AMaxSupportedPython) ].

(** [nargs] is [None] (one argument) for the two typed options and [0]
    for the flags, help and version. *)
Definition takes_argument (a : Action) : bool :=
  match a with
  | AIndent | AMaxSupportedPython => true
  | _ => false
  end.

Fixpoint find_option (o : string) (l : list (string * Action)) : option Action :=
  match l with
  | [] => None
  | (k, a) :: rest => if String.eqb o k then Some a else find_option o rest
  end.

(** An option tuple: the action (if any), the option string, and the
    argument written in the same string (if any). *)
Definition option_tuple : Type := (option Action * string * option string)%type.

(** *** [_get_option_tuples] *)

Definition second_is_dash (s : string) : bool :=
  match s with
  | String _ (String c _) => Ascii.eqb c dash
  | _ => false
  end.

Definition drop2 (s : string) : string :=
  match s with
  | String _ (String _ r) => r
  | _ => EmptyString
  end.

Definition take2 (s : string) : string :=
  match s with
  | String a (String b _) => String a (String b EmptyString)
  | _ => s
  end.

Definition long_option_tuples (option_string : string) : list option_tuple :=
  let '(option_prefix, explicit_arg) :=
    if contains_char equals_sign option_string
    then let '(p, e) := split_once equals_sign option_string in (p, Some e)
    else (option_string, None) in
  flat_map (fun '(o, a) =>
              if startswith o option_prefix then [(Some a, o, explicit_arg)] else [])
           option_string_actions.

Definition short_option_tuples (option_string : string) : list option_tuple :=
  let option_prefix := option_string in
  let short_option_prefix := take2 option_string in
  let short_explicit_arg := drop2 option_string in
  flat_map (fun '(o, a) =>
              if String.eqb o short_option_prefix then [(Some a, o, Some short_explicit_arg)]
              else if startswith o option_prefix then [(Some a, o, None)]
              else [])
           option_string_actions.

Definition get_option_tuples (option_string : string) : list option_tuple :=
  if second_is_dash option_string then long_option_tuples option_string
  else short_option_tuples option_string.

(** *** The negative-number matcher [^-\d+$|^-\d*\.\d+$]

    The pattern is matched against the code points; its digit class is
    that of the decimal digits of every script, and [$] also matches
    just before a final newline. *)

Fixpoint drop_final_newline (s : text) : text :=
  match s with
  | [c] => if (c =? 10)%N then [] else s
  | c :: s' => c :: drop_final_newline s'
  | [] => []
  end.

Definition nonempty (s : text) : bool :=
  match s with [] => false | _ :: _ => true end.

(** The code points before the first full stop and those after it. *)
Fixpoint split_at_stop (s : text) : text * text :=
  match s with
  | [] => ([], [])
  | c :: s' =>
      if (c =? 46)%N then ([], s')
      else let '(a, b) := split_at_stop s' in (c :: a, b)
  end.

Definition looks_like_negative_number (arg : string) : bool :=
  match code_points arg with
  | Some t =>
      match drop_final_newline t with
      | c :: body =>
          (c =? 45)%N &&
          ((nonempty body && forallb is_decimal body)
           || (existsb (N.eqb 46) body &&
               let '(whole, frac) := split_at_stop body in
               forallb is_decimal whole && nonempty frac
               && forallb is_decimal frac))
      | [] => false
      end
  | None => false
  end.

(** *** [_parse_optional]

    [Ok None]: the string is a positional argument; [Ok (Some t)]: it is
    an option; an abbreviation that fits several options is an error. *)

Definition option_string_of (t : option_tuple) : string := snd (fst t).

Definition parse_optional (arg_string : string) : outcome (option option_tuple) :=
  match arg_string with
  | EmptyString => Ok None
  | String c0 _ =>
      if negb (Ascii.eqb c0 dash) then Ok None
      else
        match find_option arg_string option_string_actions with
        | Some a => Ok (Some (Some a, arg_string, None))
        | None =>
            if Nat.eqb (String.length arg_string) 1 then Ok None
            else
              let with_equals :=
                if contains_char equals_sign arg_string then
                  let '(o, e) := split_once equals_sign arg_string in
                  match find_option o option_string_actions with
                  | Some a => Some (Some a, o, Some e)
                  | None => None
                  end
                else None in
              match with_equals with
              | Some t => Ok (Some t)
              | None =>
                  match get_option_tuples arg_string with
                  | [] =>
                      if looks_like_negative_number arg_string then Ok None
                      else if contains_char " "%char arg_string then Ok None
                      else Ok (Some (None, arg_string, None))
                  | [t] => Ok (Some t)
                  | ts => Error (EAmbiguousOption arg_string (map option_string_of ts))
                  end
              end
        end
  end.

(** *** The argument pattern

    One token per argument string: [A] for an argument, [O] for an
    option with its tuple, [-] for the first [--]; everything after the
    first [--] is an argument. *)

Inductive Tok : Type :=
| TA (s : string)
| TO (s : string) (t : option_tuple)
| TDash.

Definition tok_string (t : Tok) : string :=
  match t with
  | TA s => s
  | TO s _ => s
  | TDash => "--"
  end.

Definition is_option (t : Tok) : bool :=
  match t with TO _ _ => true | _ => false end.

Fixpoint classify (arg_strings : list string) : outcome (list Tok) :=
  match arg_strings with
  | [] => Ok []
  | arg_string :: rest =>
      if String.eqb arg_string "--" then Ok (TDash :: map TA rest)
      else
        option_tuple <- parse_optional arg_string ;;
        toks <- classify rest ;;
        Ok (match option_tuple with
            | None => TA arg_string
            | Some t => TO arg_string t
            end :: toks)
  end.

(** [list.remove('--')]: the first string equal to [--] is dropped. *)
Fixpoint remove_double_dash (l : list string) : list string :=
  match l with
  | [] => []
  | x :: rest => if String.eqb x "--" then rest else x :: remove_double_dash rest
  end.

(** The pattern of the positional [inputs] ([nargs='+']): any [-], then
    an [A], then any run of [A] and [-].  The number of tokens matched,
    [0] when the pattern does not match. *)
Fixpoint count_args_and_dashes (toks : list Tok) : nat :=
  match toks with
  | TA _ :: rest => S (count_args_and_dashes rest)
  | TDash :: rest => S (count_args_and_dashes rest)
  | _ => 0
  end.

Fixpoint match_one_or_more (toks : list Tok) : nat :=
  match toks with
  | TDash :: rest =>
      match match_one_or_more rest with
      | O => O
      | S n => S (S n)
      end
  | TA _ :: rest => S (count_args_and_dashes rest)
  | _ => O
  end.

(** The strings up to the next option. *)
Fixpoint count_until_option (toks : list Tok) : nat :=
  match toks with
  | TO _ _ :: _ => 0
  | _ :: rest => S (count_until_option rest)
  | [] => 0
  end.

(** ** Parsing

    The algorithm is that of [ArgumentParser.parse_args] in CPython 3.11,
    for a parser with the defaults [allow_abbrev] and [exit_on_error].
    [Version] is [packaging.version.Version] and [parse_version] its
    constructor on a string ([None] for [InvalidVersion]);
    [DEFAULT_INDENT] and [DEFAULT_MAX_SUPPORTED_PYTHON] are the constants
    of [pyproject_fmt.config]. *)

(** What stands in the namespace for a typed option: its default or the
    value converted from its one argument string or, when [_get_values]
    is left with another number of strings, the list of the converted
    values.  ([_get_values] first drops a string [--], so the value
    joined in [--indent=--] leaves the empty list: the annotations
    [indent: int] and [max_supported_python: Version] are not checked.) *)
Inductive Stored (A : Type) : Type :=
| Value (a : A)
| Values (l : list A).

Arguments Value {A} a.
Arguments Values {A} l.

Section Parser.
Variable Version : Type.
Variable parse_version : string -> option Version.
Variable DEFAULT_INDENT : Z.
Variable DEFAULT_MAX_SUPPORTED_PYTHON : Version.
Variable env : Env.

Record PyProjectFmtNamespace : Type := mkNamespace {
  inputs : list Path;
  stdout : bool;
  indent : Stored Z;
  check : bool;
  keep_full_version : bool;
  max_supported_python : Stored Version
}.

(** The namespace while it is being filled ([inputs] is [None] until the
    positional has been taken: it is then also off the list of pending
    positionals and among the seen actions), the members of the
    mutually exclusive group seen so far, and the unrecognised strings. *)
Record ParseState : Type := mkState {
  ns_inputs : option (list Path);
  ns_stdout : bool;
  ns_indent : Stored Z;
  ns_check : bool;
  ns_keep_full_version : bool;
  ns_max_supported_python : Stored Version;
  seen_stdout : bool;
  seen_check : bool;
  extras : list string
}.

Definition initial_state : ParseState :=
  mkState None false (Value DEFAULT_INDENT) false false
          (Value DEFAULT_MAX_SUPPORTED_PYTHON) false false [].

Definition add_extras (st : ParseState) (l : list string) : ParseState :=
  mkState (ns_inputs st) (ns_stdout st) (ns_indent st) (ns_check st)
          (ns_keep_full_version st) (ns_max_supported_python st)
          (seen_stdout st) (seen_check st) (extras st ++ l).

(** *** [_get_values] for an option with one argument

    The first string [--] is dropped; one string that is left is
    converted with the [type] of the action and gives a value, any
    other number of strings gives the list of their values.  A string
    that the [type] raises [ValueError] on ([None] here) is the
    parser error [invalid ... value]. *)
Definition get_value {A : Type} (a : Action) (type : string -> option A)
           (arg_string : string) : outcome A :=
  match type arg_string with
  | Some x => Ok x
  | None => Error (EInvalidValue a arg_string)
  end.

Definition get_values {A : Type} (a : Action) (type : string -> option A)
           (arg_strings : list string) : outcome (Stored A) :=
  match remove_double_dash arg_strings with
  | [arg_string] => x <- get_value a type arg_string ;; Ok (Value x)
  | l => xs <- mapM (get_value a type) l ;; Ok (Values xs)
  end.

(** *** [take_action] for the options

    The two flags of the group made by [add_mutually_exclusive_group]
    conflict with each other; the typed options store what
    [_get_values] makes of their argument strings with [int] and
    [Version]. *)
Definition take_action (a : Action) (argument_strings : list string)
           (st : ParseState) : outcome ParseState :=
  match a with
  | AHelp => Exited
  | AVersion => Exited
  | AStdout =>
      if seen_check st then Error (ENotAllowedWith AStdout ACheck)
      else Ok (mkState (ns_inputs st) true (ns_indent st) (ns_check st)
                       (ns_keep_full_version st) (ns_max_supported_python st)
                       true (seen_check st) (extras st))
  | ACheck =>
      if seen_stdout st then Error (ENotAllowedWith ACheck AStdout)
      else Ok (mkState (ns_inputs st) (ns_stdout st) (ns_indent st) true
                       (ns_keep_full_version st) (ns_max_supported_python st)
                       (seen_stdout st) true (extras st))
  | AKeepFullVersion =>
      Ok (mkState (ns_inputs st) (ns_stdout st) (ns_indent st) (ns_check st)
                  true (ns_max_supported_python st)
                  (seen_stdout st) (seen_check st) (extras st))
  | AIndent =>
      value <- get_values AIndent py_int argument_strings ;;
      Ok (mkState (ns_inputs st) (ns_stdout st) value (ns_check st)
                  (ns_keep_full_version st) (ns_max_supported_python st)
                  (seen_stdout st) (seen_check st) (extras st))
  | AMaxSupportedPython =>
      value <- get_values AMaxSupportedPython parse_version argument_strings ;;
      Ok (mkState (ns_inputs st) (ns_stdout st) (ns_indent st) (ns_check st)
                  (ns_keep_full_version st) value
                  (seen_stdout st) (seen_check st) (extras st))
  end.

Fixpoint take_actions (tuples : list (Action * list string)) (st : ParseState)
  : outcome ParseState :=
  match tuples with
  | [] => Ok st
  | (a, args) :: rest => st' <- take_action a args st ;; take_actions rest st'
  end.

(** *** [take_action] for the positional [inputs]

    The first [--] is dropped, then every string goes through
    [pyproject_toml_path_creator], in order; the first one that it
    raises on ends the parse: with the parser error for an
    [ArgumentTypeError], and with the [OSError] itself. *)
Definition convert_input (argument : string) : outcome Path :=
  match pyproject_toml_path_creator env argument with
  | inl path => Ok path
  | inr (ArgumentTypeError msg) => Error (EArgumentInputs msg)
  | inr OSError => Error EUncaughtOSError
  end.

Definition take_inputs (argument_strings : list string) (st : ParseState)
  : outcome ParseState :=
  paths <- mapM convert_input (remove_double_dash argument_strings) ;;
  Ok (mkState (Some paths) (ns_stdout st) (ns_indent st) (ns_check st)
              (ns_keep_full_version st) (ns_max_supported_python st)
              (seen_stdout st) (seen_check st) (extras st)).

(** *** [consume_optional]

    [split_cluster] is the loop over an explicit argument: an option
    that takes one argument keeps it; a single-dash flag hands the
    rest of the string on to the option named by its first character.
    It returns the tuples gathered and the action that is left without
    explicit argument, if any. *)
Fixpoint split_cluster (action : Action) (option_string explicit_arg : string)
  : outcome (list (Action * list string) * option Action) :=
  if takes_argument action then Ok ([(action, [explicit_arg])], None)
  else
    match explicit_arg with
    | String c tail =>
        if second_is_dash option_string
        then Error (EIgnoredExplicitArgument action explicit_arg)
        else
          let option_string' := String dash (String c EmptyString) in
          match find_option option_string' option_string_actions with
          | Some action' =>
              match tail with
              | EmptyString => Ok ([(action, [])], Some action')
              | _ =>
                  '(tuples, last) <- split_cluster action' option_string' tail ;;
                  Ok ((action, []) :: tuples, last)
              end
          | None => Error (EIgnoredExplicitArgument action explicit_arg)
          end
    | EmptyString => Error (EIgnoredExplicitArgument action explicit_arg)
    end.

(** The tuples of one option token and the number of following tokens
    they use: the pattern of a one-argument option is [(A)], that of a
    flag is [()]. *)
Definition action_tuples (action : Action) (option_string : string)
           (explicit_arg : option string) (rest : list Tok)
  : outcome (list (Action * list string) * nat) :=
  '(tuples, last) <- match explicit_arg with
                     | Some e => split_cluster action option_string e
                     | None => Ok ([], Some action)
                     end ;;
  match last with
  | None => Ok (tuples, 0)
  | Some a =>
      if takes_argument a then
        match rest with
        | TA v :: _ => Ok (tuples ++ [(a, [v])], 1)
        | _ => Error (EExpectedOneArgument a)
        end
      else Ok (tuples ++ [(a, [])], 0)
  end.

Definition consume_optional (st : ParseState) (arg_string : string)
           (t : option_tuple) (rest : list Tok) : outcome (ParseState * nat) :=
  let '(action, option_string, explicit_arg) := t in
  match action with
  | None => Ok (add_extras st [arg_string], 0)
  | Some a =>
      '(tuples, n) <- action_tuples a option_string explicit_arg rest ;;
      st' <- take_actions tuples st ;;
      Ok (st', n)
  end.

(** *** [consume_positionals] *)
Definition consume_positionals (st : ParseState) (toks : list Tok)
  : outcome (ParseState * nat) :=
  match ns_inputs st with
  | Some _ => Ok (st, 0)
  | None =>
      match match_one_or_more toks with
      | O => Ok (st, 0)
      | n => st' <- take_inputs (map tok_string (firstn n toks)) st ;; Ok (st', n)
      end
  end.

(** *** After the last option: the rest of [_parse_known_args] and the
    check of [parse_args] *)
Definition finish (st : ParseState) (toks : list Tok)
  : outcome PyProjectFmtNamespace :=
  '(st, stop_index) <- consume_positionals st toks ;;
  let st := add_extras st (map tok_string (skipn stop_index toks)) in
  match ns_inputs st with
  | None => Error (ERequired ["inputs"])
  | Some paths =>
      match extras st with
      | [] => Ok (mkNamespace paths (ns_stdout st) (ns_indent st) (ns_check st)
                              (ns_keep_full_version st) (ns_max_supported_python st))
      | _ :: _ => Error (EUnrecognized (extras st))
      end
  end.

(** *** The main loop

    [toks] is the pattern from [start_index] on, once [skip] more
    tokens, already used by the last action, have been passed. *)
Fixpoint parse_loop (skip : nat) (st : ParseState) (toks : list Tok)
  : outcome PyProjectFmtNamespace :=
  match toks with
  | [] => finish st []
  | tok :: rest =>
      match skip with
      | S k => parse_loop k st rest
      | O =>
          if negb (existsb is_option toks) then finish st toks
          else
            match tok with
            | TO s t =>
                '(st', n) <- consume_optional st s t rest ;;
                parse_loop n st' rest
            | _ =>
                '(st', n) <- consume_positionals st toks ;;
                match n with
                | S k => parse_loop k st' rest
                | O =>
                    let k := count_until_option toks in
                    parse_loop (k - 1)
                               (add_extras st' (map tok_string (firstn k toks)))
                               rest
                end
            end
      end
  end.

(** *** [cli_args] *)
Definition cli_args (args : list string) : outcome PyProjectFmtNamespace :=
  toks <- classify args ;;
  parse_loop 0 initial_state toks.

End Parser.

(** ** Reading a file as text: [Path.read_text(encoding="utf-8")]

    The bytes are decoded as strict UTF-8 ([decode_utf8]), and the file
    is opened in text mode with the default newline handling, which
    turns CR LF and a lone CR into LF.  Opening fails with
    [FileNotFoundError], [IsADirectoryError] or [PermissionError], or
    with the [OSError] that makes [stat] raise. *)

Inductive ReadError : Type :=
| FileNotFound | IsADirectory | PermissionDenied | UnicodeDecode | OtherOSError.

Fixpoint universal_newlines (t : text) : text :=
  match t with
  | [] => []
  | c :: r =>
      if (c =? 13)%N then
        match r with
        | d :: r' => if (d =? 10)%N then 10%N :: universal_newlines r'
                     else 10%N :: universal_newlines r
        | [] => [10%N]
        end
      else c :: universal_newlines r
  end.

Definition read_text (env : Env) (p : Path) : text + ReadError :=
  match lookup env p with
  | None => if stat_raises env p then inr OtherOSError else inr FileNotFound
  | Some n =>
      match kind n with
      | Directory => inr IsADirectory
      | _ =>
          if r_ok n then
            match decode_utf8 (map Byte.to_N (data n)) with
            | Some t => inl (universal_newlines t)
            | None => inr UnicodeDecode
            end
          else inr PermissionDenied
      end
  end.

(** ** [PyProjectFmtNamespace.configs]

    [Config] has the fields that the property passes by keyword. *)

Section Configs.
Variable Version : Type.
Variable env : Env.

Record Config : Type := mkConfig {
  pyproject_toml : Path;
  toml : text;
  cfg_indent : Stored Z;
  cfg_keep_full_version : bool;
  cfg_max_supported_python : Stored Version
}.

Definition config_for (ns : PyProjectFmtNamespace Version) (p : Path)
  : Config + ReadError :=
  match read_text env p with
  | inl t => inl (mkConfig p t (indent ns) (keep_full_version ns)
                           (max_supported_python ns))
  | inr e => inr e
  end.

(** The list comprehension: one [Config] per input, in order; the first
    read that raises ends it. *)
Fixpoint configs_of (ns : PyProjectFmtNamespace Version) (l : list Path)
  : list Config + ReadError :=
  match l with
  | [] => inl []
  | p :: rest =>
      match config_for ns p with
      | inl c =>
          match configs_of ns rest with
          | inl cs => inl (c :: cs)
          | inr e => inr e
          end
      | inr e => inr e
      end
  end.

Definition configs (ns : PyProjectFmtNamespace Version) : list Config + ReadError :=
  configs_of ns (inputs ns).

End Configs.

(** ** Version numbers of dependency constraints *)

(** An ASCII digit. *)
Definition is_digit (c : ascii) : bool :=
  let n := nat_of_ascii c in Nat.leb 48 n && Nat.leb n 57.

Module Versions.

(** Modelled from the spec: the engine that rewrites dependency strings
    is not in [cli.py].  A version number is "an ordered sequence of
    non-negative integer components plus optional pre/post/dev release
    suffix (opaque string, preserved verbatim)"; a constraint is an
    operator with a version number. *)
Record VersionNumber : Type := mkVersionNumber {
  release : list N;
  suffix : string
}.

Definition Constraint : Type := (string * VersionNumber)%type.

(** Modelled from the spec: "trim trailing zero components from the
    release-number sequence down to a minimum of one component". *)
Fixpoint trim_trailing_zeros (l : list N) : list N :=
  match l with
  | [] => []
  | x :: rest =>
      if forallb (N.eqb 0) rest then [x] else x :: trim_trailing_zeros rest
  end.

(** Modelled from the spec: the trimming is applied "if
    [keep_full_version] is false"; suffix and operator are left as they
    are. *)
Definition normalize_version (keep_full_version : bool) (v : VersionNumber)
  : VersionNumber :=
  if keep_full_version then v
  else mkVersionNumber (trim_trailing_zeros (release v)) (suffix v).

(** Modelled from the spec: "Pre/post/dev suffixes and operators are
    never altered": the operator of a constraint is passed on. *)
Definition normalize_constraint (keep_full_version : bool) (c : Constraint)
  : Constraint :=
  (fst c, normalize_version keep_full_version (snd c)).

(** Modelled from the spec: the text of a version number is its
    components joined by dots, followed by the suffix.  The release is
    the longest leading run of dot-separated decimal numbers. *)
Definition digit_N (c : ascii) : N := N.of_nat (nat_of_ascii c) - 48.

(** Modelled from the spec: reading the release components off the
    front of the text; what is left is the suffix. *)
Fixpoint scan_release (done : list N) (cur : N) (s : string) : list N * string :=
  match s with
  | EmptyString => (done ++ [cur], EmptyString)
  | String c s' =>
      if is_digit c then scan_release done (10 * cur + digit_N c) s'
      else if Ascii.eqb c "."%char then
        match s' with
        | String d _ =>
            if is_digit d then scan_release (done ++ [cur]) 0 s'
            else (done ++ [cur], s)
        | EmptyString => (done ++ [cur], s)
        end
      else (done ++ [cur], s)
  end.

(** Modelled from the spec: a version text starts with a digit. *)
Definition parse_version_number (s : string) : option VersionNumber :=
  match s with
  | String c _ =>
      if is_digit c then
        let '(rel, suf) := scan_release [] 0 s in Some (mkVersionNumber rel suf)
      else None
  | EmptyString => None
  end.

(** Modelled from the spec: components are written in decimal. *)
Definition digit_char (d : N) : ascii := ascii_of_N (48 + d).

Fixpoint decimal_digits (fuel : nat) (n : N) (acc : string) : string :=
  match fuel with
  | O => acc
  | S f =>
      let acc' := String (digit_char (n mod 10)) acc in
      if (n <? 10)%N then acc' else decimal_digits f (n / 10) acc'
  end.

Definition decimal (n : N) : string :=
  decimal_digits (S (N.to_nat (N.log2 n))) n EmptyString.

(** Modelled from the spec: re-serialisation of a version number. *)
Definition version_text (v : VersionNumber) : string :=
  join "." (map decimal (release v)) ++ suffix v.

(** Modelled from the spec: a string that does not parse "is retained
    unchanged"; otherwise the version is normalised and written back. *)
Definition normalize_version_text (keep_full_version : bool) (s : string) : string :=
  match parse_version_number s with
  | Some v => version_text (normalize_version keep_full_version v)
  | None => s
  end.

End Versions.

(** ** A concrete setting for running the parser

    [Version] is instantiated with the release-only fragment of PEP 440
    (dot-separated numbers), the defaults with indent 2 and Python 3.12,
    and the file system with a working directory [/work] that holds a
    project file, a second regular file, a file that is not valid
    UTF-8, a file with CR LF line ends, two files whose names look
    like options, a directory and a file that may not be written.
    There are no symbolic links, and a name may have 255 bytes. *)

Module Example.

Definition Version : Type := list N.

Definition parse_version (s : string) : option Version :=
  match Versions.parse_version_number s with
  | Some v =>
      if String.eqb (Versions.suffix v) "" then Some (Versions.release v) else None
  | None => None
  end.

Definition DEFAULT_INDENT : Z := 2.
Definition DEFAULT_MAX_SUPPORTED_PYTHON : Version := [3%N; 12%N].

Definition directory : Node := mkNode Directory true true [].
Definition file (content : list byte) : Node := mkNode Regular true true content.

Definition files : list (string * Node) :=
  [ ("/", directory);
    ("/work", directory);
    ("/work/pyproject.toml", file [x61; x3d; x31; x0a]);
    ("/work/a.toml", file [x62; x3d; x32; x0a]);
    ("/work/latin1.toml", file [x61; x3d; x22; xe9; x22; x0a]);
    ("/work/crlf.toml", file [x61; x3d; x31; x0d; x0a]);
    ("/work/-s", file []);
    ("/work/--check", file []);
    ("/work/sub", directory);
    ("/work/readonly.toml", mkNode Regular true false []) ].

Fixpoint find_node (k : string) (l : list (string * Node)) : option Node :=
  match l with
  | [] => None
  | (k', n) :: rest => if String.eqb k k' then Some n else find_node k rest
  end.

(** [stat] walks the components from the root, or from the working
    directory for a relative path: what stands before a component
    must be a directory, [..] leads to the parent, and a path of 4096
    bytes or a name of more than 255 is [ENAMETOOLONG], an error that
    [pathlib] does not take for an answer. *)
Inductive Stat : Type := Found (n : Node) | NotThere | Fails.

Definition name (dir : list string) : string := "/" ++ join "/" dir.

Definition step (dir : list string) (c : string) : list string :=
  if String.eqb c ".." then removelast dir else dir ++ [c].

Fixpoint walk (dir : list string) (rest : list string) : Stat :=
  match find_node (name dir) files with
  | Some n =>
      match rest with
      | [] => Found n
      | c :: rest' =>
          match kind n with
          | Directory =>
              if Nat.ltb 255 (String.length c) then Fails
              else walk (step dir c) rest'
          | _ => NotThere
          end
      end
  | None => NotThere
  end.

Definition stat (p : Path) : Stat :=
  if Nat.leb 4096 (String.length (path_str p)) then Fails
  else walk (if String.eqb (root p) "" then ["work"] else []) (parts p).

Definition env : Env :=
  mkEnv "/work"
        (fun p => match stat p with Found n => Some n | _ => None end)
        (fun p => match stat p with Fails => true | _ => false end).

(** A name of 256 bytes. *)
Definition long_name : string := string_of_list_ascii (repeat "a"%char 256).

Definition cli_args (args : list string) : outcome (PyProjectFmtNamespace Version) :=
  cli_args parse_version DEFAULT_INDENT DEFAULT_MAX_SUPPORTED_PYTHON env args.

Definition work (name : string) : Path := mkPath "/" ["work"; name].

End Example.

(** ** Predicates used in the statements *)

(** What the validator asks of the path it returns: it resolves to a
    regular file that the process may read and write. *)
Definition valid_input (env : Env) (p : Path) : Prop :=
  exists n, lookup env p = Some n /\ kind n = Regular
            /\ r_ok n = true /\ w_ok n = true.

(** The four messages of [pyproject_toml_path_creator]. *)
Definition descriptive (msg : string) : Prop :=
  msg = "path does not exist" \/ msg = "path is not a file"
  \/ msg = "cannot read path" \/ msg = "cannot write path".

(** A token stands in a list, followed by exactly [after]. *)
Definition occurs (x : Tok) (after : list Tok) (l : list Tok) : Prop :=
  exists before, l = before ++ x :: after.


(** The namespace that [finish] builds from a state. *)
Definition returns (Version : Type) (st : ParseState Version)
           (ns : PyProjectFmtNamespace Version) : Prop :=
  ns_inputs st = Some (inputs ns) /\ ns_stdout st = stdout ns
  /\ ns_indent st = indent ns /\ ns_check st = check ns
  /\ ns_keep_full_version st = keep_full_version ns
  /\ ns_max_supported_python st = max_supported_python ns
  /\ extras st = [].

(** The two members of the mutually exclusive group are never both set,
    and a flag is set exactly when its action has been seen. *)
Definition exclusive (Version : Type) (st : ParseState Version) : Prop :=
  seen_stdout st = ns_stdout st /\ seen_check st = ns_check st
  /\ ns_stdout st && ns_check st = false.

(** An option tuple names an option string of the parser with its action,
    or no action at all. *)
Definition genuine (t : option_tuple) : Prop :=
  match t with
  | (Some a, o, _) => find_option o option_string_actions = Some a
  | (None, _, _) => True
  end.

(** The action that an argument string is parsed to, if it is parsed as
    an option of the parser. *)
Definition option_action (arg_string : string) : option Action :=
  match parse_optional arg_string with
  | Ok (Some (Some a, _, _)) => Some a
  | _ => None
  end.

(** An argument string that the parser reads as a positional argument:
    it is not the [--] separator and [_parse_optional] returns [None]
    for it (so for every string that does not begin with a dash). *)
Definition plain (arg_string : string) : bool :=
  negb (String.eqb arg_string "--") &&
  match parse_optional arg_string with
  | Ok None => true
  | _ => false
  end.

(** An argument string that can end the parse through the help or
    version action: it is parsed as one of these options, or as [-s]
    followed in the same string by further single-dash flags. *)
Definition asks_to_exit (arg_string : string) : bool :=
  match parse_optional arg_string with
  | Ok (Some (Some a, o, e)) =>
      match a with AHelp | AVersion => true | _ => false end
      || (String.eqb o "-s" && match e with Some _ => true | None => false end)
  | _ => false
  end.

Definition exit_free (t : option_tuple) : Prop :=
  match t with
  | (Some a, o, e) => a <> AHelp /\ a <> AVersion /\ (o = "-s" -> e = None)
  | (None, _, _) => True
  end.


(** The argument strings that [consume_optional] hands to an action: one
    for an option that takes an argument, none for a flag. *)
Definition well_shaped (tuple : Action * list string) : Prop :=
  if takes_argument (fst tuple) then exists v, snd tuple = [v]
  else snd tuple = [].

(** An option tuple whose action takes the argument string that follows
    it, and an argument string that is parsed to such a tuple. *)
Definition takes_next (t : option_tuple) : bool :=
  match t with
  | (Some a, _, None) => takes_argument a
  | _ => false
  end.

Definition value_taking (arg_string : string) : bool :=
  match parse_optional arg_string with
  | Ok (Some t) => takes_next t
  | _ => false
  end.

(** The tokens before an argument do not end in an option that takes it. *)
Definition guarded (before : list Tok) : Prop :=
  match last before TDash with
  | TO _ t => takes_next t = false
  | _ => True
  end.

(** The path of argument [a] is among the inputs taken so far, or some
    string has been left unrecognised (and the parse will end in an
    error). *)
Definition validated (Version : Type) (env : Env) (a : string)
           (st : ParseState Version) : Prop :=
  (exists paths, ns_inputs st = Some paths /\ In (resolve env a) paths)
  \/ extras st <> [].

(** The argument strings that stand before the first [--]: the only
    ones that [_parse_optional] is asked about. *)
Fixpoint before_separator (args : list string) : list string :=
  match args with
  | [] => []
  | a :: rest => if String.eqb a "--" then [] else a :: before_separator rest
  end.

(** The strings that a string starts with, shortest first. *)
Fixpoint prefixes (s : string) : list string :=
  EmptyString :: match s with
                 | EmptyString => []
                 | String c s' => map (String c) (prefixes s')
                 end.

(** In a pattern made by [classify], a [--] that has become an argument
    stands after the separator. *)
Definition separated (toks : list Tok) : Prop :=
  forall pre post, toks = pre ++ TA "--" :: post -> In TDash pre.

(** What makes sure that the parse ends with at least one input or in an
    error: a string has been left unrecognised, or paths have been
    taken, or the pattern that is left is [separated]. *)
Definition some_input (Version : Type) (st : ParseState Version)
           (toks : list Tok) : Prop :=
  extras st <> []
  \/ (exists paths, ns_inputs st = Some paths /\ paths <> [])
  \/ (ns_inputs st = None /\ separated toks).

(** A component as [Path] keeps it, and a path as the validator returns
    it: rooted, and made of such components. *)
Definition component (x : string) : Prop :=
  keep_component x = true /\ contains_char slash x = false.

Definition well_formed (p : Path) : Prop :=
  (root p = "/" \/ root p = "//") /\ Forall component (parts p).
(** * Properties *)

(** ** The path validator *)

Section ValidatorFacts.
Variable env : Env.

Lemma raises_absolute argument :
  raises env (absolute env (path_of_string argument)) = true ->
  resolve env argument = absolute env (path_of_string argument).
Proof.
  unfold raises, resolve, is_dir.
  destruct (lookup env _); [discriminate|reflexivity].
Qed.

Lemma creator_unfold argument :
  pyproject_toml_path_creator env argument =
  let path := resolve env argument in
  if raises env path then inr OSError
  else if negb (exists_ env path)
       then inr (ArgumentTypeError "path does not exist")
  else if negb (is_file env path)
       then inr (ArgumentTypeError "path is not a file")
  else if negb (access_r env path)
       then inr (ArgumentTypeError "cannot read path")
  else if negb (access_w env path)
       then inr (ArgumentTypeError "cannot write path")
  else inl path.
Proof.
  unfold pyproject_toml_path_creator. cbv zeta.
  destruct (raises env (absolute env (path_of_string argument))) eqn:R;
    [|reflexivity].
  rewrite (raises_absolute _ R), R. reflexivity.
Qed.

Lemma valid_input_checks p :
  valid_input env p <->
  exists_ env p = true /\ is_file env p = true
  /\ access_r env p = true /\ access_w env p = true.
Proof.
  unfold valid_input, exists_, is_file, access_r, access_w.
  destruct (lookup env p) as [n|].
  - split.
    + intros (n' & E & K & R & W). injection E as <-. rewrite K. auto.
    + intros (_ & K & R & W). exists n. repeat split; auto.
      destruct (kind n); congruence.
  - split.
    + intros (n' & E & _). discriminate.
    + intros (E & _). discriminate.
Qed.

Lemma valid_input_answers p : valid_input env p -> raises env p = false.
Proof.
  intros (n & L & _). unfold raises. rewrite L. reflexivity.
Qed.

Lemma creator_accepts argument p :
  pyproject_toml_path_creator env argument = inl p ->
  p = resolve env argument /\ valid_input env p.
Proof.
  rewrite creator_unfold. cbv zeta.
  destruct (raises env (resolve env argument)); [discriminate|].
  destruct (exists_ env (resolve env argument)) eqn:E; cbn; [|discriminate].
  destruct (is_file env (resolve env argument)) eqn:F; cbn; [|discriminate].
  destruct (access_r env (resolve env argument)) eqn:R; cbn; [|discriminate].
  destruct (access_w env (resolve env argument)) eqn:W; cbn; [|discriminate].
  intros H. injection H as <-. split; [reflexivity|].
  apply valid_input_checks. auto.
Qed.

Lemma creator_accepts_valid argument :
  valid_input env (resolve env argument) ->
  pyproject_toml_path_creator env argument = inl (resolve env argument).
Proof.
  intros V. pose proof (valid_input_answers V) as A.
  apply valid_input_checks in V. destruct V as (E & F & R & W).
  rewrite creator_unfold. cbv zeta. rewrite A, E, F, R, W. reflexivity.
Qed.

Lemma creator_rejects argument :
  ~ valid_input env (resolve env argument) ->
  raises env (resolve env argument) = false ->
  exists msg,
    pyproject_toml_path_creator env argument = inr (ArgumentTypeError msg)
    /\ descriptive msg.
Proof.
  intros NV A. rewrite creator_unfold. cbv zeta. rewrite A.
  unfold descriptive.
  destruct (exists_ env (resolve env argument)) eqn:E; cbn; [|eauto 6].
  destruct (is_file env (resolve env argument)) eqn:F; cbn; [|eauto 6].
  destruct (access_r env (resolve env argument)) eqn:R; cbn; [|eauto 6].
  destruct (access_w env (resolve env argument)) eqn:W; cbn; [|eauto 7].
  exfalso. apply NV, valid_input_checks. auto.
Qed.

Lemma creator_messages argument msg :
  pyproject_toml_path_creator env argument = inr (ArgumentTypeError msg) ->
  descriptive msg /\ raises env (resolve env argument) = false.
Proof.
  rewrite creator_unfold. cbv zeta. unfold descriptive.
  destruct (raises env _); [discriminate|].
  destruct (exists_ env _); cbn; [|intros H; injection H as <-; auto].
  destruct (is_file env _); cbn; [|intros H; injection H as <-; auto].
  destruct (access_r env _); cbn; [|intros H; injection H as <-; auto].
  destruct (access_w env _); cbn; [|intros H; injection H as <-; auto 6].
  discriminate.
Qed.

Lemma creator_raises argument :
  pyproject_toml_path_creator env argument = inr OSError <->
  raises env (resolve env argument) = true.
Proof.
  rewrite creator_unfold. cbv zeta.
  destruct (raises env _); [tauto|].
  split; [|discriminate].
  destruct (exists_ env _); cbn; [|discriminate].
  destruct (is_file env _); cbn; [|discriminate].
  destruct (access_r env _); cbn; [|discriminate].
  destruct (access_w env _); cbn; discriminate.
Qed.

Lemma absolute_is_absolute p :
  is_absolute (path_of_string (getcwd env)) = true ->
  is_absolute (absolute env p) = true.
Proof.
  intros C. unfold absolute. destruct (is_absolute p) eqn:A; [exact A|exact C].
Qed.

Lemma resolve_is_absolute argument :
  is_absolute (path_of_string (getcwd env)) = true ->
  is_absolute (resolve env argument) = true.
Proof.
  intros C. unfold resolve.
  destruct (is_dir env _); [unfold joinpath, is_absolute; cbn|];
    now apply absolute_is_absolute.
Qed.

End ValidatorFacts.

(** ** The outcome monad *)

Lemma bind_ok {A B : Type} (m : outcome A) (k : A -> outcome B) (b : B) :
  bind m k = Ok b -> exists a, m = Ok a /\ k a = Ok b.
Proof. destruct m; cbn; intros H; try discriminate. eauto. Qed.

Ltac bind_inv H :=
  let a := fresh "r" in
  let E := fresh "E" in
  apply bind_ok in H; destruct H as (a & E & H).

Lemma mapM_ok_length {A B : Type} (f : A -> outcome B) l bs :
  mapM f l = Ok bs -> length bs = length l.
Proof.
  revert bs. induction l as [|a l IH]; cbn; intros bs H.
  - injection H as <-. reflexivity.
  - bind_inv H. bind_inv H. injection H as <-. cbn. f_equal. eauto.
Qed.

Lemma mapM_ok_Forall2 {A B : Type} (f : A -> outcome B) l bs :
  mapM f l = Ok bs <-> Forall2 (fun a b => f a = Ok b) l bs.
Proof.
  revert bs. induction l as [|a l IH]; cbn; intros bs.
  - split; intros H.
    + injection H as <-. constructor.
    + inversion H. reflexivity.
  - split; intros H.
    + bind_inv H. bind_inv H. injection H as <-. constructor; [assumption|].
      now apply IH.
    + inversion H as [|? b ? bs' Hf Hr]; subst. rewrite Hf. cbn.
      apply IH in Hr. rewrite Hr. reflexivity.
Qed.

(** ** Tokens and what the consuming steps pass over *)

Lemma no_option_no_occurrence s t after l :
  existsb is_option l = false -> ~ occurs (TO s t) after l.
Proof.
  intros H (before & ->). rewrite existsb_app in H. cbn in H.
  rewrite orb_true_r in H. discriminate.
Qed.

Lemma occurs_skipn s t after l n :
  occurs (TO s t) after l ->
  existsb is_option (firstn n l) = false ->
  occurs (TO s t) after (skipn n l).
Proof.
  revert l. induction n as [|n IH]; intros l O F; [exact O|].
  destruct l as [|x l]; [exact O|]. cbn in F.
  apply orb_false_iff in F. destruct F as [Fx F].
  destruct O as (before & E). destruct before as [|y before]; cbn in E.
  - injection E as -> _. discriminate.
  - injection E as _ ->. cbn. apply IH; [eexists; reflexivity|exact F].
Qed.

Lemma count_args_and_dashes_no_option toks :
  existsb is_option (firstn (count_args_and_dashes toks) toks) = false.
Proof.
  induction toks as [|x toks IH]; [reflexivity|].
  destruct x; cbn; auto.
Qed.

Lemma match_one_or_more_no_option toks :
  existsb is_option (firstn (match_one_or_more toks) toks) = false.
Proof.
  induction toks as [|x toks IH]; [reflexivity|].
  destruct x; cbn; auto.
  - apply count_args_and_dashes_no_option.
  - destruct (match_one_or_more toks); cbn; auto.
Qed.

Lemma count_until_option_no_option toks :
  existsb is_option (firstn (count_until_option toks) toks) = false.
Proof.
  induction toks as [|x toks IH]; [reflexivity|].
  destruct x; cbn; auto.
Qed.

Lemma count_until_option_pos x toks :
  is_option x = false -> count_until_option (x :: toks) = S (count_until_option toks).
Proof. destruct x; cbn; congruence. Qed.

(** ** Classification keeps the strings *)

Lemma map_tok_string_TA l : map tok_string (map TA l) = l.
Proof. induction l; cbn; congruence. Qed.

Lemma classify_strings args toks :
  classify args = Ok toks -> map tok_string toks = args.
Proof.
  revert toks. induction args as [|a args IH]; cbn; intros toks H.
  - injection H as <-. reflexivity.
  - destruct (String.eqb a "--") eqn:D.
    + apply String.eqb_eq in D. subst a. injection H as <-. cbn.
      now rewrite map_tok_string_TA.
    + bind_inv H. bind_inv H. injection H as <-. cbn.
      f_equal; [destruct r; reflexivity|]. now apply IH.
Qed.

(** An argument that stands before the first [--] becomes the token that
    [_parse_optional] gives it, followed by the tokens of what follows. *)
Lemma classify_app before a after toks :
  classify (before ++ a :: after) = Ok toks ->
  ~ In "--" before -> a <> "--" ->
  exists o after',
    parse_optional a = Ok o /\ classify after = Ok after'
    /\ occurs (match o with None => TA a | Some t => TO a t end) after' toks.
Proof.
  revert toks. induction before as [|b before IH]; cbn; intros toks H NI NA.
  - apply String.eqb_neq in NA. rewrite NA in H.
    bind_inv H. bind_inv H. injection H as <-.
    exists r, r0. repeat split; auto. exists []. reflexivity.
  - destruct (String.eqb b "--") eqn:D.
    + apply String.eqb_eq in D. exfalso. apply NI. left. exact D.
    + bind_inv H. bind_inv H. injection H as <-.
      destruct (IH r0) as (o & after' & P & C & (pre & ->)); auto.
      exists o, after'. repeat split; auto.
      eexists (_ :: pre). reflexivity.
Qed.

Lemma classify_head v after toks :
  classify (v :: after) = Ok toks ->
  exists x rest, toks = x :: rest /\ tok_string x = v.
Proof.
  intros H. pose proof (classify_strings _ H) as S.
  destruct toks as [|x rest]; [discriminate|].
  injection S as S _. eauto.
Qed.

(** ** The parsing loop *)

Section ParserFacts.
Variable Version : Type.
Variable parse_version : string -> option Version.
Variable DEFAULT_INDENT : Z.
Variable DEFAULT_MAX_SUPPORTED_PYTHON : Version.
Variable env : Env.

Local Abbreviation State := (ParseState Version).
Local Abbreviation Namespace := (PyProjectFmtNamespace Version).
Local Abbreviation loop := (parse_loop parse_version env).
Local Abbreviation cli := (cli_args parse_version DEFAULT_INDENT
                                DEFAULT_MAX_SUPPORTED_PYTHON env).

Lemma parse_loop_nil skip (st : State) : loop skip st [] = finish env st [].
Proof. destruct skip; reflexivity. Qed.

Lemma parse_loop_skip k st tok rest :
  loop (S k) st (tok :: rest) = loop k st rest.
Proof. reflexivity. Qed.

Lemma parse_loop_step st tok rest :
  loop 0 st (tok :: rest) =
  if negb (existsb is_option (tok :: rest)) then finish env st (tok :: rest)
  else
    match tok with
    | TO s t =>
        '(st', n) <- consume_optional parse_version st s t rest ;;
        loop n st' rest
    | _ =>
        '(st', n) <- consume_positionals env st (tok :: rest) ;;
        match n with
        | S k => loop k st' rest
        | O =>
            let k := count_until_option (tok :: rest) in
            loop (k - 1)
                 (add_extras st' (map tok_string (firstn k (tok :: rest))))
                 rest
        end
    end.
Proof. reflexivity. Qed.

(** An option uses the next token only when that token is an argument. *)
Lemma action_tuples_count a o e rest tuples n :
  action_tuples a o e rest = Ok (tuples, n) ->
  existsb is_option (firstn n rest) = false.
Proof.
  unfold action_tuples. intros H. bind_inv H. destruct r as [ts last].
  destruct last as [a'|].
  - destruct (takes_argument a').
    + destruct rest as [|[v| |] rest]; try discriminate.
      injection H as _ <-. reflexivity.
    + injection H as _ <-. reflexivity.
  - injection H as _ <-. reflexivity.
Qed.

Lemma consume_optional_count st s t rest st' n :
  consume_optional parse_version st s t rest = Ok (st', n) ->
  existsb is_option (firstn n rest) = false.
Proof.
  destruct t as [[[a|] o] e]; cbn; intros H.
  - bind_inv H. destruct r as [tuples m]. bind_inv H. injection H as _ <-.
    eapply action_tuples_count; eauto.
  - injection H as _ <-. reflexivity.
Qed.

Lemma consume_positionals_count (st : State) toks st' n :
  consume_positionals env st toks = Ok (st', n) ->
  existsb is_option (firstn n toks) = false.
Proof.
  unfold consume_positionals. intros H.
  destruct (ns_inputs st).
  - injection H as _ <-. reflexivity.
  - pose proof (match_one_or_more_no_option toks) as M.
    destruct (match_one_or_more toks) eqn:E.
    + injection H as _ <-. reflexivity.
    + bind_inv H. injection H as _ <-. exact M.
Qed.

(** *** A property of the state that every step keeps

    [P] is what is known of the option tuples in the pattern, [given]
    the argument strings that the pattern was made from. *)

Section Invariant.
Variable I : State -> Prop.
Variable P : option_tuple -> Prop.
Variable given : list string.
Hypothesis I_optional : forall st s t rest st' n,
    P t -> I st ->
    consume_optional parse_version st s t rest = Ok (st', n) -> I st'.
Hypothesis I_inputs : forall args st st',
    incl args given -> I st -> take_inputs env args st = Ok st' -> I st'.
Hypothesis I_extras : forall st l, I st -> I (add_extras st l).

Lemma consume_positionals_keeps st toks st' n :
  incl (map tok_string toks) given ->
  I st -> consume_positionals env st toks = Ok (st', n) -> I st'.
Proof.
  unfold consume_positionals. intros G Hi H.
  destruct (ns_inputs st).
  - injection H as <- _. exact Hi.
  - destruct (match_one_or_more toks) eqn:M.
    + injection H as <- _. exact Hi.
    + bind_inv H. injection H as <- _.
      eapply I_inputs; [|exact Hi|exact E].
      intros x Hx. apply G. rewrite <- (firstn_skipn (S n0) toks).
      rewrite map_app. apply in_or_app. now left.
Qed.

Lemma finish_keeps st toks ns :
  incl (map tok_string toks) given ->
  I st -> finish env st toks = Ok ns -> exists st', I st' /\ returns st' ns.
Proof.
  unfold finish. intros G Hi H. bind_inv H. destruct r as [st1 stop].
  apply consume_positionals_keeps in E; [|exact G|exact Hi].
  set (st2 := add_extras st1 _) in H.
  assert (I2 : I st2) by (apply I_extras; exact E).
  destruct (ns_inputs st2) as [paths|] eqn:Q; [|discriminate].
  destruct (extras st2) eqn:X; [|discriminate].
  injection H as <-. exists st2. unfold returns. cbn. auto 10.
Qed.

Lemma parse_loop_keeps toks : forall skip st ns,
  Forall (fun tok => match tok with TO _ t => P t | _ => True end) toks ->
  incl (map tok_string toks) given ->
  I st -> loop skip st toks = Ok ns -> exists st', I st' /\ returns st' ns.
Proof.
  induction toks as [|tok rest IH]; intros skip st ns W G Hi H.
  - rewrite parse_loop_nil in H. eapply finish_keeps; eauto.
  - assert (G' : incl (map tok_string rest) given)
      by (intros x Hx; apply G; now right).
    inversion W as [|? ? Wt W']; subst.
    destruct skip as [|k]; [|rewrite parse_loop_skip in H; eauto].
    rewrite parse_loop_step in H.
    destruct (negb (existsb is_option (tok :: rest)));
      [eapply finish_keeps; [exact G|exact Hi|exact H]|].
    destruct tok as [v|s t|].
    + bind_inv H. destruct r as [st' n].
      apply consume_positionals_keeps in E; [|exact G|exact Hi].
      destruct n; eauto.
    + bind_inv H. destruct r as [st' n].
      eapply IH; [exact W'|exact G'| |exact H].
      eapply I_optional; eauto.
    + bind_inv H. destruct r as [st' n].
      apply consume_positionals_keeps in E; [|exact G|exact Hi].
      destruct n; eauto.
Qed.

(** *** Every option token is consumed

    If the parse returns, the option token that stands at a given
    place has been through [consume_optional], and what that
    established is still there at the end. *)
Variables (s0 : string) (t0 : option_tuple) (after0 : list Tok).
Hypothesis established : forall st st' n,
    consume_optional parse_version st s0 t0 after0 = Ok (st', n) -> I st'.

Lemma parse_loop_visits toks : forall skip st ns,
  Forall (fun tok => match tok with TO _ t => P t | _ => True end) toks ->
  incl (map tok_string toks) given ->
  I st \/ occurs (TO s0 t0) after0 (skipn skip toks) ->
  loop skip st toks = Ok ns -> exists st', I st' /\ returns st' ns.
Proof.
  induction toks as [|tok rest IH]; intros skip st ns W G Hpre H.
  - rewrite parse_loop_nil in H.
    destruct Hpre as [Hi|O]; [eapply finish_keeps; eauto|].
    rewrite skipn_nil in O. destruct O as ([|] & O); discriminate.
  - assert (G' : incl (map tok_string rest) given)
      by (intros x Hx; apply G; now right).
    inversion W as [|? ? Wt W']; subst.
    destruct skip as [|k]; [|rewrite parse_loop_skip in H; eauto].
    rewrite parse_loop_step in H. cbn [skipn] in Hpre.
    destruct (existsb is_option (tok :: rest)) eqn:X; cbn [negb] in H.
    2:{ destruct Hpre as [Hi|O];
          [eapply finish_keeps; [exact G|exact Hi|exact H]|].
        exfalso. eapply no_option_no_occurrence; eauto. }
    assert (step_positionals : forall st' n,
               is_option tok = false ->
               consume_positionals env st (tok :: rest) = Ok (st', n) ->
               (match n with
                | S k => loop k st' rest
                | O => let k := count_until_option (tok :: rest) in
                       loop (k - 1)
                         (add_extras st'
                            (map tok_string (firstn k (tok :: rest)))) rest
                end = Ok ns) ->
               exists st'', I st'' /\ returns st'' ns).
    { intros st' n T E L.
      assert (Keep : I st -> I st')
        by (intros Hi; eapply consume_positionals_keeps;
            [exact G|exact Hi|exact E]).
      destruct n as [|k].
      - cbv zeta in L. rewrite (count_until_option_pos tok rest T) in L.
        replace (S (count_until_option rest) - 1)
          with (count_until_option rest) in L by lia.
        eapply IH; [exact W'|exact G'| |exact L].
        destruct Hpre as [Hi|O]; [left; auto|right].
        pose proof (count_until_option_no_option (tok :: rest)) as N.
        rewrite (count_until_option_pos tok rest T) in N.
        apply (@occurs_skipn s0 t0 after0 (tok :: rest)
                 (S (count_until_option rest)) O N).
      - eapply IH; [exact W'|exact G'| |exact L].
        destruct Hpre as [Hi|O]; [left; auto|right].
        apply consume_positionals_count in E.
        apply (@occurs_skipn s0 t0 after0 (tok :: rest) (S k) O E). }
    destruct tok as [v|s t|].
    + bind_inv H. destruct r as [st' n]. eapply step_positionals; eauto.
    + bind_inv H. destruct r as [st' n].
      eapply IH; [exact W'|exact G'| |exact H].
      destruct Hpre as [Hi|(before & O)].
      * left. eapply I_optional; eauto.
      * destruct before as [|y before]; cbn in O.
        -- injection O as -> -> ->. left. eapply established; eauto.
        -- injection O as _ ->. right.
           apply consume_optional_count in E.
           apply occurs_skipn; [eexists; reflexivity|exact E].
    + bind_inv H. destruct r as [st' n]. eapply step_positionals; eauto.
Qed.

End Invariant.

(** *** What the actions do to the state *)

Ltac case_action H :=
  repeat match type of H with
         | bind _ _ = Ok _ =>
             let value := fresh "value" in
             let E := fresh "E" in
             apply bind_ok in H; destruct H as (value & E & H)
         | context [if ?b then _ else _] => destruct b eqn:?
         | context [match ?x with _ => _ end] => destruct x eqn:?
         end;
  try discriminate H; try (injection H as <-).

Lemma take_action_inputs a args (st st' : State) :
  take_action parse_version a args st = Ok st' ->
  ns_inputs st' = ns_inputs st /\ extras st' = extras st.
Proof. intros H. destruct a; cbn in H; case_action H; auto. Qed.

Lemma take_action_exclusive a args (st st' : State) :
  exclusive st -> take_action parse_version a args st = Ok st' -> exclusive st'.
Proof.
  unfold exclusive. intros (S & C & X) H.
  destruct a; cbn in H; case_action H; cbn; auto;
    repeat split; auto; rewrite ?andb_true_r; congruence.
Qed.

Lemma take_action_stdout_stays a args (st st' : State) :
  ns_stdout st = true -> take_action parse_version a args st = Ok st' ->
  ns_stdout st' = true.
Proof. intros S H. destruct a; cbn in H; case_action H; auto. Qed.

Lemma take_action_check_stays a args (st st' : State) :
  ns_check st = true -> take_action parse_version a args st = Ok st' ->
  ns_check st' = true.
Proof. intros S H. destruct a; cbn in H; case_action H; auto. Qed.

Lemma take_inputs_fields args (st st' : State) :
  take_inputs env args st = Ok st' ->
  mapM (convert_input env) (remove_double_dash args) = Ok
    match ns_inputs st' with Some paths => paths | None => [] end
  /\ ns_inputs st' <> None
  /\ ns_stdout st' = ns_stdout st /\ ns_indent st' = ns_indent st
  /\ ns_check st' = ns_check st
  /\ ns_keep_full_version st' = ns_keep_full_version st
  /\ ns_max_supported_python st' = ns_max_supported_python st
  /\ seen_stdout st' = seen_stdout st /\ seen_check st' = seen_check st
  /\ extras st' = extras st.
Proof.
  unfold take_inputs. intros H. bind_inv H. injection H as <-. cbn.
  repeat split; auto. discriminate.
Qed.

(** A property kept by every action is kept by [consume_optional]. *)
Lemma take_actions_keeps (I : State -> Prop) tuples :
  (forall a args st st',
      I st -> take_action parse_version a args st = Ok st' -> I st') ->
  forall st st',
    I st -> take_actions parse_version tuples st = Ok st' -> I st'.
Proof.
  intros I_action.
  induction tuples as [|[a args] tuples IH]; cbn; intros st st' Hi H.
  - injection H as <-. exact Hi.
  - bind_inv H. eauto.
Qed.

Lemma consume_optional_keeps (I : State -> Prop) :
  (forall a args st st',
      I st -> take_action parse_version a args st = Ok st' -> I st') ->
  (forall st l, I st -> I (add_extras st l)) ->
  forall st s t rest st' n,
    I st ->
    consume_optional parse_version st s t rest = Ok (st', n) -> I st'.
Proof.
  intros I_action I_extras st s t rest st' n Hi H.
  destruct t as [[[a|] o] e]; cbn in H.
  - bind_inv H. destruct r as [tuples m]. bind_inv H. injection H as <- _.
    eapply take_actions_keeps; eauto.
  - injection H as <- _. auto.
Qed.

Lemma remove_double_dash_incl l : incl (remove_double_dash l) l.
Proof.
  induction l as [|x l IH]; cbn; [easy|].
  destruct (String.eqb x "--").
  - now apply incl_tl.
  - intros y [->|Hy]; [now left|right; now apply IH].
Qed.

Lemma all_tokens_true toks :
  Forall (fun tok => match tok with TO _ _ => True | _ => True end) toks.
Proof. induction toks as [|[| |] ? ?]; constructor; auto. Qed.

(** *** Where the inputs of a returned namespace come from *)

Lemma cli_args_inputs args ns :
  cli args = Ok ns ->
  exists given,
    incl given args /\ mapM (convert_input env) given = Ok (inputs ns).
Proof.
  unfold cli_args. intros H. bind_inv H. rename r into toks.
  pose proof (classify_strings _ E) as S.
  cut (exists st' : State,
          (forall paths, ns_inputs st' = Some paths ->
             exists given, incl given args
                           /\ mapM (convert_input env) given = Ok paths)
          /\ returns st' ns).
  { intros (st' & Hi & R & _). eauto. }
  eapply (@parse_loop_keeps _ (fun _ => True) args); [| | | | | |exact H].
  - intros st s t rest st' n _. revert st s t rest st' n.
    refine (consume_optional_keeps _ _ _).
    + intros a l st st' Hi T paths Q.
      apply take_action_inputs in T. destruct T as [T _].
      rewrite T in Q. eauto.
    + intros st l Hi paths Q. eauto.
  - intros l st st' G _ T paths Q.
    apply take_inputs_fields in T. destruct T as (M & _).
    rewrite Q in M. exists (remove_double_dash l). split; [|exact M].
    intros x Hx. apply G. now apply remove_double_dash_incl.
  - intros st l Hi paths Q. eauto.
  - apply all_tokens_true.
  - rewrite S. apply incl_refl.
  - intros paths Q. discriminate.
Qed.

Lemma convert_input_ok a p :
  convert_input env a = Ok p <-> pyproject_toml_path_creator env a = inl p.
Proof.
  unfold convert_input.
  destruct (pyproject_toml_path_creator env a) as [q|[msg|]];
    split; congruence.
Qed.

(** *** The flags of the mutually exclusive group *)

Lemma cli_args_exclusive args ns :
  cli args = Ok ns -> stdout ns && check ns = false.
Proof.
  unfold cli_args. intros H. bind_inv H. rename r into toks.
  cut (exists st' : State, exclusive st' /\ returns st' ns).
  { intros (st' & (_ & _ & X) & R).
    destruct R as (_ & <- & _ & <- & _). exact X. }
  eapply (@parse_loop_keeps _ (fun _ => True) args); [| | | | | |exact H].
  - intros st s t rest st' n _. revert st s t rest st' n.
    refine (consume_optional_keeps _ _ _).
    + intros; eapply take_action_exclusive; eauto.
    + intros st l X. exact X.
  - intros l st st' _ (S & C & X) T. apply take_inputs_fields in T.
    destruct T as (_ & _ & Es & _ & Ec & _ & _ & Ss & Sc & _).
    unfold exclusive. rewrite Es, Ec, Ss, Sc. auto.
  - intros st l X. exact X.
  - apply all_tokens_true.
  - rewrite (classify_strings _ E). apply incl_refl.
  - repeat split.
Qed.

(** *** Invocations made of positional arguments only *)

Lemma classify_plain args :
  forallb plain args = true -> classify args = Ok (map TA args).
Proof.
  induction args as [|a args IH]; cbn; [reflexivity|].
  intros H. apply andb_true_iff in H. destruct H as [Pa H].
  unfold plain in Pa. apply andb_true_iff in Pa. destruct Pa as [D O].
  apply negb_true_iff in D. rewrite D.
  destruct (parse_optional a) as [[t|]| |]; try discriminate.
  cbn. rewrite (IH H). reflexivity.
Qed.

Lemma no_option_map_TA l : existsb is_option (map TA l) = false.
Proof. induction l; cbn; auto. Qed.

Lemma count_args_map_TA l : count_args_and_dashes (map TA l) = length l.
Proof. induction l; cbn; auto. Qed.

Lemma remove_double_dash_plain args :
  forallb plain args = true -> remove_double_dash args = args.
Proof.
  induction args as [|a args IH]; cbn; [reflexivity|].
  intros H. apply andb_true_iff in H. destruct H as [Pa H].
  unfold plain in Pa. apply andb_true_iff in Pa. destruct Pa as [D _].
  apply negb_true_iff in D. rewrite D, (IH H). reflexivity.
Qed.

Lemma cli_args_plain a args :
  forallb plain (a :: args) = true ->
  cli (a :: args) =
  (paths <- mapM (convert_input env) (a :: args) ;;
   Ok (mkNamespace paths false (Value DEFAULT_INDENT) false false
                   (Value DEFAULT_MAX_SUPPORTED_PYTHON))).
Proof.
  intros Pl. unfold cli_args. rewrite (classify_plain _ Pl).
  cbn [bind map]. rewrite parse_loop_step.
  change (TA a :: map TA args) with (map TA (a :: args)).
  rewrite no_option_map_TA. cbn [negb].
  unfold finish, consume_positionals. cbn [ns_inputs initial_state].
  cbn [map match_one_or_more]. rewrite count_args_map_TA.
  change (TA a :: map TA args) with (map TA (a :: args)).
  replace (firstn (S (length args)) (map TA (a :: args)))
    with (map TA (a :: args))
    by (symmetry; apply firstn_all2; rewrite length_map; cbn; lia).
  rewrite map_tok_string_TA. unfold take_inputs.
  rewrite (remove_double_dash_plain _ Pl).
  destruct (mapM (convert_input env) (a :: args)) as [paths| |] eqn:M;
    try reflexivity.
  cbn [bind].
  replace (skipn (S (length args)) (map TA (a :: args))) with (@nil Tok)
    by (symmetry; apply skipn_all2; rewrite length_map; cbn; lia).
  reflexivity.
Qed.

Lemma convert_input_outcome a :
  (exists p, convert_input env a = Ok p)
  \/ (exists msg, convert_input env a = Error (EArgumentInputs msg)
                  /\ descriptive msg)
  \/ (convert_input env a = Error EUncaughtOSError
      /\ raises env (resolve env a) = true).
Proof.
  unfold convert_input.
  destruct (pyproject_toml_path_creator env a) as [p|[msg|]] eqn:C;
    [left; eauto|right; left|right; right].
  - exists msg. split; [reflexivity|]. eapply creator_messages; eauto.
  - split; [reflexivity|]. now apply creator_raises.
Qed.

Lemma convert_input_error a e :
  convert_input env a = Error e ->
  ~ valid_input env (resolve env a)
  /\ ((exists msg, e = EArgumentInputs msg /\ descriptive msg
                   /\ raises env (resolve env a) = false)
      \/ (e = EUncaughtOSError /\ raises env (resolve env a) = true)).
Proof.
  unfold convert_input.
  destruct (pyproject_toml_path_creator env a) as [p|[msg|]] eqn:C;
    [discriminate| |]; intros H; injection H as <-.
  - split.
    + intros V. rewrite (creator_accepts_valid _ V) in C. discriminate.
    + left. exists msg. split; [reflexivity|]. eapply creator_messages; eauto.
  - split.
    + intros V. rewrite (creator_accepts_valid _ V) in C. discriminate.
    + right. split; [reflexivity|]. now apply creator_raises.
Qed.

Lemma convert_input_rejects a :
  ~ valid_input env (resolve env a) -> exists e, convert_input env a = Error e.
Proof.
  intros NV. destruct (convert_input_outcome a) as [(p & C)|[(msg & C & _)|[C _]]];
    eauto.
  apply convert_input_ok, creator_accepts in C. destruct C as [-> V].
  contradiction.
Qed.

Lemma mapM_convert_outcome args :
  (exists paths, mapM (convert_input env) args = Ok paths)
  \/ (exists msg, mapM (convert_input env) args = Error (EArgumentInputs msg)
                  /\ descriptive msg)
  \/ mapM (convert_input env) args = Error EUncaughtOSError.
Proof.
  induction args as [|a args IH]; cbn; [left; eauto|].
  destruct (convert_input_outcome a) as [(p & ->)|[(msg & -> & D)|[-> _]]];
    cbn.
  - destruct IH as [(paths & ->)|[(msg & -> & D)| ->]]; cbn; eauto.
  - right. left. eauto.
  - right. right. reflexivity.
Qed.

Lemma mapM_convert_rejects args a :
  In a args -> ~ valid_input env (resolve env a) ->
  (exists msg, mapM (convert_input env) args = Error (EArgumentInputs msg)
               /\ descriptive msg)
  \/ mapM (convert_input env) args = Error EUncaughtOSError.
Proof.
  intros Ha NV. destruct (mapM_convert_outcome args) as [(paths & M)|R];
    [exfalso|exact R].
  apply mapM_ok_Forall2 in M. revert paths M.
  induction args as [|b args IH]; [destruct Ha|].
  intros paths M. inversion M as [|? p ? ps Cb Mr]; subst.
  destruct Ha as [->|Ha]; [|eauto].
  apply convert_input_ok, creator_accepts in Cb. destruct Cb as [-> V].
  exact (NV V).
Qed.

(** The first argument that does not pass decides the outcome. *)
Lemma mapM_convert_first before a after e :
  Forall (fun x => valid_input env (resolve env x)) before ->
  convert_input env a = Error e ->
  mapM (convert_input env) (before ++ a :: after) = Error e.
Proof.
  intros V C. induction V as [|b before Vb V IH]; cbn.
  - rewrite C. reflexivity.
  - unfold convert_input at 1. rewrite (creator_accepts_valid _ Vb).
    cbn. rewrite IH. reflexivity.
Qed.

(** When every query answers, what ends a conversion is a message. *)
Lemma mapM_convert_caught args :
  (forall a, In a args -> raises env (resolve env a) = false) ->
  mapM (convert_input env) args <> Error EUncaughtOSError.
Proof.
  induction args as [|a args IH]; cbn; intros A; [discriminate|].
  destruct (convert_input_outcome a) as [(p & ->)|[(msg & -> & D)|[_ R]]];
    cbn.
  - destruct (mapM (convert_input env) args) as [ps|e|] eqn:M; cbn;
      try discriminate.
    intros H. injection H as ->. apply IH; [|reflexivity].
    intros b Hb. apply A. now right.
  - discriminate.
  - rewrite (A a (or_introl eq_refl)) in R. discriminate.
Qed.

Lemma cli_args_valid_inputs args ns :
  cli args = Ok ns ->
  exists given,
    incl given args
    /\ Forall2 (fun a p => pyproject_toml_path_creator env a = inl p
                           /\ p = resolve env a /\ valid_input env p)
               given (inputs ns).
Proof.
  intros H. apply cli_args_inputs in H. destruct H as (given & G & M).
  exists given. split; [exact G|].
  apply mapM_ok_Forall2 in M. clear G.
  induction M as [|a p l ps C M IH]; constructor; [|exact IH].
  apply convert_input_ok in C. split; [exact C|].
  now apply creator_accepts.
Qed.

(** *** Parsing looks at no file content *)







(** *** Option tuples *)

Lemma split_cluster_eq a o e :
  split_cluster a o e =
  if takes_argument a then Ok ([(a, [e])], None)
  else
    match e with
    | String c tail =>
        if second_is_dash o then Error (EIgnoredExplicitArgument a e)
        else
          let o' := String dash (String c EmptyString) in
          match find_option o' option_string_actions with
          | Some a' =>
              match tail with
              | EmptyString => Ok ([(a, [])], Some a')
              | _ =>
                  '(tuples, last) <- split_cluster a' o' tail ;;
                  Ok ((a, []) :: tuples, last)
              end
          | None => Error (EIgnoredExplicitArgument a e)
          end
    | EmptyString => Error (EIgnoredExplicitArgument a e)
    end.
Proof. destruct e; reflexivity. Qed.

Lemma split_cluster_head a o e tuples last :
  split_cluster a o e = Ok (tuples, last) ->
  exists args rest, tuples = (a, args) :: rest.
Proof.
  rewrite split_cluster_eq.
  destruct (takes_argument a); [intros H; injection H as <- _; eauto|].
  destruct e as [|c tail]; [discriminate|].
  destruct (second_is_dash o); [discriminate|]. cbv zeta.
  destruct (find_option (String dash (String c EmptyString))
                        option_string_actions) as [a'|]; [|discriminate].
  destruct tail.
  - intros H; injection H as <- _; eauto.
  - intros H. bind_inv H. destruct r as [ts l]. injection H as <- _. eauto.
Qed.

Lemma action_tuples_head a o e rest tuples n :
  action_tuples a o e rest = Ok (tuples, n) ->
  exists args tl, tuples = (a, args) :: tl.
Proof.
  unfold action_tuples. intros H. bind_inv H. destruct r as [ts last].
  assert (Hd : ts = [] /\ last = Some a \/ exists args tl, ts = (a, args) :: tl).
  { destruct e as [x|].
    - right. eapply split_cluster_head; eauto.
    - left. injection E as <- <-. auto. }
  destruct last as [a'|].
  - destruct (takes_argument a').
    + destruct rest as [|[v| |] rest]; try discriminate.
      injection H as <- _.
      destruct Hd as [[-> L]|(args & tl & ->)]; [injection L as ->|];
        cbn; eauto.
    + injection H as <- _.
      destruct Hd as [[-> L]|(args & tl & ->)]; [injection L as ->|];
        cbn; eauto.
  - injection H as <- _. destruct Hd as [[_ L]|Hd]; [discriminate|exact Hd].
Qed.

(** An action that takes an argument is always handed exactly one
    string, a flag none: the last branch of [take_action] for the typed
    options is never reached from [consume_optional]. *)
Lemma split_cluster_shape e : forall a o tuples last,
  split_cluster a o e = Ok (tuples, last) -> Forall well_shaped tuples.
Proof.
  induction e as [|c tail IH]; intros a o tuples last H;
    rewrite split_cluster_eq in H;
    destruct (takes_argument a) eqn:T.
  - injection H as <- <-. constructor; [|constructor].
    unfold well_shaped. cbn. rewrite T. eauto.
  - discriminate.
  - injection H as <- <-. constructor; [|constructor].
    unfold well_shaped. cbn. rewrite T. eauto.
  - destruct (second_is_dash o); [discriminate|]. cbv zeta in H.
    destruct (find_option (String dash (String c EmptyString))
                          option_string_actions) as [a'|]; [|discriminate].
    assert (W : well_shaped (a, @nil string))
      by (unfold well_shaped; cbn; rewrite T; reflexivity).
    destruct tail.
    + injection H as <- <-. constructor; [exact W|constructor].
    + bind_inv H. destruct r as [ts l]. injection H as <- <-.
      constructor; [exact W|]. eapply IH; eauto.
Qed.

Lemma action_tuples_shape a o e rest tuples n :
  action_tuples a o e rest = Ok (tuples, n) -> Forall well_shaped tuples.
Proof.
  unfold action_tuples. intros H. bind_inv H. destruct r as [ts last].
  assert (F : Forall well_shaped ts).
  { destruct e as [x|].
    - eapply split_cluster_shape; eauto.
    - injection E as <- _. constructor. }
  destruct last as [a'|].
  - destruct (takes_argument a') eqn:T.
    + destruct rest as [|[v| |] rest]; try discriminate.
      injection H as <- _. apply Forall_app. split; [exact F|].
      constructor; [|constructor]. unfold well_shaped. cbn. rewrite T. eauto.
    + injection H as <- _. apply Forall_app. split; [exact F|].
      constructor; [|constructor]. unfold well_shaped. cbn. rewrite T.
      reflexivity.
  - injection H as <- _. exact F.
Qed.

(** What the first action of an option token sets stays set. *)
Lemma consume_optional_first (I : State -> Prop) a o e s rest st st' n :
  (forall args st st', take_action parse_version a args st = Ok st' -> I st') ->
  (forall a args st st',
      I st -> take_action parse_version a args st = Ok st' -> I st') ->
  consume_optional parse_version st s (Some a, o, e) rest = Ok (st', n) ->
  I st'.
Proof.
  intros First Keep H. cbn in H. bind_inv H. destruct r as [tuples m].
  bind_inv H. injection H as <- _.
  apply action_tuples_head in E. destruct E as (args & tl & ->).
  cbn in E0. bind_inv E0.
  eapply take_actions_keeps; [exact Keep| |exact E0]. eauto.
Qed.

Lemma parse_optional_not_separator a o :
  parse_optional a = Ok o -> a <> "--".
Proof. intros H ->. vm_compute in H. discriminate. Qed.

(** An argument that stands before the first [--] and is parsed as the
    option of [-s/--stdout] sets [stdout] in every namespace returned;
    the same for [--check]. *)
Lemma option_sets_flag (I : State -> Prop) act before a after o e ns :
  (forall args st st', take_action parse_version act args st = Ok st' -> I st') ->
  (forall a args st st',
      I st -> take_action parse_version a args st = Ok st' -> I st') ->
  (forall args st st', I st -> take_inputs env args st = Ok st' -> I st') ->
  (forall st l, I st -> I (add_extras st l)) ->
  ~ In "--" before ->
  parse_optional a = Ok (Some (Some act, o, e)) ->
  cli (before ++ a :: after) = Ok ns ->
  exists st', I st' /\ returns st' ns.
Proof.
  intros First Keep KeepIn KeepEx NI Pa H.
  unfold cli_args in H. bind_inv H. rename r into toks.
  pose proof (classify_strings _ E) as S.
  apply classify_app in E; [|exact NI|eapply parse_optional_not_separator; eauto].
  destruct E as (o' & after' & Pa' & _ & Occ).
  rewrite Pa in Pa'. injection Pa' as <-.
  eapply (@parse_loop_visits I (fun _ => True) (before ++ a :: after));
    [| | | | | | |exact H].
  - intros st s t rest st' n _. revert st s t rest st' n.
    refine (consume_optional_keeps _ _ _); eauto.
  - intros; eapply KeepIn; eauto.
  - exact KeepEx.
  - intros st st' n C. eapply consume_optional_first; eauto.
  - apply all_tokens_true.
  - rewrite S. apply incl_refl.
  - right. exact Occ.
Qed.

Lemma stdout_option_sets before a after o e ns :
  ~ In "--" before ->
  parse_optional a = Ok (Some (Some AStdout, o, e)) ->
  cli (before ++ a :: after) = Ok ns -> stdout ns = true.
Proof.
  intros NI Pa H.
  destruct (@option_sets_flag (fun st => ns_stdout st = true) AStdout
              before a after o e ns) as (st' & Hs & R); auto.
  - intros args st st' T. cbn in T. case_action T. reflexivity.
  - intros; eapply take_action_stdout_stays; eauto.
  - intros args st st' Hs T. apply take_inputs_fields in T.
    destruct T as (_ & _ & -> & _). exact Hs.
  - destruct R as (_ & <- & _). exact Hs.
Qed.

Lemma check_option_sets before a after o e ns :
  ~ In "--" before ->
  parse_optional a = Ok (Some (Some ACheck, o, e)) ->
  cli (before ++ a :: after) = Ok ns -> check ns = true.
Proof.
  intros NI Pa H.
  destruct (@option_sets_flag (fun st => ns_check st = true) ACheck
              before a after o e ns) as (st' & Hs & R); auto.
  - intros args st st' T. cbn in T. case_action T. reflexivity.
  - intros; eapply take_action_check_stays; eauto.
  - intros args st st' Hs T. apply take_inputs_fields in T.
    destruct T as (_ & _ & _ & _ & -> & _). exact Hs.
  - destruct R as (_ & _ & _ & <- & _). exact Hs.
Qed.

(** *** Option tuples name options of the parser *)

Lemma find_option_In o a l : find_option o l = Some a -> In (o, a) l.
Proof.
  induction l as [|[k b] l IH]; cbn; [discriminate|].
  destruct (String.eqb o k) eqn:K.
  - apply String.eqb_eq in K. intros H. injection H as ->. subst. now left.
  - intros H. right. auto.
Qed.

Lemma table_find o a :
  In (o, a) option_string_actions ->
  find_option o option_string_actions = Some a.
Proof.
  cbn. intros H.
  repeat (destruct H as [H|H]; [injection H as <- <-; reflexivity|]).
  destruct H.
Qed.

Lemma long_option_tuples_genuine s t :
  In t (long_option_tuples s) -> genuine t.
Proof.
  unfold long_option_tuples.
  destruct (if contains_char equals_sign s then _ else _) as [prefix e].
  intros H. apply in_flat_map in H. destruct H as ([o a] & Hin & Ht).
  destruct (startswith o prefix); [|destruct Ht].
  destruct Ht as [<-|[]]. cbn. now apply table_find.
Qed.

Lemma short_option_tuples_genuine s t :
  In t (short_option_tuples s) -> genuine t.
Proof.
  unfold short_option_tuples.
  intros H. apply in_flat_map in H. destruct H as ([o a] & Hin & Ht).
  destruct (String.eqb o (take2 s)).
  - destruct Ht as [<-|[]]. cbn. now apply table_find.
  - destruct (startswith o s); [|destruct Ht].
    destruct Ht as [<-|[]]. cbn. now apply table_find.
Qed.

Lemma parse_optional_genuine a t :
  parse_optional a = Ok (Some t) -> genuine t.
Proof.
  unfold parse_optional. destruct a as [|c0 a']; [discriminate|].
  destruct (negb (Ascii.eqb c0 dash)); [discriminate|].
  destruct (find_option (String c0 a') option_string_actions) as [act|] eqn:F.
  { intros H. injection H as <-. exact F. }
  destruct (Nat.eqb _ 1); [discriminate|].
  match goal with
  | |- context [if ?b then ?x else None] =>
      destruct (if b then x else None) as [t'|] eqn:W
  end.
  { intros H. injection H as <-.
    destruct (contains_char equals_sign (String c0 a')); [|discriminate].
    destruct (split_once equals_sign (String c0 a')) as [o e].
    destruct (find_option o option_string_actions) eqn:F'; [|discriminate].
    injection W as <-. exact F'. }
  destruct (get_option_tuples (String c0 a')) as [|t1 [|t2 l]] eqn:G.
  - destruct (looks_like_negative_number (String c0 a')); [discriminate|].
    destruct (contains_char " "%char (String c0 a')); [discriminate|].
    intros H. injection H as <-. exact Logic.I.
  - intros H. injection H as <-.
    assert (In t1 (get_option_tuples (String c0 a'))) by (rewrite G; now left).
    unfold get_option_tuples in H.
    destruct (second_is_dash _);
      [eapply long_option_tuples_genuine|eapply short_option_tuples_genuine];
      eauto.
  - discriminate.
Qed.

Lemma Forall_map_TA (Q : Tok -> Prop) l :
  (forall v, Q (TA v)) -> Forall Q (map TA l).
Proof. intros H. induction l; cbn; constructor; auto. Qed.

Lemma classify_parsed args toks :
  classify args = Ok toks ->
  Forall (fun tok => match tok with
                     | TO s t => In s args /\ parse_optional s = Ok (Some t)
                     | _ => True
                     end) toks.
Proof.
  revert toks. induction args as [|a args IH]; cbn; intros toks H.
  - injection H as <-. constructor.
  - destruct (String.eqb a "--").
    + injection H as <-. constructor; [exact Logic.I|].
      apply Forall_map_TA. intros v. exact Logic.I.
    + bind_inv H. bind_inv H. injection H as <-.
      constructor.
      * destruct r; auto.
      * eapply Forall_impl; [|apply IH; exact E0].
        intros [v|s t|]; auto. intros [Hs Hp]. auto.
Qed.

(** *** When no argument names a member of the exclusive group *)

Lemma take_action_other_flags a args (st st' : State) :
  a <> AStdout -> a <> ACheck ->
  take_action parse_version a args st = Ok st' ->
  ns_stdout st' = ns_stdout st /\ ns_check st' = ns_check st.
Proof.
  intros NS NC H. destruct a; try congruence; cbn in H; case_action H; auto.
Qed.

Lemma consume_optional_other_flags (st : State) s a o e rest st' n :
  genuine (Some a, o, e) -> a <> AStdout -> a <> ACheck ->
  consume_optional parse_version st s (Some a, o, e) rest = Ok (st', n) ->
  ns_stdout st' = ns_stdout st /\ ns_check st' = ns_check st.
Proof.
  intros G NS NC H.
  change (find_option o option_string_actions = Some a) in G.
  apply find_option_In in G.
  cbn [consume_optional] in H. bind_inv H. destruct r as [tuples m].
  bind_inv H. injection H as <- _.
  assert (Exit : forall args tl,
             a = AHelp \/ a = AVersion ->
             take_actions parse_version ((a, args) :: tl) st <> Ok r).
  { intros args tl [->| ->]; discriminate. }
  assert (One : forall args, tuples = [(a, args)] ->
             ns_stdout r = ns_stdout st /\ ns_check r = ns_check st).
  { intros args ->. cbn in E0. bind_inv E0. injection E0 as <-.
    eapply take_action_other_flags; eauto. }
  unfold action_tuples in E.
  cbn in G.
  repeat (destruct G as [G|G];
          [injection G as <- <-;
           try congruence;
           try (exfalso; apply action_tuples_head in E;
                destruct E as (args & tl & ->);
                eapply Exit; eauto; fail)|]);
    try destruct G.
  - destruct e as [x|].
    + rewrite split_cluster_eq in E. cbn in E. destruct x; discriminate.
    + cbn in E. injection E as <- _. eauto.
  - destruct e as [x|].
    + rewrite split_cluster_eq in E. cbn in E. injection E as <- _. eauto.
    + cbn in E. destruct rest as [|[v| |] rest]; try discriminate.
      injection E as <- _. eauto.
  - destruct e as [x|].
    + rewrite split_cluster_eq in E. cbn in E. injection E as <- _. eauto.
    + cbn in E. destruct rest as [|[v| |] rest]; try discriminate.
      injection E as <- _. eauto.
Qed.

Lemma no_group_option_flags_clear args ns :
  (forall a, In a args ->
             option_action a <> Some AStdout /\ option_action a <> Some ACheck) ->
  cli args = Ok ns -> stdout ns = false /\ check ns = false.
Proof.
  intros No H. unfold cli_args in H. bind_inv H. rename r into toks.
  pose proof (classify_strings _ E) as S.
  apply classify_parsed in E.
  cut (exists st' : State,
          (ns_stdout st' = false /\ ns_check st' = false) /\ returns st' ns).
  { intros (st' & (Hs & Hc) & R). destruct R as (_ & <- & _ & <- & _). auto. }
  eapply (@parse_loop_keeps _
            (fun t => genuine t /\
                      forall a, fst (fst t) = Some a ->
                                a <> AStdout /\ a <> ACheck)
            args); [| | | | | |exact H].
  - intros st s [[[a|] o] e] rest st' n [G N] [Hs Hc] C.
    + destruct (N a eq_refl) as [NS NC].
      destruct (@consume_optional_other_flags st s a o e rest st' n G NS NC C)
        as [-> ->]. auto.
    + cbn in C. injection C as <- _. auto.
  - intros l st st' _ [Hs Hc] T. apply take_inputs_fields in T.
    destruct T as (_ & _ & -> & _ & -> & _). auto.
  - intros st l Hi. exact Hi.
  - eapply Forall_impl; [|exact E].
    intros [v|s t|]; auto. intros [Hin Hp]. split.
    + eapply parse_optional_genuine; eauto.
    + intros a Ha. destruct (No s Hin) as [N1 N2].
      unfold option_action in N1, N2. rewrite Hp in N1, N2.
      destruct t as [[act o] e]. cbn in Ha. subst act.
      split; congruence.
  - rewrite S. apply incl_refl.
  - auto.
Qed.

(** *** The help and version exit *)

Lemma bind_exited {A B : Type} (m : outcome A) (k : A -> outcome B) :
  bind m k = Exited -> m = Exited \/ exists a, m = Ok a /\ k a = Exited.
Proof. destruct m; cbn; intros H; try discriminate; eauto. Qed.

Lemma mapM_convert_not_exited args : mapM (convert_input env) args <> Exited.
Proof.
  destruct (mapM_convert_outcome args) as [(p & ->)|[(m & -> & _)| ->]];
    discriminate.
Qed.

Lemma consume_positionals_not_exited (st : State) toks :
  consume_positionals env st toks <> Exited.
Proof.
  unfold consume_positionals. destruct (ns_inputs st); [discriminate|].
  destruct (match_one_or_more toks); [discriminate|].
  unfold take_inputs. intros H.
  apply bind_exited in H. destruct H as [H|(a & _ & H)]; [|discriminate].
  apply bind_exited in H. destruct H as [H|(a & _ & H)]; [|discriminate].
  eapply mapM_convert_not_exited; eauto.
Qed.

Lemma finish_not_exited (st : State) toks : finish env st toks <> Exited.
Proof.
  unfold finish. intros H.
  apply bind_exited in H. destruct H as [H|([st1 n] & _ & H)].
  - eapply consume_positionals_not_exited; eauto.
  - cbv zeta in H. destruct (ns_inputs _); [|discriminate].
    destruct (extras _); discriminate.
Qed.

Lemma parse_loop_not_exited (P : option_tuple -> Prop) toks :
  (forall st s t rest,
      P t -> consume_optional parse_version st s t rest <> Exited) ->
  forall skip st,
    Forall (fun tok => match tok with TO _ t => P t | _ => True end) toks ->
    loop skip st toks <> Exited.
Proof.
  intros Hopt. induction toks as [|tok rest IH]; intros skip st W H.
  - rewrite parse_loop_nil in H. eapply finish_not_exited; eauto.
  - inversion W as [|? ? Wt W']; subst.
    destruct skip as [|k]; [|rewrite parse_loop_skip in H; eapply IH; eauto].
    rewrite parse_loop_step in H.
    destruct (negb (existsb is_option (tok :: rest)));
      [eapply finish_not_exited; eauto|].
    destruct tok as [v|s t|].
    + apply bind_exited in H. destruct H as [H|([st' n] & _ & H)].
      * eapply consume_positionals_not_exited; eauto.
      * destruct n; eapply IH; eauto.
    + apply bind_exited in H. destruct H as [H|([st' n] & _ & H)].
      * eapply Hopt; eauto.
      * eapply IH; eauto.
    + apply bind_exited in H. destruct H as [H|([st' n] & _ & H)].
      * eapply consume_positionals_not_exited; eauto.
      * destruct n; eapply IH; eauto.
Qed.

Lemma mapM_get_value_not_exited {A : Type} a (type : string -> option A) l :
  mapM (get_value a type) l <> Exited.
Proof.
  induction l as [|v l IH]; cbn; [discriminate|].
  unfold get_value at 1. destruct (type v); cbn; [|discriminate].
  destruct (mapM (get_value a type) l); cbn; congruence.
Qed.

Lemma get_values_not_exited {A : Type} a (type : string -> option A) args :
  get_values a type args <> Exited.
Proof.
  unfold get_values. intros H.
  assert (L : forall l, (xs <- mapM (get_value a type) l ;; Ok (Values xs))
                        <> Exited).
  { intros l L. apply bind_exited in L. destruct L as [L|(xs & _ & L)];
      [|discriminate]. eapply mapM_get_value_not_exited; eauto. }
  destruct (remove_double_dash args) as [|v [|w l]];
    try (eapply L; exact H).
  unfold get_value in H. destruct (type v); discriminate.
Qed.

Lemma take_action_not_exited a args (st : State) :
  a <> AHelp -> a <> AVersion ->
  take_action parse_version a args st <> Exited.
Proof.
  intros NH NV H. destruct a; try congruence; cbn in H; case_action H;
    apply bind_exited in H; destruct H as [H|(v & _ & H)];
    try discriminate; eapply get_values_not_exited; eauto.
Qed.

Lemma consume_optional_not_exited (st : State) s t rest :
  genuine t -> exit_free t ->
  consume_optional parse_version st s t rest <> Exited.
Proof.
  destruct t as [[[a|] o] e]; [|discriminate].
  intros G (NH & NV & Short) H.
  change (find_option o option_string_actions = Some a) in G.
  apply find_option_In in G.
  cbn [consume_optional] in H.
  assert (One : forall args n,
             action_tuples a o e rest = Ok ([(a, args)], n) -> False).
  { intros args n T. rewrite T in H. cbn in H.
    destruct (take_action parse_version a args st) eqn:A; try discriminate.
    eapply take_action_not_exited; eauto. }
  assert (Fail : forall err, action_tuples a o e rest = Error err -> False).
  { intros err T. rewrite T in H. discriminate. }
  unfold action_tuples in One, Fail.
  cbn in G.
  repeat (destruct G as [G|G]; [injection G as <- <-; try congruence|]);
    try destruct G.
  - rewrite (Short eq_refl) in *. eapply One. reflexivity.
  - destruct e as [x|].
    + rewrite split_cluster_eq in Fail. cbn in Fail.
      destruct x; eapply Fail; reflexivity.
    + eapply One. reflexivity.
  - destruct e as [x|].
    + rewrite split_cluster_eq in Fail. cbn in Fail.
      destruct x; eapply Fail; reflexivity.
    + eapply One. reflexivity.
  - destruct e as [x|].
    + rewrite split_cluster_eq in Fail. cbn in Fail.
      destruct x; eapply Fail; reflexivity.
    + eapply One. reflexivity.
  - destruct e as [x|].
    + rewrite split_cluster_eq in One. eapply One. reflexivity.
    + cbn in One, Fail. destruct rest as [|[v| |] rest];
        try (eapply Fail; reflexivity). eapply One. reflexivity.
  - destruct e as [x|].
    + rewrite split_cluster_eq in One. eapply One. reflexivity.
    + cbn in One, Fail. destruct rest as [|[v| |] rest];
        try (eapply Fail; reflexivity). eapply One. reflexivity.
Qed.

Lemma classify_not_exited args : classify args <> Exited.
Proof.
  induction args as [|a args IH]; cbn; [discriminate|].
  destruct (String.eqb a "--"); [discriminate|].
  intros H. apply bind_exited in H. destruct H as [H|(o & _ & H)].
  - unfold parse_optional in H.
    repeat match type of H with
           | context [if ?b then _ else _] => destruct b
           | context [match ?x with _ => _ end] => destruct x
           end; discriminate.
  - apply bind_exited in H. destruct H as [H|(o' & _ & H)];
      [auto|discriminate].
Qed.

(** Without an argument that asks for it, the parse does not end in the
    help or version exit: it returns a namespace or ends in an
    error. *)
Lemma cli_args_not_exited args :
  (forall a, In a args -> asks_to_exit a = false) ->
  cli args <> Exited.
Proof.
  intros No H. unfold cli_args in H.
  apply bind_exited in H. destruct H as [H|(toks & E & H)].
  - eapply classify_not_exited; eauto.
  - eapply (@parse_loop_not_exited (fun t => genuine t /\ exit_free t));
      [| |exact H].
    + intros st s t rest [G X]. now apply consume_optional_not_exited.
    + apply classify_parsed in E. eapply Forall_impl; [|exact E].
      intros [v|s t|]; auto. intros [Hin Hp].
      split; [eapply parse_optional_genuine; eauto|].
      specialize (No s Hin). unfold asks_to_exit in No. rewrite Hp in No.
      destruct t as [[[a|] o] e]; [|exact Logic.I].
      apply orb_false_iff in No. destruct No as [Na Ns].
      repeat split.
      * intros ->. discriminate.
      * intros ->. discriminate.
      * intros ->. cbn in Ns. destruct e; [discriminate|reflexivity].
Qed.

Lemma parse_optional_error a e :
  parse_optional a = Error e -> exists arg ms, e = EAmbiguousOption arg ms.
Proof.
  unfold parse_optional. intros H.
  repeat match type of H with
         | context [if ?b then _ else _] => destruct b
         | context [match ?x with _ => _ end] => destruct x
         end; try discriminate; injection H as <-; eauto.
Qed.

Lemma classify_error args e :
  classify args = Error e -> exists arg ms, e = EAmbiguousOption arg ms.
Proof.
  induction args as [|a args IH]; cbn; [discriminate|].
  destruct (String.eqb a "--"); [discriminate|].
  destruct (parse_optional a) as [o| |] eqn:P; cbn.
  - destruct (classify args) as [toks| |]; cbn; try discriminate.
    intros H. injection H as <-. now apply IH.
  - intros H. injection H as <-. eapply parse_optional_error; eauto.
  - discriminate.
Qed.

(** *** Where an [OSError] comes from

    Only the validator raises one, so with arguments for whose paths
    [stat] answers the parse does not end in an [OSError]. *)

Lemma bind_error {A B : Type} (m : outcome A) (k : A -> outcome B) e :
  bind m k = Error e -> m = Error e \/ exists a, m = Ok a /\ k a = Error e.
Proof.
  destruct m; cbn; intros H;
    [right; eauto|left; injection H as ->; reflexivity|discriminate].
Qed.

Lemma mapM_get_value_caught {A : Type} a (type : string -> option A) l :
  mapM (get_value a type) l <> Error EUncaughtOSError.
Proof.
  induction l as [|v l IH]; cbn; [discriminate|].
  unfold get_value at 1. destruct (type v); cbn; [|discriminate].
  destruct (mapM (get_value a type) l); cbn; congruence.
Qed.

Lemma get_values_caught {A : Type} a (type : string -> option A) args :
  get_values a type args <> Error EUncaughtOSError.
Proof.
  unfold get_values. intros H.
  assert (L : forall l, (xs <- mapM (get_value a type) l ;; Ok (Values xs))
                        <> Error EUncaughtOSError).
  { intros l L. apply bind_error in L. destruct L as [L|(xs & _ & L)];
      [|discriminate]. eapply mapM_get_value_caught; eauto. }
  destruct (remove_double_dash args) as [|v [|w l]];
    try (eapply L; exact H).
  unfold get_value in H. destruct (type v); discriminate.
Qed.

Lemma take_action_caught a args (st : State) :
  take_action parse_version a args st <> Error EUncaughtOSError.
Proof.
  intros H. destruct a; cbn in H;
    try discriminate;
    try (destruct (seen_check st); discriminate);
    try (destruct (seen_stdout st); discriminate);
    apply bind_error in H; destruct H as [H|(v & _ & H)];
    try discriminate; eapply get_values_caught; eauto.
Qed.

Lemma take_actions_caught tuples : forall (st : State),
  take_actions parse_version tuples st <> Error EUncaughtOSError.
Proof.
  induction tuples as [|[a args] tuples IH]; cbn; intros st H;
    [discriminate|].
  apply bind_error in H. destruct H as [H|(st' & _ & H)].
  - eapply take_action_caught; eauto.
  - eapply IH; eauto.
Qed.

Lemma split_cluster_caught e : forall a o,
  split_cluster a o e <> Error EUncaughtOSError.
Proof.
  induction e as [|c tail IH]; intros a o H;
    rewrite split_cluster_eq in H;
    destruct (takes_argument a); try discriminate.
  destruct (second_is_dash o); [discriminate|]. cbv zeta in H.
  destruct (find_option (String dash (String c EmptyString))
                        option_string_actions) as [a'|]; [|discriminate].
  destruct tail; [discriminate|].
  apply bind_error in H. destruct H as [H|([ts l] & _ & H)];
    [eapply IH; eauto|discriminate].
Qed.

Lemma consume_optional_caught (st : State) s t rest :
  consume_optional parse_version st s t rest <> Error EUncaughtOSError.
Proof.
  destruct t as [[[a|] o] e]; cbn [consume_optional]; [|discriminate].
  intros H. apply bind_error in H. destruct H as [H|([tuples n] & _ & H)].
  - unfold action_tuples in H.
    apply bind_error in H. destruct H as [H|([ts last] & _ & H)].
    + destruct e as [x|]; [|discriminate].
      eapply split_cluster_caught; eauto.
    + destruct last as [a'|]; [|discriminate].
      destruct (takes_argument a'); [|discriminate].
      destruct rest as [|[v| |] rest]; discriminate.
  - apply bind_error in H. destruct H as [H|(st' & _ & H)];
      [|discriminate]. eapply take_actions_caught; eauto.
Qed.

Section Caught.
Variable given : list string.
Hypothesis answers :
  forall a, In a given -> raises env (resolve env a) = false.

Lemma consume_positionals_caught (st : State) toks :
  incl (map tok_string toks) given ->
  consume_positionals env st toks <> Error EUncaughtOSError.
Proof.
  unfold consume_positionals. intros G.
  destruct (ns_inputs st); [discriminate|].
  destruct (match_one_or_more toks) as [|m]; [discriminate|].
  unfold take_inputs. intros H.
  apply bind_error in H. destruct H as [H|(a & _ & H)]; [|discriminate].
  apply bind_error in H. destruct H as [H|(a & _ & H)]; [|discriminate].
  revert H. apply mapM_convert_caught.
  intros a Ha. apply answers, G.
  apply remove_double_dash_incl in Ha.
  rewrite <- (firstn_skipn (S m) toks), map_app.
  apply in_or_app. now left.
Qed.

Lemma finish_caught (st : State) toks :
  incl (map tok_string toks) given ->
  finish env st toks <> Error EUncaughtOSError.
Proof.
  unfold finish. intros G H.
  apply bind_error in H. destruct H as [H|([st1 n] & _ & H)].
  - eapply consume_positionals_caught; [exact G|exact H].
  - cbv zeta in H. destruct (ns_inputs _); [|discriminate].
    destruct (extras _); discriminate.
Qed.

Lemma parse_loop_caught toks : forall skip (st : State),
  incl (map tok_string toks) given ->
  loop skip st toks <> Error EUncaughtOSError.
Proof.
  induction toks as [|tok rest IH]; intros skip st G H.
  - rewrite parse_loop_nil in H. eapply finish_caught; [exact G|exact H].
  - assert (G' : incl (map tok_string rest) given)
      by (intros x Hx; apply G; now right).
    destruct skip as [|k];
      [|rewrite parse_loop_skip in H; eapply IH; [exact G'|exact H]].
    rewrite parse_loop_step in H.
    destruct (negb (existsb is_option (tok :: rest)));
      [eapply finish_caught; [exact G|exact H]|].
    destruct tok as [v|s t|].
    + apply bind_error in H. destruct H as [H|([st' n] & _ & H)].
      * eapply consume_positionals_caught; [exact G|exact H].
      * destruct n; eapply IH; [exact G'|exact H|exact G'|exact H].
    + apply bind_error in H. destruct H as [H|([st' n] & _ & H)].
      * eapply consume_optional_caught; exact H.
      * eapply IH; [exact G'|exact H].
    + apply bind_error in H. destruct H as [H|([st' n] & _ & H)].
      * eapply consume_positionals_caught; [exact G|exact H].
      * destruct n; eapply IH; [exact G'|exact H|exact G'|exact H].
Qed.

End Caught.

Lemma cli_args_caught args :
  (forall a, In a args -> raises env (resolve env a) = false) ->
  cli args <> Error EUncaughtOSError.
Proof.
  intros A H. unfold cli_args in H.
  apply bind_error in H. destruct H as [H|(toks & E & H)].
  - apply classify_error in H. destruct H as (arg & ms & H). discriminate.
  - eapply (@parse_loop_caught args A); [|exact H].
    rewrite (classify_strings _ E). apply incl_refl.
Qed.

(** *** The mutually exclusive group *)

Lemma both_flags_no_namespace options rest s ns :
  ~ In "--" options -> s = "-s" \/ s = "--stdout" ->
  In s options -> In "--check" options ->
  cli (options ++ rest) <> Ok ns.
Proof.
  intros NI Hs InS InC H.
  assert (Split : forall a, In a options ->
            exists before after,
              options ++ rest = before ++ a :: after /\ ~ In "--" before).
  { intros a Ha. apply in_split in Ha. destruct Ha as (l1 & l2 & ->).
    exists l1, (l2 ++ rest). split.
    - rewrite <- app_assoc. reflexivity.
    - intros D. apply NI. apply in_or_app. now left. }
  assert (S : stdout ns = true).
  { destruct (Split s InS) as (before & after & E & NB). rewrite E in H.
    destruct Hs as [-> | ->];
      eapply stdout_option_sets; [exact NB| |exact H|exact NB| |exact H];
      reflexivity. }
  assert (C : check ns = true).
  { destruct (Split "--check" InC) as (before & after & E & NB).
    rewrite E in H.
    eapply check_option_sets; [exact NB| |exact H]. reflexivity. }
  apply cli_args_exclusive in H. rewrite S, C in H. discriminate.
Qed.

(** C3, as the code has it: [-s/--stdout] and [--check] are mutually
    exclusive.  No namespace ever has both flags set.  When the
    argument list has, before any [--] separator, an argument [-s] or
    [--stdout] and an argument [--check], [cli_args] returns no
    namespace (so no file is processed); it ends in an error unless an
    argument asks for the help or version exit.  When no argument is
    parsed as one of the two options, a namespace that is returned has
    both flags false: the file is rewritten in place.  An error is
    that of [parser.error] whenever no file-system query on an
    argument raises. *)
Theorem stdout_check_mutually_exclusive :
  (forall args ns, cli args = Ok ns -> stdout ns && check ns = false)
  /\ (forall options rest s,
         ~ In "--" options -> s = "-s" \/ s = "--stdout" ->
         In s options -> In "--check" options ->
         (forall ns, cli (options ++ rest) <> Ok ns)
         /\ ((forall a, In a (options ++ rest) -> asks_to_exit a = false) ->
             exists e, cli (options ++ rest) = Error e))
  /\ (forall args ns,
         (forall a, In a args ->
                    option_action a <> Some AStdout
                    /\ option_action a <> Some ACheck) ->
         cli args = Ok ns -> stdout ns = false /\ check ns = false)
  /\ (forall args,
         (forall a, In a args -> raises env (resolve env a) = false) ->
         cli args <> Error EUncaughtOSError).
Proof.
  split; [exact cli_args_exclusive|split; [|split; [|exact cli_args_caught]]].
  - intros options rest s NI Hs InS InC.
    assert (No : forall ns, cli (options ++ rest) <> Ok ns)
      by (intros ns; eapply both_flags_no_namespace; eauto).
    split; [exact No|].
    intros NoExit. destruct (cli (options ++ rest)) as [ns|e|] eqn:R.
    + exfalso. eapply No; reflexivity.
    + eauto.
    + exfalso. eapply cli_args_not_exited; eauto.
  - exact no_group_option_flags_clear.
Qed.

(** *** The typed options *)

Lemma plain_parse f :
  plain f = true -> String.eqb f "--" = false /\ parse_optional f = Ok None.
Proof.
  unfold plain. intros H. apply andb_true_iff in H. destruct H as [D O].
  apply negb_true_iff in D. split; [exact D|].
  destruct (parse_optional f) as [[t|]| |]; try discriminate. reflexivity.
Qed.


(** *** Every positional argument goes through the validator *)

Lemma find_short_flag c a' :
  find_option (String dash (String c EmptyString)) option_string_actions
  = Some a' ->
  takes_argument a' = false.
Proof.
  intros H. apply find_option_In in H. cbn in H.
  repeat (destruct H as [H|H]; [inversion H; subst; reflexivity|]).
  destruct H.
Qed.

Lemma split_cluster_last e : forall a o tuples a',
  split_cluster a o e = Ok (tuples, Some a') -> takes_argument a' = false.
Proof.
  induction e as [|c tail IH]; intros a o tuples a' H;
    rewrite split_cluster_eq in H;
    destruct (takes_argument a); try discriminate.
  destruct (second_is_dash o); [discriminate|]. cbv zeta in H.
  destruct (find_option (String dash (String c EmptyString))
                        option_string_actions) as [a1|] eqn:F;
    [|discriminate].
  destruct tail.
  - injection H as _ <-. eapply find_short_flag; eauto.
  - bind_inv H. destruct r as [ts l]. injection H as _ ->. eauto.
Qed.

Lemma consume_optional_next (st : State) s t rest st' n :
  consume_optional parse_version st s t rest = Ok (st', n) ->
  n = 0 \/ (n = 1 /\ takes_next t = true /\ exists v tl, rest = TA v :: tl).
Proof.
  destruct t as [[[a|] o] e]; cbn [consume_optional]; intros H.
  - bind_inv H. destruct r as [tuples m]. bind_inv H. injection H as _ <-.
    unfold action_tuples in E. bind_inv E. destruct r0 as [ts last].
    destruct last as [a'|]; [|injection E as _ <-; now left].
    destruct (takes_argument a') eqn:T; [|injection E as _ <-; now left].
    destruct rest as [|[v| |] rest]; try discriminate.
    injection E as _ <-. right. split; [reflexivity|]. split; [|eauto].
    destruct e as [x|].
    + apply split_cluster_last in E1. congruence.
    + injection E1 as _ <-. exact T.
  - injection H as _ <-. now left.
Qed.

Lemma split_at {A : Type} n (before : list A) x after :
  skipn n (before ++ x :: after) = skipn n before ++ x :: after
  \/ In x (firstn n (before ++ x :: after)).
Proof.
  revert before. induction n as [|n IH]; intros before; [now left|].
  destruct before as [|y before]; cbn; [right; now left|].
  destruct (IH before) as [S|I]; auto.
Qed.

Lemma guarded_tail x before : guarded (x :: before) -> guarded before.
Proof. destruct before; [intros _; exact Logic.I|exact (fun H => H)]. Qed.

Lemma guarded_skipn n before : guarded before -> guarded (skipn n before).
Proof.
  revert before. induction n as [|n IH]; intros before G; [exact G|].
  destruct before as [|x before]; [exact G|]. cbn.
  apply IH. eapply guarded_tail; eauto.
Qed.

Lemma remove_double_dash_In a l :
  a <> "--" -> In a l -> In a (remove_double_dash l).
Proof.
  intros N. induction l as [|x l IH]; cbn; [auto|].
  destruct (String.eqb x "--") eqn:D.
  - apply String.eqb_eq in D. intros [E|H]; [congruence|exact H].
  - intros [E|H]; [now left|right; auto].
Qed.

Lemma mapM_ok_In {A B : Type} (f : A -> outcome B) l bs a :
  mapM f l = Ok bs -> In a l -> exists b, f a = Ok b /\ In b bs.
Proof.
  intros M. apply mapM_ok_Forall2 in M.
  induction M as [|x b l bs' Fx M IH]; intros H; [destruct H|].
  destruct H as [->|H].
  - exists b. split; [exact Fx|now left].
  - destruct (IH H) as (b' & F' & I'). exists b'. split; [exact F'|now right].
Qed.

Section Validates.
Variable a : string.
Hypothesis not_separator : a <> "--".

Local Abbreviation seen := (validated env a).

Lemma validated_action a0 args (st st' : State) :
  seen st -> take_action parse_version a0 args st = Ok st' -> seen st'.
Proof.
  intros V T. apply take_action_inputs in T. destruct T as [Ti Te].
  unfold validated. rewrite Ti, Te. exact V.
Qed.

Lemma validated_extras (st : State) l : seen st -> seen (add_extras st l).
Proof.
  intros [V|X]; [left; exact V|right]. cbn. intros E.
  apply app_eq_nil in E. tauto.
Qed.

Lemma validated_leftover (st : State) l : l <> [] -> seen (add_extras st l).
Proof. intros N. right. cbn. intros E. apply app_eq_nil in E. tauto. Qed.

Lemma validated_optional (st : State) s t rest st' n :
  seen st -> consume_optional parse_version st s t rest = Ok (st', n) ->
  seen st'.
Proof.
  intros V C.
  eapply (@consume_optional_keeps seen); [| |exact V|exact C].
  - intros; eapply validated_action; eauto.
  - intros; now apply validated_extras.
Qed.

Lemma validated_positionals (st : State) toks st' n :
  seen st -> consume_positionals env st toks = Ok (st', n) -> seen st'.
Proof.
  unfold consume_positionals. intros V H.
  destruct (ns_inputs st) eqn:Q; [injection H as <- _; exact V|].
  destruct (match_one_or_more toks); [injection H as <- _; exact V|].
  bind_inv H. injection H as <- _.
  destruct V as [(paths & P & _)|X]; [congruence|right].
  apply take_inputs_fields in E.
  destruct E as (_ & _ & _ & _ & _ & _ & _ & _ & _ & ->). exact X.
Qed.

Lemma positionals_validate (st : State) toks st' n :
  consume_positionals env st toks = Ok (st', n) ->
  In (TA a) (firstn n toks) -> seen st'.
Proof.
  unfold consume_positionals. intros H Hin.
  destruct (ns_inputs st) eqn:Q; [injection H as _ <-; destruct Hin|].
  destruct (match_one_or_more toks) as [|m]; [injection H as _ <-; destruct Hin|].
  bind_inv H. injection H as <- <-.
  apply take_inputs_fields in E. destruct E as (M & N & _).
  destruct (ns_inputs r) as [paths|] eqn:P; [|congruence].
  left. exists paths. split; [exact P|].
  assert (Ha : In a (remove_double_dash
                       (map tok_string (firstn (S m) toks)))).
  { apply remove_double_dash_In; [exact not_separator|].
    change a with (tok_string (TA a)). now apply in_map. }
  destruct (mapM_ok_In _ _ _ M Ha) as (p & C & Hp).
  apply convert_input_ok, creator_accepts in C. destruct C as [<- _].
  exact Hp.
Qed.

Lemma finish_validates (st : State) toks ns :
  seen st \/ In (TA a) toks ->
  finish env st toks = Ok ns -> exists st', seen st' /\ returns st' ns.
Proof.
  unfold finish. intros Pre H. bind_inv H. destruct r as [st1 stop].
  set (st2 := add_extras st1 _) in H.
  assert (V2 : seen st2).
  { destruct Pre as [V|Hin].
    - apply validated_extras. eapply validated_positionals; eauto.
    - rewrite <- (firstn_skipn stop toks) in Hin.
      apply in_app_or in Hin. destruct Hin as [Hin|Hin].
      + apply validated_extras. eapply positionals_validate; eauto.
      + apply validated_leftover.
        destruct (skipn stop toks); [destruct Hin|discriminate]. }
  destruct (ns_inputs st2) as [paths|] eqn:Q; [|discriminate].
  destruct (extras st2) eqn:X; [|discriminate].
  injection H as <-. exists st2. unfold returns. cbn. auto 10.
Qed.

Lemma parse_loop_validates after0 toks : forall skip st ns,
  seen st
  \/ (exists before,
         skipn skip toks = before ++ TA a :: after0 /\ guarded before) ->
  loop skip st toks = Ok ns -> exists st', seen st' /\ returns st' ns.
Proof.
  induction toks as [|tok rest IH]; intros skip st ns Pre H.
  - rewrite parse_loop_nil in H. eapply finish_validates; [|exact H].
    destruct Pre as [V|(before & E & _)]; [now left|].
    rewrite skipn_nil in E. destruct before; discriminate.
  - destruct skip as [|k]; [|rewrite parse_loop_skip in H; eauto].
    rewrite parse_loop_step in H. cbn [skipn] in Pre.
    destruct (negb (existsb is_option (tok :: rest))).
    { eapply finish_validates; [|exact H].
      destruct Pre as [V|(before & E & _)]; [now left|right].
      rewrite E. apply in_or_app. right. now left. }
    assert (step_positionals : forall st' n,
               is_option tok = false ->
               consume_positionals env st (tok :: rest) = Ok (st', n) ->
               (match n with
                | S k => loop k st' rest
                | O => let k := count_until_option (tok :: rest) in
                       loop (k - 1)
                         (add_extras st'
                            (map tok_string (firstn k (tok :: rest)))) rest
                end = Ok ns) ->
               exists st'', seen st'' /\ returns st'' ns).
    { intros st' n T E L. destruct n as [|k].
      - cbv zeta in L. rewrite (count_until_option_pos tok rest T) in L.
        eapply IH; [|exact L]. left. apply validated_leftover. discriminate.
      - eapply IH; [|exact L].
        destruct Pre as [V|(before & Eq & G)].
        + left. eapply validated_positionals; eauto.
        + destruct (split_at (S k) before (TA a) after0) as [Sk|Hin].
          * right. exists (skipn (S k) before). split.
            -- rewrite <- Eq in Sk. exact Sk.
            -- now apply guarded_skipn.
          * left. rewrite <- Eq in Hin. eapply positionals_validate; eauto. }
    destruct tok as [v|s t|].
    + bind_inv H. destruct r as [st' n]. eapply step_positionals; eauto.
    + bind_inv H. destruct r as [st' n].
      eapply IH; [|exact H].
      destruct Pre as [V|(before & Eq & G)].
      * left. eapply validated_optional; eauto.
      * right. destruct before as [|x before]; [discriminate Eq|].
        injection Eq as <- ->.
        destruct (consume_optional_next _ _ _ _ E)
          as [->|(-> & Tn & v & tl & Er)].
        -- exists before. split; [reflexivity|].
           eapply guarded_tail; eauto.
        -- destruct before as [|y before].
           ++ cbn in G. congruence.
           ++ cbn in Er. injection Er as -> _.
              exists before. split; [reflexivity|].
              eapply guarded_tail, guarded_tail; eauto.
    + bind_inv H. destruct r as [st' n]. eapply step_positionals; eauto.
Qed.

End Validates.

Lemma classify_plain_token before a after toks :
  classify (before ++ a :: after) = Ok toks -> plain a = true ->
  exists pre after',
    toks = pre ++ TA a :: after' /\ map tok_string pre = before.
Proof.
  intros H Pa. destruct (plain_parse _ Pa) as [D O].
  revert toks H. induction before as [|b before IH]; cbn; intros toks H.
  - rewrite D, O in H. cbn in H. bind_inv H. injection H as <-.
    exists [], r. auto.
  - destruct (String.eqb b "--") eqn:B.
    + apply String.eqb_eq in B. subst b. injection H as <-.
      exists (TDash :: map TA before), (map TA after). split.
      * rewrite map_app. reflexivity.
      * cbn. now rewrite map_tok_string_TA.
    + bind_inv H. bind_inv H. injection H as <-.
      destruct (IH _ E0) as (pre & after' & -> & M).
      eexists (_ :: pre), after'. split; [reflexivity|].
      cbn. rewrite M. destruct r; reflexivity.
Qed.

(** A positional argument that does not stand right after an option
    waiting for its value is validated before a namespace is returned,
    and its path is among the inputs. *)
Lemma cli_args_validates before a after ns :
  plain a = true ->
  (forall b0 b, before = b0 ++ [b] -> value_taking b = false) ->
  cli (before ++ a :: after) = Ok ns ->
  In (resolve env a) (inputs ns) /\ valid_input env (resolve env a).
Proof.
  intros Pa Prev H.
  assert (Hin : In (resolve env a) (inputs ns)).
  { unfold cli_args in H. bind_inv H. rename r into toks.
    pose proof (classify_parsed _ E) as Parsed.
    destruct (classify_plain_token _ _ _ E Pa) as (pre & after' & -> & M).
    assert (G : guarded pre).
    { clear H. induction pre as [|x pre0 _] using rev_ind; [exact Logic.I|].
      unfold guarded. rewrite last_last. destruct x as [v|s t|]; auto.
      rewrite map_app in M. cbn in M.
      specialize (Prev _ _ (eq_sym M)). unfold value_taking in Prev.
      rewrite <- app_assoc in Parsed. apply Forall_app in Parsed.
      destruct Parsed as [_ Parsed]. inversion Parsed as [|? ? Hd _].
      cbn in Hd. destruct Hd as [_ Ps]. rewrite Ps in Prev. exact Prev. }
    destruct (plain_parse _ Pa) as [D _]. apply String.eqb_neq in D.
    assert (K : exists st' : State, validated env a st' /\ returns st' ns).
    { eapply (@parse_loop_validates a D after'); [|exact H].
      right. exists pre. split; [reflexivity|exact G]. }
    destruct K as (st' & V & R).
    destruct R as (Ri & _ & _ & _ & _ & _ & Rx).
    destruct V as [(paths & P & I')|X]; [|congruence].
    rewrite Ri in P. injection P as <-. exact I'. }
  split; [exact Hin|].
  apply cli_args_valid_inputs in H. destruct H as (given & _ & F).
  clear -F Hin. induction F as [|x p l ps (_ & _ & V) F IH]; [destruct Hin|].
  destruct Hin as [<-|Hin]; auto.
Qed.

(** *** The first path that does not pass *)

Lemma first_failing_path before a after :
  forallb plain (before ++ a :: after) = true ->
  Forall (fun x => valid_input env (resolve env x)) before ->
  ~ valid_input env (resolve env a) ->
  exists e,
    convert_input env a = Error e
    /\ cli (before ++ a :: after) = Error e.
Proof.
  intros Pl V NV. destruct (convert_input_rejects _ NV) as (e & C).
  exists e. split; [exact C|].
  destruct (before ++ a :: after) as [|b args] eqn:L;
    [destruct before; discriminate|].
  rewrite (cli_args_plain _ _ Pl), <- L.
  erewrite mapM_convert_first; [reflexivity|exact V|exact C].
Qed.

Lemma rejected_input_no_namespace before a after :
  plain a = true ->
  (forall b0 b, before = b0 ++ [b] -> value_taking b = false) ->
  ~ valid_input env (resolve env a) ->
  (forall ns, cli (before ++ a :: after) <> Ok ns)
  /\ ((forall x, In x (before ++ a :: after) -> asks_to_exit x = false) ->
      exists e, cli (before ++ a :: after) = Error e)
  /\ ((forall x, In x (before ++ a :: after) -> asks_to_exit x = false) ->
      (forall x, In x (before ++ a :: after) ->
                 raises env (resolve env x) = false) ->
      exists e, cli (before ++ a :: after) = Error e
                /\ e <> EUncaughtOSError).
Proof.
  intros Pa Prev NV.
  assert (No : forall ns, cli (before ++ a :: after) <> Ok ns).
  { intros ns H. apply NV. eapply cli_args_validates; eauto. }
  assert (Err : (forall x, In x (before ++ a :: after) ->
                           asks_to_exit x = false) ->
                exists e, cli (before ++ a :: after) = Error e).
  { intros NoExit. destruct (cli (before ++ a :: after)) as [ns|e|] eqn:R.
    - exfalso. eapply No; reflexivity.
    - eauto.
    - exfalso. eapply cli_args_not_exited; eauto. }
  split; [exact No|]. split; [exact Err|].
  intros NoExit A. destruct (Err NoExit) as (e & R).
  exists e. split; [exact R|]. intros ->.
  eapply cli_args_caught; eauto.
Qed.


(** C5, as the code has it: an input error on one path ends the whole
    invocation.  When one positional argument does not pass the
    validator, [cli_args] returns no namespace, whatever the other
    paths are, so none of them is processed; unless an argument asks
    for the help or version exit, the parse ends in an error, which is
    the parser's when no file-system query on an argument raises.
    With positional arguments only it is the error of the first path
    that does not pass: the parser error with the message that the
    validator raises for this path, or the [OSError] of its query.  A
    namespace that is returned holds validated paths only. *)
Theorem input_error_aborts_invocation :
  (forall before a after,
      forallb plain (before ++ a :: after) = true ->
      Forall (fun x => valid_input env (resolve env x)) before ->
      ~ valid_input env (resolve env a) ->
      (exists msg,
          pyproject_toml_path_creator env a = inr (ArgumentTypeError msg)
          /\ descriptive msg
          /\ cli (before ++ a :: after) = Error (EArgumentInputs msg))
      \/ (pyproject_toml_path_creator env a = inr OSError
          /\ cli (before ++ a :: after) = Error EUncaughtOSError))
  /\ (forall before a after,
         plain a = true ->
         (forall b0 b, before = b0 ++ [b] -> value_taking b = false) ->
         ~ valid_input env (resolve env a) ->
         (forall ns, cli (before ++ a :: after) <> Ok ns)
         /\ ((forall x, In x (before ++ a :: after) -> asks_to_exit x = false) ->
             exists e, cli (before ++ a :: after) = Error e)
         /\ ((forall x, In x (before ++ a :: after) -> asks_to_exit x = false) ->
             (forall x, In x (before ++ a :: after) ->
                        raises env (resolve env x) = false) ->
             exists e, cli (before ++ a :: after) = Error e
                       /\ e <> EUncaughtOSError))
  /\ (forall args ns,
         cli args = Ok ns -> Forall (valid_input env) (inputs ns)).
Proof.
  split; [|split].
  - intros before a after Pl V NV.
    destruct (first_failing_path _ _ Pl V NV) as (e & C & R).
    unfold convert_input in C.
    destruct (pyproject_toml_path_creator env a) as [p|[msg|]] eqn:Cr;
      [discriminate| |]; injection C as <-.
    + left. exists msg. split; [reflexivity|]. split; [|exact R].
      eapply creator_messages; eauto.
    + right. split; [reflexivity|exact R].
  - exact rejected_input_no_namespace.
  - intros args ns H. apply cli_args_valid_inputs in H.
    destruct H as (given & _ & F).
    induction F as [|a p l ps (_ & _ & V) F IH]; constructor; auto.
Qed.

(** *** Absolute paths *)

(** C10: every path that [pyproject_toml_path_creator] returns, and so
    every element of the parsed [inputs], is absolute: the argument is
    made absolute against the working directory (itself absolute)
    before anything is checked, and appending the default file name
    keeps the root. *)
Theorem inputs_are_absolute :
  is_absolute (path_of_string (getcwd env)) = true ->
  (forall argument p,
      pyproject_toml_path_creator env argument = inl p ->
      is_absolute p = true)
  /\ (forall args ns,
         cli args = Ok ns -> Forall (fun p => is_absolute p = true) (inputs ns)).
Proof.
  intros Cwd. split.
  - intros argument p C. apply creator_accepts in C. destruct C as [-> _].
    now apply resolve_is_absolute.
  - intros args ns H. apply cli_args_valid_inputs in H.
    destruct H as (given & _ & F).
    induction F as [|a p l ps (_ & -> & _) F IH]; constructor; auto.
    now apply resolve_is_absolute.
Qed.

End ParserFacts.

(** ** A directory as argument *)

(** C6: when the argument, made absolute, names a directory, the
    validator puts the default file name [pyproject.toml] after it before
    it checks anything, so the argument is accepted exactly when that
    file is a regular file that can be read and written, and the path
    returned is that of the file.  When it is not accepted, the
    validator raises one of its messages, or the [OSError] that the
    query on the file raises. *)
Theorem directory_argument_default_file :
  forall env argument,
    is_dir env (absolute env (path_of_string argument)) = true ->
    let target :=
      joinpath (absolute env (path_of_string argument)) "pyproject.toml" in
    resolve env argument = target
    /\ ((exists p, pyproject_toml_path_creator env argument = inl p)
        <-> valid_input env target)
    /\ (forall p, pyproject_toml_path_creator env argument = inl p -> p = target)
    /\ (~ valid_input env target ->
        (raises env target = false ->
         exists msg,
           pyproject_toml_path_creator env argument = inr (ArgumentTypeError msg)
           /\ descriptive msg)
        /\ (raises env target = true ->
            pyproject_toml_path_creator env argument = inr OSError)).
Proof.
  intros env argument D target.
  assert (R : resolve env argument = target)
    by (unfold resolve; rewrite D; reflexivity).
  split; [exact R|]. split; [|split].
  - split.
    + intros (p & C). apply creator_accepts in C. destruct C as [-> V].
      rewrite <- R. exact V.
    + intros V. exists target. rewrite <- R in *.
      now apply creator_accepts_valid.
  - intros p C. apply creator_accepts in C. destruct C as [-> _]. exact R.
  - intros NV. split.
    + intros A. apply creator_rejects; rewrite R; assumption.
    + intros A. apply creator_raises. rewrite R. exact A.
Qed.

(** ** The [configs] property *)

Section ConfigsFacts.
Variable Version : Type.
Variable env : Env.
Variable ns : PyProjectFmtNamespace Version.

Local Abbreviation config_of p t :=
  (mkConfig p t (indent ns) (keep_full_version ns) (max_supported_python ns)).

Lemma configs_of_inl l cs :
  configs_of env ns l = inl cs <->
  Forall2 (fun p c => exists t, read_text env p = inl t /\ c = config_of p t)
          l cs.
Proof.
  revert cs. induction l as [|p l IH]; cbn; intros cs.
  - split; intros H; [injection H as <-; constructor|inversion H; reflexivity].
  - unfold config_for. split.
    + destruct (read_text env p) as [t|e] eqn:Rd; [|discriminate].
      destruct (configs_of env ns l) as [cs'|e] eqn:C; [|discriminate].
      intros H. injection H as <-. constructor; [eauto|]. now apply IH.
    + intros H. inversion H as [|? c ? cs' (t & Rd & ->) F]; subst.
      rewrite Rd. apply IH in F. rewrite F. reflexivity.
Qed.

Lemma configs_of_total l :
  Forall (fun p => exists t, read_text env p = inl t) l ->
  exists cs, configs_of env ns l = inl cs.
Proof.
  induction 1 as [|p l (t & Rd) F (cs & IH)]; cbn; [eauto|].
  unfold config_for. rewrite Rd, IH. eauto.
Qed.

Lemma configs_of_raises l :
  Exists (fun p => exists e, read_text env p = inr e) l ->
  exists e, configs_of env ns l = inr e.
Proof.
  induction l as [|p l IH]; intros H; [inversion H|]. cbn. unfold config_for.
  destruct (read_text env p) as [t|e] eqn:Rd; [|eauto].
  inversion H as [? ? (e & Rd')|? ? Hl]; subst; [congruence|].
  destruct (IH Hl) as (e & ->). eauto.
Qed.

Lemma read_text_inl p t :
  read_text env p = inl t <->
  exists n u,
    lookup env p = Some n /\ kind n <> Directory /\ r_ok n = true
    /\ decode_utf8 (map Byte.to_N (data n)) = Some u
    /\ t = universal_newlines u.
Proof.
  unfold read_text. split.
  - destruct (lookup env p) as [n|];
      [|destruct (stat_raises env p); discriminate].
    destruct (kind n) eqn:K; [discriminate| |];
      (destruct (r_ok n) eqn:R; [|discriminate]);
      (destruct (decode_utf8 _) as [u|] eqn:D; [|discriminate]);
      intros H; injection H as <-; exists n, u;
      repeat split; auto; congruence.
  - intros (n & u & -> & K & -> & -> & ->).
    destruct (kind n); [congruence| |]; reflexivity.
Qed.

(** C9, as the code has it: [configs] gives one [Config] per input, in
    the order of the inputs, when every input can be read as text; it
    raises when one cannot (a file that is not valid UTF-8, for one).
    The i-th [Config] has the i-th path, the text that [read_text]
    returns for it (the bytes decoded as UTF-8, CR LF and CR turned
    into LF), and the indent, keep-full-version and
    max-supported-python of the namespace. *)
Theorem configs_one_per_input :
  (forall cs,
      configs env ns = inl cs <->
      Forall2 (fun p c => exists t, read_text env p = inl t
                                    /\ c = config_of p t) (inputs ns) cs)
  /\ (Forall (fun p => exists t, read_text env p = inl t) (inputs ns) ->
      exists cs,
        configs env ns = inl cs
        /\ length cs = length (inputs ns)
        /\ map (@pyproject_toml Version) cs = inputs ns
        /\ Forall (fun c => cfg_indent c = indent ns
                            /\ cfg_keep_full_version c = keep_full_version ns
                            /\ cfg_max_supported_python c
                               = max_supported_python ns) cs)
  /\ (Exists (fun p => exists e, read_text env p = inr e) (inputs ns) ->
      exists e, configs env ns = inr e)
  /\ (forall p t,
         read_text env p = inl t <->
         exists n u,
           lookup env p = Some n /\ kind n <> Directory /\ r_ok n = true
           /\ decode_utf8 (map Byte.to_N (data n)) = Some u
           /\ t = universal_newlines u).
Proof.
  split; [|split; [|split]].
  - intros cs. apply configs_of_inl.
  - intros F. destruct (configs_of_total F) as (cs & C).
    exists cs. split; [exact C|].
    apply configs_of_inl in C. clear F.
    induction C as [|p c l cs' (t & _ & ->) F (L & M & A)]; cbn.
    + repeat split; constructor.
    + repeat split; [congruence|congruence|].
      constructor; [cbn; auto|exact A].
  - apply configs_of_raises.
  - apply read_text_inl.
Qed.

End ConfigsFacts.

(** ** Version trimming *)

Module VersionsFacts.
Import Versions.

Lemma all_zero_Forall l :
  forallb (N.eqb 0) l = true -> Forall (fun z => z = 0%N) l.
Proof.
  induction l as [|z l IH]; cbn; intros H; constructor.
  - apply andb_true_iff in H. destruct H as [Z _].
    destruct z; [reflexivity|discriminate].
  - apply IH. apply andb_true_iff in H. tauto.
Qed.

Lemma trim_trailing_zeros_cons x l :
  trim_trailing_zeros (x :: l) =
  if forallb (N.eqb 0) l then [x] else x :: trim_trailing_zeros l.
Proof. reflexivity. Qed.

Lemma trim_trailing_zeros_spec x l :
  exists kept zeros,
    trim_trailing_zeros (x :: l) = x :: kept
    /\ l = kept ++ zeros
    /\ Forall (fun z => z = 0%N) zeros
    /\ (kept = [] \/ last kept 0%N <> 0%N).
Proof.
  revert x. induction l as [|y l IH]; intros x.
  - exists [], []. cbn. repeat split; auto.
  - rewrite trim_trailing_zeros_cons.
    destruct (forallb (N.eqb 0) (y :: l)) eqn:Z.
    + exists [], (y :: l). repeat split; auto. now apply all_zero_Forall.
    + destruct (IH y) as (kept & zeros & T & L & F & K).
      exists (y :: kept), zeros. rewrite T. repeat split; auto.
      * cbn. congruence.
      * right. destruct K as [->|K].
        -- cbn. intros ->. cbn in L. subst l. cbn in Z.
           assert (forallb (N.eqb 0) zeros = true).
           { clear -F. induction F; cbn; auto. subst. auto. }
           congruence.
        -- destruct kept; [cbn in K; congruence|exact K].
Qed.

(** C2: with [keep_full_version] false, trailing zero components of
    the release are dropped down to one component; with it true the
    version is left as it is; the suffix and the operator of a
    constraint are never touched. *)
Theorem version_trimming :
  map (normalize_version_text false) ["1.0.0"; "1.2.0"; "1.0.1"; "0.0.0"]
  = ["1"; "1.2"; "1.0.1"; "0"]
  /\ map (normalize_version_text true) ["1.0.0"; "1.2.0"; "1.0.1"; "0.0.0"]
     = ["1.0.0"; "1.2.0"; "1.0.1"; "0.0.0"]
  /\ (forall v, normalize_version true v = v)
  /\ (forall x l suf,
         exists kept zeros,
           normalize_version false (mkVersionNumber (x :: l) suf)
           = mkVersionNumber (x :: kept) suf
           /\ l = kept ++ zeros
           /\ Forall (fun z => z = 0%N) zeros
           /\ (kept = [] \/ last kept 0%N <> 0%N))
  /\ (forall keep c,
         fst (normalize_constraint keep c) = fst c
         /\ suffix (snd (normalize_constraint keep c)) = suffix (snd c)).
Proof.
  split; [reflexivity|]. split; [reflexivity|]. split; [reflexivity|].
  split.
  - intros x l suf.
    destruct (trim_trailing_zeros_spec x l) as (kept & zeros & T & L & F & K).
    exists kept, zeros. unfold normalize_version. cbn [release suffix].
    rewrite T. auto.
  - intros keep [op v]. unfold normalize_constraint, normalize_version.
    destruct keep; cbn; auto.
Qed.

End VersionsFacts.

(** * The statements at concrete invocations

    All in the setting of [Example]: working directory [/work]. *)

Lemma stdout_check_mutually_exclusive_witness :
  ~ In "--" ["-s"; "--check"]
  /\ (forall a, In a ["-s"; "--check"; "a.toml"] -> asks_to_exit a = false)
  /\ (forall ns, Example.cli_args ["-s"; "--check"; "a.toml"] <> Ok ns)
  /\ exists e, Example.cli_args ["-s"; "--check"; "a.toml"] = Error e.
Proof.
  assert (NI : ~ In "--" ["-s"; "--check"])
    by (intros [H|[H|[]]]; discriminate).
  assert (NX : forall a, In a ["-s"; "--check"; "a.toml"] ->
                         asks_to_exit a = false)
    by (intros a [<-|[<-|[<-|[]]]]; reflexivity).
  destruct (stdout_check_mutually_exclusive
              Example.parse_version Example.DEFAULT_INDENT
              Example.DEFAULT_MAX_SUPPORTED_PYTHON Example.env) as (_ & B & _).
  destruct (B ["-s"; "--check"] ["a.toml"] "-s" NI (or_introl eq_refl)
              (or_introl eq_refl) (or_intror (or_introl eq_refl)))
    as [No Err].
  repeat split; auto.
Defined.

(** C3 as stated fails: an empty argument list has neither option and
    is not parsed successfully; after the separator [-s] and [--check]
    are file names and the parse succeeds with both flags false; and the
    abbreviation [--std] sets [stdout] in a list that holds neither
    [-s] nor [--stdout]. *)
Lemma stdout_check_counterexample :
  (~ In "-s" (@nil string) /\ ~ In "--stdout" (@nil string)
   /\ ~ In "--check" (@nil string)
   /\ Example.cli_args [] = Error (ERequired ["inputs"]))
  /\ (In "-s" ["--"; "-s"; "--check"] /\ In "--check" ["--"; "-s"; "--check"]
      /\ Example.cli_args ["--"; "-s"; "--check"] =
         Ok (mkNamespace [Example.work "-s"; Example.work "--check"]
                         false (Value 2%Z) false false (Value [3%N; 12%N])))
  /\ (~ In "-s" ["--std"; "a.toml"] /\ ~ In "--stdout" ["--std"; "a.toml"]
      /\ ~ In "--check" ["--std"; "a.toml"]
      /\ Example.cli_args ["--std"; "a.toml"] =
         Ok (mkNamespace [Example.work "a.toml"]
                         true (Value 2%Z) false false (Value [3%N; 12%N]))).
Proof.
  repeat split; try (vm_compute; reflexivity);
    try (intros H; cbn in H; repeat destruct H as [H|H];
         try discriminate H; exact H).
  - cbn. auto.
  - cbn. auto.
Qed.

Lemma directory_argument_default_file_witness :
  is_dir Example.env (absolute Example.env (path_of_string ".")) = true
  /\ pyproject_toml_path_creator Example.env "."
     = inl (Example.work "pyproject.toml")
  /\ exists msg,
       pyproject_toml_path_creator Example.env "sub"
       = inr (ArgumentTypeError msg)
       /\ descriptive msg.
Proof.
  split; [reflexivity|]. split.
  - destruct (@directory_argument_default_file Example.env "." eq_refl)
      as (_ & [_ Acc] & Eq & _).
    assert (V : valid_input Example.env (Example.work "pyproject.toml")).
    { eexists. split; [vm_compute; reflexivity|]. repeat split. }
    destruct (Acc V) as (p & C). rewrite C. f_equal. exact (Eq p C).
  - destruct (@directory_argument_default_file Example.env "sub" eq_refl)
      as (_ & _ & _ & Rej).
    apply Rej; [|reflexivity].
    intros (n & L & _). vm_compute in L. discriminate.
Defined.

Lemma configs_one_per_input_witness :
  let ns := mkNamespace [Example.work "a.toml"; Example.work "crlf.toml"]
                        false (Value 2%Z) false false (Value [3%N; 12%N]) in
  Forall (fun p => exists t, read_text Example.env p = inl t) (inputs ns)
  /\ exists cs,
       configs Example.env ns = inl cs
       /\ length cs = 2
       /\ map (@pyproject_toml _) cs = inputs ns.
Proof.
  intros ns.
  assert (F : Forall (fun p => exists t, read_text Example.env p = inl t)
                     (inputs ns)).
  { repeat constructor; eexists; vm_compute; reflexivity. }
  split; [exact F|].
  destruct (configs_one_per_input Example.env ns) as (_ & T & _).
  destruct (T F) as (cs & C & L & M & _).
  exists cs. repeat split; assumption.
Defined.

(** C9 as stated fails: a parsed input that is not valid UTF-8 makes
    [configs] raise, and for a file with CR LF line ends the [toml]
    field is not the decoded content. *)
Lemma configs_counterexample :
  (exists ns,
      Example.cli_args ["latin1.toml"] = Ok ns
      /\ configs Example.env ns = inr UnicodeDecode)
  /\ (exists ns c decoded,
         Example.cli_args ["crlf.toml"] = Ok ns
         /\ configs Example.env ns = inl [c]
         /\ decode_utf8 (map Byte.to_N [x61; x3d; x31; x0d; x0a]) = Some decoded
         /\ lookup Example.env (Example.work "crlf.toml")
            = Some (Example.file [x61; x3d; x31; x0d; x0a])
         /\ toml c <> decoded).
Proof.
  split.
  - eexists. split; vm_compute; reflexivity.
  - do 3 eexists. split; [vm_compute; reflexivity|].
    split; [vm_compute; reflexivity|].
    split; [vm_compute; reflexivity|].
    split; [vm_compute; reflexivity|].
    cbn. discriminate.
Qed.

Lemma inputs_are_absolute_witness :
  is_absolute (path_of_string (getcwd Example.env)) = true
  /\ (forall p, pyproject_toml_path_creator Example.env "a.toml" = inl p ->
                is_absolute p = true)
  /\ (forall ns, Example.cli_args ["sub/../a.toml"; "."] = Ok ns ->
                 Forall (fun p => is_absolute p = true) (inputs ns)).
Proof.
  destruct (@inputs_are_absolute
              _ Example.parse_version Example.DEFAULT_INDENT
              Example.DEFAULT_MAX_SUPPORTED_PYTHON Example.env eq_refl)
    as [A B].
  split; [reflexivity|]. split.
  - intros p. apply A.
  - intros ns. apply B.
Defined.



Lemma input_error_aborts_invocation_witness :
  plain "missing.toml" = true
  /\ (forall b0 b, ["--check"; "a.toml"] = b0 ++ [b] -> value_taking b = false)
  /\ ~ valid_input Example.env (resolve Example.env "missing.toml")
  /\ (forall x, In x ["--check"; "a.toml"; "missing.toml"; "pyproject.toml"] ->
                asks_to_exit x = false)
  /\ (forall x, In x ["--check"; "a.toml"; "missing.toml"; "pyproject.toml"] ->
                raises Example.env (resolve Example.env x) = false)
  /\ (forall ns,
         Example.cli_args ["--check"; "a.toml"; "missing.toml"; "pyproject.toml"]
         <> Ok ns)
  /\ exists e,
       Example.cli_args ["--check"; "a.toml"; "missing.toml"; "pyproject.toml"]
       = Error e
       /\ e <> EUncaughtOSError.
Proof.
  assert (NV : ~ valid_input Example.env (resolve Example.env "missing.toml"))
    by (intros (n & L & _); vm_compute in L; discriminate).
  assert (Prev : forall b0 b, ["--check"; "a.toml"] = b0 ++ [b] ->
                              value_taking b = false).
  { intros b0 b E.
    change ["--check"; "a.toml"] with (["--check"] ++ ["a.toml"]) in E.
    apply app_inj_tail in E. destruct E as [_ <-]. reflexivity. }
  assert (NX : forall x,
             In x (["--check"; "a.toml"] ++ "missing.toml" :: ["pyproject.toml"]) ->
             asks_to_exit x = false)
    by (intros x [<-|[<-|[<-|[<-|[]]]]]; reflexivity).
  assert (A : forall x,
             In x (["--check"; "a.toml"] ++ "missing.toml" :: ["pyproject.toml"]) ->
             raises Example.env (resolve Example.env x) = false)
    by (intros x [<-|[<-|[<-|[<-|[]]]]]; reflexivity).
  destruct (input_error_aborts_invocation
              Example.parse_version Example.DEFAULT_INDENT
              Example.DEFAULT_MAX_SUPPORTED_PYTHON Example.env) as (_ & G & _).
  destruct (G ["--check"; "a.toml"] "missing.toml" ["pyproject.toml"]
              eq_refl Prev NV) as (No & _ & Err).
  split; [reflexivity|]. split; [exact Prev|]. split; [exact NV|].
  split; [exact NX|]. split; [exact A|].
  split; [exact No|exact (Err NX A)].
Defined.

(** C5 as stated fails: of two paths the first passes the validator and
    the second does not exist; the whole invocation ends in the error of
    the second, and the first is not processed. *)
Lemma input_error_counterexample :
  pyproject_toml_path_creator Example.env "a.toml" = inl (Example.work "a.toml")
  /\ Example.cli_args ["a.toml"; "missing.toml"]
     = Error (EArgumentInputs "path does not exist").
Proof. split; vm_compute; reflexivity. Qed.

(** * Further properties of the command line *)

Section CommandLine.
Variable Version : Type.
Variable parse_version : string -> option Version.
Variable DEFAULT_INDENT : Z.
Variable DEFAULT_MAX_SUPPORTED_PYTHON : Version.
Variable env : Env.

Local Abbreviation State := (ParseState Version).
Local Abbreviation loop := (parse_loop parse_version env).
Local Abbreviation cli := (cli_args parse_version DEFAULT_INDENT
                                    DEFAULT_MAX_SUPPORTED_PYTHON env).
Local Abbreviation defaults paths :=
  (mkNamespace paths false (Value DEFAULT_INDENT) false false
               (Value DEFAULT_MAX_SUPPORTED_PYTHON)).

(** ** Paths only *)

Lemma mapM_convert_valid args :
  Forall (fun a => valid_input env (resolve env a)) args ->
  mapM (convert_input env) args = Ok (map (resolve env) args).
Proof.
  induction 1 as [|a args V F IH]; cbn; [reflexivity|].
  unfold convert_input at 1. rewrite (creator_accepts_valid _ V). cbn.
  rewrite IH. reflexivity.
Qed.


(** ** The separator *)

Lemma match_one_or_more_map_TA f files :
  match_one_or_more (map TA (f :: files)) = S (length files).
Proof. cbn. f_equal. induction files; cbn; auto. Qed.

(** X2: after a leading [--] every argument is a path, whatever it
    looks like (an option string, a number, another [--]): the
    invocation is that of these paths with the options at their
    defaults, and the first one that the validator does not accept
    ends it.  A [--] with nothing after it lacks the required input. *)
Theorem separator_turns_arguments_into_paths :
  (forall f files,
      cli ("--" :: f :: files) =
      (paths <- mapM (convert_input env) (f :: files) ;;
       Ok (defaults paths)))
  /\ cli ["--"] = Error (ERequired ["inputs"]).
Proof.
  split; [|reflexivity].
  intros f files. unfold cli_args. cbn [classify String.eqb Ascii.eqb Bool.eqb].
  change (String.eqb "--" "--") with true. cbn [bind].
  rewrite parse_loop_step.
  assert (N : existsb is_option (TDash :: map TA (f :: files)) = false).
  { cbn [existsb is_option orb]. clear. induction files; cbn; auto. }
  rewrite N. cbn [negb].
  unfold finish, consume_positionals. cbn [ns_inputs initial_state].
  cbn [match_one_or_more]. rewrite match_one_or_more_map_TA.
  replace (firstn (S (S (length files))) (TDash :: map TA (f :: files)))
    with (TDash :: map TA (f :: files))
    by (symmetry; apply firstn_all2; cbn; rewrite length_map; lia).
  replace (skipn (S (S (length files))) (TDash :: map TA (f :: files)))
    with (@nil Tok)
    by (symmetry; apply skipn_all2; cbn; rewrite length_map; lia).
  unfold take_inputs.
  cbn [map tok_string remove_double_dash].
  change (String.eqb "--" "--") with true.
  rewrite map_tok_string_TA.
  assert (K : skipn (S (S (length files))) (TDash :: TA f :: map TA files)
              = []).
  { apply skipn_all2. cbn. rewrite length_map. lia. }
  destruct (mapM (convert_input env) (f :: files)) as [paths| |];
    cbn [bind]; [rewrite K|..]; reflexivity.
Qed.

(** ** Help and version *)


(** X4: the parse ends in the help or version exit only when an
    argument asks for it: when no argument is parsed as the help or
    version option, nor as [-s] with further flags in the same string,
    [cli_args] returns a namespace or ends in an error, that of
    [parser.error] or the [OSError] of a file-system query. *)
Theorem exit_only_on_request :
  forall args,
    (forall a, In a args -> asks_to_exit a = false) ->
    (exists ns, cli args = Ok ns) \/ (exists e, cli args = Error e).
Proof.
  intros args No. destruct (cli args) as [ns|e|] eqn:R; eauto.
  exfalso.
  eapply (cli_args_not_exited parse_version DEFAULT_INDENT
            DEFAULT_MAX_SUPPORTED_PYTHON env); eauto.
Qed.

(** ** Unknown options *)

(** X5: an argument that looks like an option but names none of the
    parser (it starts with a dash, is no negative number, holds no
    space, and is neither an option string nor a prefix of one) is
    never taken as a path: standing before any [--], it leaves the
    invocation without a namespace. *)
Theorem unknown_option_is_rejected :
  forall before a after,
    ~ In "--" before ->
    parse_optional a = Ok (Some (None, a, None)) ->
    (forall ns, cli (before ++ a :: after) <> Ok ns)
    /\ ((forall x, In x (before ++ a :: after) -> asks_to_exit x = false) ->
        exists e, cli (before ++ a :: after) = Error e).
Proof.
  intros before a after NI Pa.
  assert (No : forall ns, cli (before ++ a :: after) <> Ok ns).
  { intros ns H. unfold cli_args in H. bind_inv H. rename r into toks.
    pose proof (classify_strings _ E) as S.
    apply classify_app in E;
      [|exact NI|eapply parse_optional_not_separator; eauto].
    destruct E as (o' & after' & Pa' & Ca & Occ).
    rewrite Pa in Pa'. injection Pa' as <-.
    assert (K : exists st' : State, extras st' <> [] /\ returns st' ns).
    { eapply (@parse_loop_visits _ parse_version env
                (fun st => extras st <> []) (fun _ => True)
                (before ++ a :: after))
        with (s0 := a) (t0 := (None, a, None)) (after0 := after');
        [| | | | | | |exact H].
      - intros st s t rest st' n _ X C. revert X C.
        apply (@consume_optional_keeps _ parse_version
                 (fun st => extras st <> [])).
        + intros a0 l st0 st1 X T. apply take_action_inputs in T.
          destruct T as [_ ->]. exact X.
        + intros st0 l X. cbn. intros Z. apply app_eq_nil in Z. tauto.
      - intros l st st' _ X T. apply take_inputs_fields in T.
        destruct T as (_ & _ & _ & _ & _ & _ & _ & _ & _ & ->). exact X.
      - intros st l X. cbn. intros Z. apply app_eq_nil in Z. tauto.
      - intros st st' n C. cbn in C. injection C as <- _. cbn.
        intros Z. apply app_eq_nil in Z. destruct Z. discriminate.
      - clear. induction toks as [|[| |] ? ?]; constructor; auto.
      - rewrite S. apply incl_refl.
      - right. exact Occ. }
    destruct K as (st' & X & R). apply X.
    destruct R as (_ & _ & _ & _ & _ & _ & Z). exact Z. }
  split; [exact No|].
  intros NoExit. destruct (cli (before ++ a :: after)) as [ns|e|] eqn:R.
  - exfalso. eapply No; reflexivity.
  - eauto.
  - exfalso.
    eapply (cli_args_not_exited parse_version DEFAULT_INDENT
              DEFAULT_MAX_SUPPORTED_PYTHON env); eauto.
Qed.

(** ** Which actions an option token runs

    One option token runs the action of its option, and nothing else:
    the only flags that can share a string are [-s], [-h] and [-V],
    and the last two end the parse. *)

Lemma stdout_cluster (I : State -> Prop) :
  (forall args st st',
      I st -> take_action parse_version AStdout args st = Ok st' -> I st') ->
  forall x tuples last (st st' : State),
    split_cluster AStdout "-s" x = Ok (tuples, last) ->
    I st ->
    take_actions parse_version
      (tuples ++ match last with Some a' => [(a', [])] | None => [] end) st
    = Ok st' ->
    I st'.
Proof.
  intros Keep.
  induction x as [|c tail IH]; intros tuples last st st' H Hi T;
    rewrite split_cluster_eq in H;
    change (takes_argument AStdout) with false in H; cbv iota in H;
    [discriminate|].
  change (second_is_dash "-s") with false in H. cbv iota zeta in H.
  destruct (find_option (String dash (String c EmptyString))
                        option_string_actions) as [a'|] eqn:F;
    [|discriminate].
  apply find_option_In in F. unfold dash in F. cbn in F.
  assert (A : (a' = AHelp \/ a' = AVersion) \/ (a' = AStdout /\ c = "s"%char)).
  { repeat (destruct F as [F|F]; [inversion F; subst; auto|]). destruct F. }
  clear F.
  destruct tail as [|c' tail'].
  - injection H as <- <-. cbn [app take_actions] in T.
    bind_inv T. bind_inv T.
    injection T as <-.
    destruct A as [[-> | ->] | [-> _]]; try discriminate.
    apply (Keep _ _ _ (Keep _ _ _ Hi E) E0).
  - bind_inv H. destruct r as [ts l]. injection H as <- <-.
    cbn [app take_actions] in T. bind_inv T.
    destruct A as [[-> | ->] | [-> ->]].
    + apply split_cluster_head in E. destruct E as (args & tl & ->).
      discriminate.
    + apply split_cluster_head in E. destruct E as (args & tl & ->).
      discriminate.
    + apply (IH _ _ _ _ E (Keep _ _ _ Hi E0) T).
Qed.

Lemma consume_optional_actions (I : State -> Prop) (st : State)
      s a o e rest st' n :
  genuine (Some a, o, e) ->
  (forall args st st',
      I st -> take_action parse_version a args st = Ok st' -> I st') ->
  I st ->
  consume_optional parse_version st s (Some a, o, e) rest = Ok (st', n) ->
  I st'.
Proof.
  intros G Keep Hi H.
  change (find_option o option_string_actions = Some a) in G.
  apply find_option_In in G.
  cbn [consume_optional] in H. bind_inv H. destruct r as [tuples m].
  bind_inv H. injection H as <- _.
  assert (Exit : forall args tl,
             a = AHelp \/ a = AVersion ->
             take_actions parse_version ((a, args) :: tl) st <> Ok r).
  { intros args tl [->| ->]; discriminate. }
  assert (One : forall args, tuples = [(a, args)] -> I r).
  { intros args ->. cbn in E0. bind_inv E0. injection E0 as <-. eauto. }
  unfold action_tuples in E.
  cbn in G.
  repeat (destruct G as [G|G];
          [injection G as <- <-;
           try (exfalso; apply action_tuples_head in E;
                destruct E as (args & tl & ->);
                eapply Exit; eauto; fail)|]);
    try destruct G.
  - destruct e as [x|].
    + bind_inv E. destruct r0 as [ts last].
      eapply (@stdout_cluster I Keep x ts last); [exact E1|exact Hi|].
      destruct last as [a'|].
      * rewrite (split_cluster_last _ _ _ E1) in E.
        injection E as <- _. exact E0.
      * injection E as <- _. rewrite app_nil_r. exact E0.
    + cbn in E. injection E as <- _. eauto.
  - destruct e as [x|].
    + rewrite split_cluster_eq in E. cbn in E. destruct x; discriminate.
    + cbn in E. injection E as <- _. eauto.
  - destruct e as [x|].
    + rewrite split_cluster_eq in E. cbn in E. destruct x; discriminate.
    + cbn in E. injection E as <- _. eauto.
  - destruct e as [x|].
    + rewrite split_cluster_eq in E. cbn in E. destruct x; discriminate.
    + cbn in E. injection E as <- _. eauto.
  - destruct e as [x|].
    + rewrite split_cluster_eq in E. cbn in E. injection E as <- _. eauto.
    + cbn in E. destruct rest as [|[v| |] rest]; try discriminate.
      injection E as <- _. eauto.
  - destruct e as [x|].
    + rewrite split_cluster_eq in E. cbn in E. injection E as <- _. eauto.
    + cbn in E. destruct rest as [|[v| |] rest]; try discriminate.
      injection E as <- _. eauto.
Qed.

(** ** The arguments before the separator *)

Lemma classify_parsed_before args : forall toks,
  classify args = Ok toks ->
  Forall (fun tok => match tok with
                     | TO s t => In s (before_separator args)
                                 /\ parse_optional s = Ok (Some t)
                     | _ => True
                     end) toks.
Proof.
  induction args as [|a args IH]; cbn; intros toks H.
  - injection H as <-. constructor.
  - destruct (String.eqb a "--").
    + injection H as <-. constructor; [exact Logic.I|].
      apply Forall_map_TA. intros v. exact Logic.I.
    + bind_inv H. bind_inv H. injection H as <-.
      constructor.
      * destruct r; cbn; auto.
      * eapply Forall_impl; [|apply IH; exact E0].
        intros [v|s t|]; auto. intros [Hs Hp]. cbn. auto.
Qed.

Lemma before_separator_split a args :
  In a (before_separator args) ->
  exists before after, args = before ++ a :: after /\ ~ In "--" before.
Proof.
  induction args as [|b args IH]; cbn; [tauto|].
  destruct (String.eqb b "--") eqn:D; [intros []|].
  apply String.eqb_neq in D.
  intros [->|H].
  - exists [], args. split; [reflexivity|intros []].
  - destruct (IH H) as (before & after & -> & NI).
    exists (b :: before), after. split; [reflexivity|].
    intros [X|X]; [congruence|tauto].
Qed.

Lemma named_or_not act l :
  (exists a, In a l /\ option_action a = Some act)
  \/ (forall a, In a l -> option_action a <> Some act).
Proof.
  induction l as [|x l [(a & Ha & Na)|No]].
  - right. intros a [].
  - left. exists a. split; [now right|exact Na].
  - assert (D : {option_action x = Some act} + {option_action x <> Some act})
      by (repeat decide equality).
    destruct D as [Y|N].
    + left. exists x. split; [now left|exact Y].
    + right. intros a [<-|Ha]; auto.
Qed.

(** What no option of the command line touches stays as it was: a
    property of the state that the actions other than [act] keep
    holds at the end when no argument names [act]. *)
Lemma absent_option_keeps_loop (I : State -> Prop) (act : Action)
      args toks skip (st : State) ns :
  (forall a l st st',
      a <> act -> I st -> take_action parse_version a l st = Ok st' -> I st') ->
  (forall l st st', I st -> take_inputs env l st = Ok st' -> I st') ->
  (forall st l, I st -> I (add_extras st l)) ->
  classify args = Ok toks ->
  (forall a, In a (before_separator args) -> option_action a <> Some act) ->
  I st ->
  loop skip st toks = Ok ns -> exists st', I st' /\ returns st' ns.
Proof.
  intros KA KI KE E No Init H.
  pose proof (classify_strings _ E) as S.
  apply classify_parsed_before in E.
  eapply (@parse_loop_keeps _ parse_version env I
            (fun t => genuine t /\ fst (fst t) <> Some act) args);
    [| | | | |exact Init|exact H].
  - intros st0 s [[[a|] o] e] rest st' n [G N] Hi C.
    + eapply consume_optional_actions; [exact G| |exact Hi|exact C].
      intros l st1 st2. apply KA. cbn in N. congruence.
    + cbn in C. injection C as <- _. auto.
  - intros l st0 st' _. apply KI.
  - exact KE.
  - eapply Forall_impl; [|exact E].
    intros [v|s t|]; auto. intros [Hin Hp]. split.
    + eapply parse_optional_genuine; eauto.
    + intros Ha. apply (No s Hin). unfold option_action. rewrite Hp.
      destruct t as [[a o] e]. cbn in Ha. subst a. reflexivity.
  - rewrite S. apply incl_refl.
Qed.

Lemma absent_option_keeps (I : State -> Prop) (act : Action) args ns :
  (forall a l st st',
      a <> act -> I st -> take_action parse_version a l st = Ok st' -> I st') ->
  (forall l st st', I st -> take_inputs env l st = Ok st' -> I st') ->
  (forall st l, I st -> I (add_extras st l)) ->
  I (initial_state DEFAULT_INDENT DEFAULT_MAX_SUPPORTED_PYTHON) ->
  (forall a, In a (before_separator args) -> option_action a <> Some act) ->
  cli args = Ok ns -> exists st', I st' /\ returns st' ns.
Proof.
  intros KA KI KE Init No H. unfold cli_args in H. bind_inv H.
  eapply absent_option_keeps_loop; eauto.
Qed.

Lemma option_action_parse a act :
  option_action a = Some act ->
  exists o e, parse_optional a = Ok (Some (Some act, o, e)).
Proof.
  unfold option_action.
  destruct (parse_optional a) as [[[[[x|] o] e]|]| |]; try discriminate.
  intros H. injection H as ->. eauto.
Qed.

Lemma keep_full_version_option_sets before a after o e ns :
  ~ In "--" before ->
  parse_optional a = Ok (Some (Some AKeepFullVersion, o, e)) ->
  cli (before ++ a :: after) = Ok ns -> keep_full_version ns = true.
Proof.
  intros NI Pa H.
  destruct (@option_sets_flag _ parse_version DEFAULT_INDENT
              DEFAULT_MAX_SUPPORTED_PYTHON env
              (fun st => ns_keep_full_version st = true) AKeepFullVersion
              before a after o e ns) as (st' & Hs & R); auto.
  - intros args st st' T. cbn in T. injection T as <-. reflexivity.
  - intros a0 args st st' Hs T.
    destruct a0; cbn in T;
      repeat match type of T with
             | bind _ _ = Ok _ =>
                 let value := fresh "value" in
                 let E := fresh "E" in
                 apply bind_ok in T; destruct T as (value & E & T)
             | context [if ?b then _ else _] => destruct b
             | context [match ?x with _ => _ end] => destruct x
             end; try discriminate; injection T as <-; auto.
  - intros args st st' Hs T. apply take_inputs_fields in T.
    destruct T as (_ & _ & _ & _ & _ & -> & _). exact Hs.
  - destruct R as (_ & _ & _ & _ & <- & _). exact Hs.
Qed.

Ltac other_action T :=
  match type of T with
  | take_action _ ?a _ _ = _ =>
      destruct a; try congruence; cbn in T;
      repeat match type of T with
             | bind _ _ = Ok _ =>
                 let value := fresh "value" in
                 let E := fresh "E" in
                 apply bind_ok in T; destruct T as (value & E & T)
             | context [if ?b then _ else _] => destruct b
             | context [match ?x with _ => _ end] => destruct x
             end; try discriminate; injection T as <-; auto
  end.

(** X6: in a namespace that [cli_args] returns, each of the three
    flags is true exactly when one of the arguments before the first
    [--] is parsed as its option: the option string, an abbreviation
    of it or, for [stdout], a run of [-s]. *)
Theorem flag_set_iff_option_given :
  forall args ns,
    cli args = Ok ns ->
    (stdout ns = true <->
     exists a, In a (before_separator args) /\ option_action a = Some AStdout)
    /\ (check ns = true <->
        exists a, In a (before_separator args) /\ option_action a = Some ACheck)
    /\ (keep_full_version ns = true <->
        exists a, In a (before_separator args)
                  /\ option_action a = Some AKeepFullVersion).
Proof.
  intros args ns H.
  assert (Given : forall act (field : bool),
             (forall before a after o e,
                 args = before ++ a :: after -> ~ In "--" before ->
                 parse_optional a = Ok (Some (Some act, o, e)) ->
                 field = true) ->
             ((forall a, In a (before_separator args) ->
                         option_action a <> Some act) -> field = false) ->
             field = true <->
             exists a, In a (before_separator args)
                       /\ option_action a = Some act).
  { intros act field Sets Clear. split.
    - intros F. destruct (named_or_not act (before_separator args)) as [Y|N];
        [exact Y|]. rewrite (Clear N) in F. discriminate.
    - intros (a & Ha & Na).
      destruct (before_separator_split _ _ Ha) as (before & after & E & NI).
      destruct (option_action_parse _ Na) as (o & e & Pa). eauto. }
  split; [|split]; apply Given.
  - intros before a after o e -> NI Pa.
    eapply stdout_option_sets; eauto.
  - intros No.
    destruct (@absent_option_keeps (fun st => ns_stdout st = false) AStdout
                args ns) as (st' & Hs & R); auto.
    + intros a l st st' N Hs T. other_action T.
    + intros l st st' Hs T. apply take_inputs_fields in T.
      destruct T as (_ & _ & -> & _). exact Hs.
    + destruct R as (_ & <- & _). exact Hs.
  - intros before a after o e -> NI Pa.
    eapply check_option_sets; eauto.
  - intros No.
    destruct (@absent_option_keeps (fun st => ns_check st = false) ACheck
                args ns) as (st' & Hs & R); auto.
    + intros a l st st' N Hs T. other_action T.
    + intros l st st' Hs T. apply take_inputs_fields in T.
      destruct T as (_ & _ & _ & _ & -> & _). exact Hs.
    + destruct R as (_ & _ & _ & <- & _). exact Hs.
  - intros before a after o e -> NI Pa.
    eapply keep_full_version_option_sets; eauto.
  - intros No.
    destruct (@absent_option_keeps
                (fun st => ns_keep_full_version st = false) AKeepFullVersion
                args ns) as (st' & Hs & R); auto.
    + intros a l st st' N Hs T. other_action T.
    + intros l st st' Hs T. apply take_inputs_fields in T.
      destruct T as (_ & _ & _ & _ & _ & -> & _). exact Hs.
    + destruct R as (_ & _ & _ & _ & <- & _). exact Hs.
Qed.

(** X7: a typed option that is not given keeps its default: when no
    argument before the first [--] is parsed as [--indent], the indent
    of the namespace is the default one, and likewise the latest
    Python version without [--max-supported-python]. *)
Theorem typed_option_absent_keeps_default :
  forall args ns,
    cli args = Ok ns ->
    ((forall a, In a (before_separator args) ->
                option_action a <> Some AIndent) ->
     indent ns = Value DEFAULT_INDENT)
    /\ ((forall a, In a (before_separator args) ->
                   option_action a <> Some AMaxSupportedPython) ->
        max_supported_python ns = Value DEFAULT_MAX_SUPPORTED_PYTHON).
Proof.
  intros args ns H. split; intros No.
  - destruct (@absent_option_keeps
                (fun st => ns_indent st = Value DEFAULT_INDENT) AIndent
                args ns) as (st' & Hs & R); auto.
    + intros a l st st' N Hs T. other_action T.
    + intros l st st' Hs T. apply take_inputs_fields in T.
      destruct T as (_ & _ & _ & -> & _). exact Hs.
    + destruct R as (_ & _ & <- & _). exact Hs.
  - destruct (@absent_option_keeps
                (fun st => ns_max_supported_python st
                           = Value DEFAULT_MAX_SUPPORTED_PYTHON)
                AMaxSupportedPython
                args ns) as (st' & Hs & R); auto.
    + intros a l st st' N Hs T. other_action T.
    + intros l st st' Hs T. apply take_inputs_fields in T.
      destruct T as (_ & _ & _ & _ & _ & _ & -> & _). exact Hs.
    + destruct R as (_ & _ & _ & _ & _ & <- & _). exact Hs.
Qed.

(** ** The state at an option token *)

Lemma parse_loop_reaches s t after toks : forall skip (st : State) ns,
  occurs (TO s t) after (skipn skip toks) ->
  loop skip st toks = Ok ns ->
  exists (st1 st2 : State) n,
    consume_optional parse_version st1 s t after = Ok (st2, n)
    /\ loop n st2 after = Ok ns.
Proof.
  induction toks as [|tok rest IH]; intros skip st ns O H.
  - rewrite skipn_nil in O. destruct O as ([|] & O); discriminate.
  - destruct skip as [|k];
      [|rewrite parse_loop_skip in H; cbn [skipn] in O; eauto].
    rewrite parse_loop_step in H. cbn [skipn] in O.
    destruct (existsb is_option (tok :: rest)) eqn:X; cbn [negb] in H.
    2:{ exfalso. eapply no_option_no_occurrence; eauto. }
    assert (step_positionals : forall st' n,
               is_option tok = false ->
               consume_positionals env st (tok :: rest) = Ok (st', n) ->
               (match n with
                | S k => loop k st' rest
                | O => let k := count_until_option (tok :: rest) in
                       loop (k - 1)
                         (add_extras st'
                            (map tok_string (firstn k (tok :: rest)))) rest
                end = Ok ns) ->
               exists (st1 st2 : State) n,
                 consume_optional parse_version st1 s t after = Ok (st2, n)
                 /\ loop n st2 after = Ok ns).
    { intros st' n T E L. destruct n as [|k].
      - cbv zeta in L. rewrite (count_until_option_pos tok rest T) in L.
        replace (S (count_until_option rest) - 1)
          with (count_until_option rest) in L by lia.
        eapply IH; [|exact L].
        pose proof (count_until_option_no_option (tok :: rest)) as N.
        rewrite (count_until_option_pos tok rest T) in N.
        apply (@occurs_skipn s t after (tok :: rest)
                 (S (count_until_option rest)) O N).
      - eapply IH; [|exact L].
        apply consume_positionals_count in E.
        apply (@occurs_skipn s t after (tok :: rest) (S k) O E). }
    destruct tok as [v|s' t'|].
    + bind_inv H. destruct r as [st' n]. eapply step_positionals; eauto.
    + bind_inv H. destruct r as [st' n].
      destruct O as (before & O). destruct before as [|y before]; cbn in O.
      * injection O as -> -> ->. eauto.
      * injection O as _ ->. eapply IH; [|exact H].
        apply consume_optional_count in E.
        apply occurs_skipn; [eexists; reflexivity|exact E].
    + bind_inv H. destruct r as [st' n]. eapply step_positionals; eauto.
Qed.

Lemma get_values_one {A : Type} a (type : string -> option A) v :
  get_values a type [v] =
  if String.eqb v "--" then Ok (Values [])
  else match type v with
       | Some x => Ok (Value x)
       | None => Error (EInvalidValue a v)
       end.
Proof.
  unfold get_values. cbn [remove_double_dash].
  destruct (String.eqb v "--"); [reflexivity|].
  unfold get_value. destruct (type v); reflexivity.
Qed.

Lemma take_indent v (st st' : State) :
  take_action parse_version AIndent [v] st = Ok st' ->
  (v = "--" /\ ns_indent st' = Values [])
  \/ (v <> "--" /\ exists z, py_int v = Some z /\ ns_indent st' = Value z).
Proof.
  cbn [take_action]. rewrite get_values_one.
  destruct (String.eqb v "--") eqn:D.
  - apply String.eqb_eq in D. cbn. intros H. injection H as <-. auto.
  - apply String.eqb_neq in D.
    destruct (py_int v) as [z|]; cbn; [|discriminate].
    intros H. injection H as <-. right. eauto.
Qed.

Lemma take_max_supported_python v (st st' : State) :
  take_action parse_version AMaxSupportedPython [v] st = Ok st' ->
  (v = "--" /\ ns_max_supported_python st' = Values [])
  \/ (v <> "--" /\ exists x, parse_version v = Some x
                            /\ ns_max_supported_python st' = Value x).
Proof.
  cbn [take_action]. rewrite get_values_one.
  destruct (String.eqb v "--") eqn:D.
  - apply String.eqb_eq in D. cbn. intros H. injection H as <-. auto.
  - apply String.eqb_neq in D.
    destruct (parse_version v) as [x|]; cbn; [|discriminate].
    intros H. injection H as <-. right. eauto.
Qed.

Lemma typed_option_consumed act (st1 st2 : State) s o e rest n :
  takes_argument act = true ->
  consume_optional parse_version st1 s (Some act, o, e) rest = Ok (st2, n) ->
  exists v,
    take_action parse_version act [v] st1 = Ok st2
    /\ (e = Some v \/ e = None /\ exists r, rest = TA v :: r).
Proof.
  intros T H. cbn [consume_optional] in H. bind_inv H.
  destruct r as [tuples m]. bind_inv H. injection H as <- _.
  unfold action_tuples in E.
  destruct e as [x|].
  - rewrite split_cluster_eq, T in E. cbn [bind] in E. injection E as <- _.
    cbn [take_actions] in E0. bind_inv E0. injection E0 as <-.
    exists x. split; [exact E|]. left. reflexivity.
  - cbn [bind] in E. rewrite T in E.
    destruct rest as [|[v| |] rest]; try discriminate.
    injection E as <- _.
    cbn [app take_actions] in E0. bind_inv E0. injection E0 as <-.
    exists v. split; [exact E|]. right. eauto.
Qed.

(** The value of a typed option that stands before the separator: the
    text after the equals sign, or else the argument that follows,
    which is not the separator. *)
Lemma typed_option_reached act before a after o e ns :
  takes_argument act = true ->
  ~ In "--" before ->
  parse_optional a = Ok (Some (Some act, o, e)) ->
  cli (before ++ a :: after) = Ok ns ->
  exists after' (st1 st2 : State) n v,
    classify after = Ok after'
    /\ take_action parse_version act [v] st1 = Ok st2
    /\ (e = Some v
        \/ e = None /\ v <> "--" /\ exists rest, after = v :: rest)
    /\ loop n st2 after' = Ok ns.
Proof.
  intros T NI Pa H. unfold cli_args in H. bind_inv H. rename r into toks.
  apply classify_app in E;
    [|exact NI|eapply parse_optional_not_separator; eauto].
  destruct E as (t & after' & Pa' & Ca & Occ).
  rewrite Pa in Pa'. injection Pa' as <-.
  destruct (@parse_loop_reaches a (Some act, o, e) after' toks 0
              _ ns Occ H) as (st1 & st2 & n & C & L).
  destruct (@typed_option_consumed _ _ _ _ _ _ _ _ T C) as (v & Tk & V).
  exists after', st1, st2, n, v. repeat split; auto.
  destruct V as [V|(V & r & ->)]; [left; exact V|right].
  pose proof (classify_strings _ Ca) as S. cbn in S.
  split; [exact V|]. split; [|eauto].
  intros ->. rewrite <- S in Ca. cbn in Ca. discriminate.
Qed.

(** X8: the last [--indent] decides.  When an argument before any
    [--] is parsed as [--indent] and no later argument is, the indent
    of the returned namespace is what [int] makes of this option's
    value (the text after the equals sign, or else the next argument),
    whatever earlier options or the default said; likewise for
    [--max-supported-python] and [Version].  A joined value that is
    exactly [--] is left out, as [argparse] drops such a string before
    the conversion. *)
Theorem last_typed_option_wins :
  forall before a after o e ns,
    ~ In "--" before ->
    e <> Some "--" ->
    cli (before ++ a :: after) = Ok ns ->
    (parse_optional a = Ok (Some (Some AIndent, o, e)) ->
     (forall x, In x (before_separator after) ->
                option_action x <> Some AIndent) ->
     exists v z,
       (e = Some v \/ e = None /\ exists rest, after = v :: rest)
       /\ py_int v = Some z /\ indent ns = Value z)
    /\ (parse_optional a = Ok (Some (Some AMaxSupportedPython, o, e)) ->
        (forall x, In x (before_separator after) ->
                   option_action x <> Some AMaxSupportedPython) ->
        exists v x,
          (e = Some v \/ e = None /\ exists rest, after = v :: rest)
          /\ parse_version v = Some x
          /\ max_supported_python ns = Value x).
Proof.
  intros before a after o e ns NI NE H.
  pose proof (fun act T Pa =>
                @typed_option_reached act before a after o e ns T NI Pa H)
    as Reach.
  assert (Given : forall v,
             e = Some v
             \/ e = None /\ v <> "--" /\ (exists rest, after = v :: rest) ->
             v <> "--"
             /\ (e = Some v \/ e = None /\ exists rest, after = v :: rest)).
  { intros v [V|(V & N & R)]; [|auto]. split; [|auto].
    intros ->. exact (NE V). }
  split; intros Pa No.
  - destruct (Reach AIndent eq_refl Pa)
      as (after' & st1 & st2 & n & v & Ca & Tk & V & L).
    destruct (Given v V) as [N V'].
    apply take_indent in Tk.
    destruct Tk as [[Tk _]|(_ & z & Hz & Hi)]; [contradiction|].
    exists v, z. split; [exact V'|]. split; [exact Hz|].
    assert (K : exists st' : State,
               ns_indent st' = Value z /\ returns st' ns).
    { eapply (@absent_option_keeps_loop
                (fun st => ns_indent st = Value z) AIndent
                after after' n);
        [| | |exact Ca|exact No|exact Hi|exact L].
      - intros a0 l st st' N' Hs T. other_action T.
      - intros l st st' Hs T. apply take_inputs_fields in T.
        destruct T as (_ & _ & _ & -> & _). exact Hs.
      - auto. }
    destruct K as (st' & Hs & R).
    destruct R as (_ & _ & <- & _). exact Hs.
  - destruct (Reach AMaxSupportedPython eq_refl Pa)
      as (after' & st1 & st2 & n & v & Ca & Tk & V & L).
    destruct (Given v V) as [N V'].
    apply take_max_supported_python in Tk.
    destruct Tk as [[Tk _]|(_ & x & Hx & Hi)]; [contradiction|].
    exists v, x. split; [exact V'|]. split; [exact Hx|].
    assert (K : exists st' : State,
               ns_max_supported_python st' = Value x /\ returns st' ns).
    { eapply (@absent_option_keeps_loop
                (fun st => ns_max_supported_python st = Value x)
                AMaxSupportedPython after after' n);
        [| | |exact Ca|exact No|exact Hi|exact L].
      - intros a0 l st st' N' Hs T. other_action T.
      - intros l st st' Hs T. apply take_inputs_fields in T.
        destruct T as (_ & _ & _ & _ & _ & _ & -> & _). exact Hs.
      - auto. }
    destruct K as (st' & Hs & R).
    destruct R as (_ & _ & _ & _ & _ & <- & _). exact Hs.
Qed.

(** An option whose value the conversion refuses leaves no namespace. *)
Lemma refused_value_no_namespace act before a after o e :
  takes_argument act = true ->
  ~ In "--" before ->
  e <> Some "--" ->
  parse_optional a = Ok (Some (Some act, o, e)) ->
  (forall v (st st' : State),
      (e = Some v \/ (e = None /\ exists rest, after = v :: rest)) ->
      v <> "--" ->
      take_action parse_version act [v] st <> Ok st') ->
  (forall ns, cli (before ++ a :: after) <> Ok ns)
  /\ ((forall x, In x (before ++ a :: after) -> asks_to_exit x = false) ->
      exists err, cli (before ++ a :: after) = Error err)
  /\ ((forall x, In x (before ++ a :: after) -> asks_to_exit x = false) ->
      (forall x, In x (before ++ a :: after) ->
                 raises env (resolve env x) = false) ->
      exists err, cli (before ++ a :: after) = Error err
                  /\ err <> EUncaughtOSError).
Proof.
  intros T NI NE Pa Bad.
  assert (No : forall ns, cli (before ++ a :: after) <> Ok ns).
  { intros ns H.
    destruct (@typed_option_reached act before a after o e ns T NI Pa H)
      as (after' & st1 & st2 & n & v & _ & Tk & V & _).
    revert Tk. apply Bad.
    - destruct V as [V|(V & _ & R)]; auto.
    - destruct V as [V|(_ & N & _)]; [|exact N].
      intros ->. exact (NE V). }
  assert (Err : (forall x, In x (before ++ a :: after) ->
                           asks_to_exit x = false) ->
                exists err, cli (before ++ a :: after) = Error err).
  { intros NoExit.
    destruct (cli (before ++ a :: after)) as [ns|err|] eqn:R.
    - exfalso. eapply No; reflexivity.
    - eauto.
    - exfalso.
      eapply (cli_args_not_exited parse_version DEFAULT_INDENT
                DEFAULT_MAX_SUPPORTED_PYTHON env); eauto. }
  split; [exact No|]. split; [exact Err|].
  intros NoExit A. destruct (Err NoExit) as (err & R).
  exists err. split; [exact R|]. intros ->.
  eapply (cli_args_caught parse_version DEFAULT_INDENT
            DEFAULT_MAX_SUPPORTED_PYTHON env); eauto.
Qed.

(** X14: [--indent] needs an integer.  When an argument before any
    [--] is parsed as [--indent], in whatever spelling, and its value
    (the text after the equals sign, or else the next argument) is
    missing or is not read by [int], [cli_args] returns no namespace:
    it ends in an error unless an argument asks for the help or
    version exit, and the error is the parser's when no file-system
    query on an argument raises.  A joined value that is exactly [--]
    is left out. *)
Theorem indent_value_must_be_an_integer :
  forall before a after o e,
    ~ In "--" before ->
    e <> Some "--" ->
    parse_optional a = Ok (Some (Some AIndent, o, e)) ->
    (forall v, e = Some v \/ (e = None /\ exists rest, after = v :: rest) ->
               py_int v = None) ->
    (forall ns, cli (before ++ a :: after) <> Ok ns)
    /\ ((forall x, In x (before ++ a :: after) -> asks_to_exit x = false) ->
        exists err, cli (before ++ a :: after) = Error err)
    /\ ((forall x, In x (before ++ a :: after) -> asks_to_exit x = false) ->
        (forall x, In x (before ++ a :: after) ->
                   raises env (resolve env x) = false) ->
        exists err, cli (before ++ a :: after) = Error err
                    /\ err <> EUncaughtOSError).
Proof.
  intros before a after o e NI NE Pa Bad.
  apply (@refused_value_no_namespace AIndent before a after o e
           eq_refl NI NE Pa).
  intros v st st' V N Tk. apply take_indent in Tk.
  destruct Tk as [[Tk _]|(_ & z & Hz & _)]; [contradiction|].
  rewrite (Bad v V) in Hz. discriminate.
Qed.

(** ** What a typed option stores *)







(** ** Abbreviations *)

Lemma startswith_prefixes p : forall s,
  startswith s p = true -> In p (prefixes s).
Proof.
  induction p as [|c p IH]; intros [|d s] H; cbn in *;
    try discriminate; auto.
  apply andb_true_iff in H. destruct H as [C H].
  apply Ascii.eqb_eq in C. subst d. right.
  apply in_map. auto.
Qed.

(** X9: every long option may be shortened: a string of at least
    three characters that one of the double-dash option strings starts
    with is parsed as that option, alone and with a value joined by an
    equals sign.  No two long options of this parser begin with the
    same letter, so no abbreviation is ambiguous. *)
Theorem long_options_may_be_abbreviated :
  forall o a p,
    In (o, a) option_string_actions ->
    second_is_dash o = true ->
    startswith o p = true ->
    3 <= String.length p ->
    parse_optional p = Ok (Some (Some a, o, None))
    /\ forall v, parse_optional (p ++ "=" ++ v) = Ok (Some (Some a, o, Some v)).
Proof.
  intros o a p Hin Long Pre Len.
  apply startswith_prefixes in Pre.
  cbn in Hin.
  repeat (destruct Hin as [Hin|Hin];
          [injection Hin as <- <-; try discriminate Long;
           cbn in Pre;
           repeat (destruct Pre as [<-|Pre];
                   [first [exfalso; cbn in Len; lia
                          |split; [reflexivity|intros v; reflexivity]]|]);
           destruct Pre|]).
  destruct Hin.
Qed.

(** ** At least one input *)

Lemma separated_tail x l : separated (x :: l) -> x <> TDash -> separated l.
Proof.
  intros W N pre post ->.
  destruct (W (x :: pre) post eq_refl) as [E|H]; [congruence|exact H].
Qed.

Lemma separated_skipn_one l : separated l -> forall v r,
  l = TA v :: r -> separated r.
Proof. intros W v r ->. eapply separated_tail; eauto. discriminate. Qed.

Lemma classify_separated args : forall toks,
  classify args = Ok toks -> separated toks.
Proof.
  induction args as [|a args IH]; cbn; intros toks H.
  - injection H as <-. intros [|? ?] ? E; discriminate.
  - destruct (String.eqb a "--") eqn:D.
    + injection H as <-. intros [|x pre] post E; [discriminate|].
      injection E as <- _. now left.
    + bind_inv H. bind_inv H. injection H as <-.
      intros [|x pre] post Q; cbn in Q.
      * destruct r; [discriminate|]. injection Q as ->.
        rewrite String.eqb_refl in D. discriminate.
      * injection Q as <- Q. right. eapply IH; eauto.
Qed.

Lemma matched_inputs l n :
  separated l -> match_one_or_more l = S n ->
  remove_double_dash (map tok_string (firstn (S n) l)) <> [].
Proof.
  intros W M. destruct l as [|[v|s t|] rest]; try discriminate.
  - cbn. destruct (String.eqb v "--") eqn:D; [|discriminate].
    apply String.eqb_eq in D. subst v.
    destruct (W [] rest eq_refl).
  - cbn in M. destruct (match_one_or_more rest) as [|m] eqn:R;
      [discriminate|]. injection M as <-.
    destruct rest as [|x rest]; [discriminate|].
    cbn [firstn map tok_string remove_double_dash].
    change (String.eqb "--" "--") with true. cbv iota. discriminate.
Qed.

Lemma positionals_some_input (st : State) l st' n :
  some_input st l ->
  consume_positionals env st l = Ok (st', n) ->
  (extras st' <> [] \/ exists paths, ns_inputs st' = Some paths /\ paths <> [])
  \/ (n = 0 /\ st' = st /\ ns_inputs st = None).
Proof.
  unfold consume_positionals. intros J H.
  destruct (ns_inputs st) as [paths|] eqn:Q.
  - injection H as <- <-. left.
    destruct J as [X|[(ps & E & N)|(E & _)]]; [auto| |congruence].
    right. exists ps. auto.
  - destruct (match_one_or_more l) as [|m] eqn:M.
    + injection H as <- <-. auto.
    + bind_inv H. injection H as <- _. left.
      destruct J as [X|[(ps & E' & N)|(_ & W)]]; [|congruence|].
      * left. apply take_inputs_fields in E.
        destruct E as (_ & _ & _ & _ & _ & _ & _ & _ & _ & ->). exact X.
      * right. pose proof (matched_inputs W M) as NE.
        apply take_inputs_fields in E. destruct E as (E & Some_ & _).
        destruct (ns_inputs r) as [ps|]; [|congruence].
        exists ps. split; [reflexivity|].
        apply mapM_ok_length in E. intros ->.
        destruct (remove_double_dash _); [congruence|discriminate].
Qed.

Lemma finish_some_input (st : State) l ns :
  some_input st l -> finish env st l = Ok ns -> inputs ns <> [].
Proof.
  unfold finish. intros J H. bind_inv H. destruct r as [st1 stop].
  apply (positionals_some_input J) in E.
  cbn [add_extras ns_inputs extras ns_stdout ns_indent ns_check
       ns_keep_full_version ns_max_supported_python] in H.
  destruct (ns_inputs st1) as [paths|] eqn:Q; [|discriminate].
  destruct (extras st1 ++ _) eqn:X; [|discriminate].
  injection H as <-. cbn.
  apply app_eq_nil in X. destruct X as [X _].
  destruct E as [[E|(ps & E & N)]|(_ & -> & E)]; congruence.
Qed.

Lemma optional_some_input (st : State) s t rest st' n :
  some_input st (TO s t :: rest) ->
  consume_optional parse_version st s t rest = Ok (st', n) ->
  some_input st' (skipn n rest).
Proof.
  intros J H.
  assert (W : separated (TO s t :: rest) -> separated (skipn n rest)).
  { intros W. apply separated_tail in W; [|discriminate].
    pose proof H as Nx. apply consume_optional_next in Nx.
    destruct Nx as [->|(-> & _ & v & tl & ->)]; [exact W|].
    eapply separated_skipn_one; eauto. }
  destruct t as [[[a|] o] e]; cbn [consume_optional] in H.
  - bind_inv H. destruct r as [tuples m]. bind_inv H. injection H as <- _.
    assert (K : ns_inputs r = ns_inputs st /\ extras r = extras st).
    { eapply (@take_actions_keeps _ parse_version
                (fun x => ns_inputs x = ns_inputs st
                          /\ extras x = extras st) tuples);
        [|split; reflexivity|exact E0].
      intros a0 l st0 st1 [A B] T. apply take_action_inputs in T.
      destruct T as [-> ->]. auto. }
    destruct K as [Ki Ke]. unfold some_input. rewrite Ki, Ke.
    destruct J as [X|[X|[X Y]]]; auto.
  - injection H as <- _. left. cbn. intros Z.
    apply app_eq_nil in Z. destruct Z. discriminate.
Qed.

Lemma extras_some_input (st : State) l toks :
  l <> [] -> some_input (add_extras st l) toks.
Proof.
  intros N. left. cbn. intros Z. apply app_eq_nil in Z. tauto.
Qed.

Lemma parse_loop_some_input toks : forall skip (st : State) ns,
  some_input st (skipn skip toks) -> loop skip st toks = Ok ns ->
  inputs ns <> [].
Proof.
  induction toks as [|tok rest IH]; intros skip st ns J H.
  - rewrite parse_loop_nil in H. rewrite skipn_nil in J.
    eapply finish_some_input; eauto.
  - destruct skip as [|k];
      [|rewrite parse_loop_skip in H; cbn [skipn] in J; eauto].
    rewrite parse_loop_step in H. cbn [skipn] in J.
    destruct (negb (existsb is_option (tok :: rest)));
      [eapply finish_some_input; eauto|].
    assert (step_positionals : forall st' n,
               is_option tok = false ->
               consume_positionals env st (tok :: rest) = Ok (st', n) ->
               (match n with
                | S k => loop k st' rest
                | O => let k := count_until_option (tok :: rest) in
                       loop (k - 1)
                         (add_extras st'
                            (map tok_string (firstn k (tok :: rest)))) rest
                end = Ok ns) ->
               inputs ns <> []).
    { intros st' n T E L.
      apply (positionals_some_input J) in E.
      destruct n as [|k].
      - cbv zeta in L. rewrite (count_until_option_pos tok rest T) in L.
        eapply IH; [|exact L]. apply extras_some_input. discriminate.
      - eapply IH; [|exact L].
        destruct E as [[E|E]|(E & _)]; [left; exact E|right; left; exact E|].
        discriminate. }
    destruct tok as [v|s t|].
    + bind_inv H. destruct r as [st' n]. eapply step_positionals; eauto.
    + bind_inv H. destruct r as [st' n]. eapply IH; [|exact H].
      eapply optional_some_input; eauto.
    + bind_inv H. destruct r as [st' n]. eapply step_positionals; eauto.
Qed.

(** X10: a namespace that [cli_args] returns has at least one input;
    an argument list without a path, or with the separator and nothing
    after it, is not parsed. *)
Theorem inputs_never_empty :
  forall args ns,
    cli_args parse_version DEFAULT_INDENT DEFAULT_MAX_SUPPORTED_PYTHON env args
    = Ok ns ->
    inputs ns <> [].
Proof.
  intros args ns H. unfold cli_args in H. bind_inv H.
  eapply (@parse_loop_some_input r 0); [|exact H].
  right. right. split; [reflexivity|].
  cbn [skipn]. eapply classify_separated; eauto.
Qed.

(** ** Paths on both sides of an option *)

Lemma classify_plain_app l : forall r toks,
  forallb plain l = true -> classify r = Ok toks ->
  classify (l ++ r) = Ok (map TA l ++ toks).
Proof.
  induction l as [|a l IH]; cbn [app map forallb]; intros r toks P C;
    [exact C|].
  apply andb_true_iff in P. destruct P as [Pa Pl].
  destruct (plain_parse _ Pa) as [D Po].
  cbn [classify]. rewrite D, Po. cbn [bind].
  rewrite (IH _ _ Pl C). reflexivity.
Qed.

Lemma parse_loop_skips l : forall (st : State) r,
  loop (length l) st (l ++ r) = loop 0 st r.
Proof.
  induction l as [|x l IH]; intros st r; [reflexivity|].
  cbn [length app]. rewrite parse_loop_skip. apply IH.
Qed.

Lemma count_args_until_option l s t r :
  count_args_and_dashes (map TA l ++ TO s t :: r) = length l.
Proof. induction l; cbn; auto. Qed.

Lemma firstn_map_TA l (r : list Tok) :
  firstn (length l) (map TA l ++ r) = map TA l.
Proof. induction l; cbn; [destruct r|]; congruence. Qed.

(** X11: the paths must stand together.  When valid paths are followed
    by a flag and then by further arguments that are no options, the
    paths before the flag are the inputs and those after it are
    unrecognised: the invocation ends in [parser.error], without a
    look at the later paths. *)
Theorem inputs_must_be_contiguous :
  forall f files o option_string a m more,
    forallb plain (f :: files) = true ->
    Forall (fun x => valid_input env (resolve env x)) (f :: files) ->
    parse_optional o = Ok (Some (Some a, option_string, None)) ->
    a = AStdout \/ a = ACheck \/ a = AKeepFullVersion ->
    forallb plain (m :: more) = true ->
    cli ((f :: files) ++ o :: m :: more) = Error (EUnrecognized (m :: more)).
Proof.
  intros f files o os a m more Pf V Po Ha Pm.
  unfold cli_args.
  assert (C : classify ((f :: files) ++ o :: m :: more)
              = Ok (map TA (f :: files)
                      ++ TO o (Some a, os, None) :: map TA (m :: more))).
  { apply classify_plain_app; [exact Pf|].
    pose proof (classify_plain _ Pm) as Cm.
    remember (m :: more) as rest eqn:R. clear R. cbn [classify].
    assert (D : String.eqb o "--" = false)
      by (apply String.eqb_neq; eapply parse_optional_not_separator; eauto).
    rewrite D, Po. cbn [bind]. rewrite Cm. reflexivity. }
  rewrite C. cbn [bind]. cbn [map app].
  rewrite parse_loop_step.
  assert (X : forall l r, existsb is_option
                   (l ++ TO o (Some a, os, None) :: r) = true).
  { intros l r. rewrite existsb_app. cbn. apply orb_true_r. }
  pose proof (X (TA f :: map TA files) (TA m :: map TA more)) as X1.
  pose proof (X [] (TA m :: map TA more)) as X2. cbn [app] in X1, X2.
  rewrite X1. cbn [negb].
  unfold consume_positionals at 1. cbn [ns_inputs initial_state].
  cbn [match_one_or_more]. rewrite count_args_until_option.
  cbn [firstn]. rewrite firstn_map_TA.
  cbn [map tok_string]. rewrite map_tok_string_TA.
  unfold take_inputs. rewrite (remove_double_dash_plain _ Pf).
  rewrite (mapM_convert_valid V). cbn [bind].
  rewrite <- (length_map TA files) at 1. rewrite parse_loop_skips.
  rewrite parse_loop_step. rewrite X2. cbn [negb].
  cbn [consume_optional]. unfold action_tuples. cbn [bind].
  assert (Flag : takes_argument a = false)
    by (destruct Ha as [->|[->| ->]]; reflexivity).
  rewrite Flag. cbn [app take_actions bind].
  pose proof (no_option_map_TA (m :: more)) as N. cbn [map] in N.
  destruct Ha as [->|[->| ->]]; cbn [take_action];
    cbn [seen_check seen_stdout initial_state bind];
    rewrite parse_loop_step, N; cbn [negb];
    unfold finish, consume_positionals; cbn [ns_inputs bind skipn];
    cbn; rewrite map_tok_string_TA; reflexivity.
Qed.
(** ** Errors that [argparse] does not catch *)

Lemma some_query_raises args :
  (exists a, In a args /\ raises env (resolve env a) = true)
  \/ (forall a, In a args -> raises env (resolve env a) = false).
Proof.
  induction args as [|x args [(a & Hin & R)|IH]].
  - right. intros a [].
  - left. exists a. split; [right; exact Hin|exact R].
  - destruct (raises env (resolve env x)) eqn:R.
    + left. exists x. split; [left; reflexivity|exact R].
    + right. intros a [<-|Hin]; auto.
Qed.

(** X15: an [OSError] comes from a file-system query only.  The
    validator lets one through exactly when [stat] on the path it
    checks raises an error that [pathlib] does not take for an answer;
    [cli_args] ends in an [OSError] only when the query on one of its
    arguments raises, so that with queries that all answer every
    error is that of [parser.error]. *)
Theorem oserror_only_from_a_query :
  (forall argument,
      pyproject_toml_path_creator env argument = inr OSError
      <-> raises env (resolve env argument) = true)
  /\ (forall args,
         cli args = Error EUncaughtOSError ->
         exists a, In a args /\ raises env (resolve env a) = true)
  /\ (forall args,
         (forall a, In a args -> raises env (resolve env a) = false) ->
         cli args <> Error EUncaughtOSError).
Proof.
  split; [exact (creator_raises env)|split].
  - intros args H. destruct (some_query_raises args) as [Y|N]; [exact Y|].
    exfalso. revert H.
    apply (cli_args_caught parse_version DEFAULT_INDENT
             DEFAULT_MAX_SUPPORTED_PYTHON env). exact N.
  - intros args N.
    apply (cli_args_caught parse_version DEFAULT_INDENT
             DEFAULT_MAX_SUPPORTED_PYTHON env). exact N.
Qed.

End CommandLine.

(** * Further properties of the validator and of the configurations *)

Section PathFacts.
Variable env : Env.

(** ** Splitting and joining *)

Lemma split_on_pieces s :
  Forall (fun x => contains_char slash x = false) (split_on slash s).
Proof.
  induction s as [|d s IH]; cbn [split_on].
  - constructor; [reflexivity|constructor].
  - destruct (Ascii.eqb slash d) eqn:D.
    + constructor; [reflexivity|exact IH].
    + destruct (split_on slash s) as [|piece pieces].
      * constructor; [|constructor]. cbn [contains_char].
        rewrite D. reflexivity.
      * inversion IH as [|? ? Hp Hps]; subst.
        constructor; [|exact Hps]. cbn [contains_char].
        rewrite D. exact Hp.
Qed.

Lemma split_on_no_slash x :
  contains_char slash x = false -> split_on slash x = [x].
Proof.
  induction x as [|d x IH]; cbn [contains_char split_on]; [reflexivity|].
  intros H. apply orb_false_iff in H. destruct H as [D H].
  rewrite D, (IH H). reflexivity.
Qed.

Lemma split_on_app x rest :
  contains_char slash x = false ->
  split_on slash (x ++ "/" ++ rest) = x :: split_on slash rest.
Proof.
  induction x as [|d x IH]; cbn [append contains_char split_on].
  - intros _. change (Ascii.eqb slash "/") with true. reflexivity.
  - intros H. apply orb_false_iff in H. destruct H as [D H].
    rewrite D. cbn [append] in IH. rewrite (IH H). reflexivity.
Qed.

Lemma split_on_join ps :
  ps <> [] -> Forall (fun x => contains_char slash x = false) ps ->
  split_on slash (join "/" ps) = ps.
Proof.
  induction ps as [|x ps IH]; [congruence|]. intros _ F.
  inversion F as [|? ? Hx Hps]; subst.
  destruct ps as [|y ps].
  - apply split_on_no_slash. exact Hx.
  - change (join "/" (x :: y :: ps))
      with (x ++ "/" ++ join "/" (y :: ps))%string.
    rewrite split_on_app by exact Hx. f_equal. apply IH; [discriminate|exact Hps].
Qed.

Lemma filter_components ps :
  Forall component ps -> filter keep_component ps = ps.
Proof.
  induction 1 as [|x ps [K _] F IH]; cbn; [reflexivity|].
  rewrite K, IH. reflexivity.
Qed.

Lemma lstrip_id s : startswith s "/" = false -> lstrip slash s = s.
Proof.
  destruct s as [|d s]; cbn [startswith lstrip]; [reflexivity|].
  intros D. apply andb_false_iff in D.
  destruct D as [D|D]; [|destruct s; discriminate].
  change (Ascii.eqb slash d) with (Ascii.eqb "/" d). rewrite D. reflexivity.
Qed.

Lemma splitroot_root r s :
  r = "/" \/ r = "//" -> startswith s "/" = false ->
  splitroot (r ++ s) = (r, s).
Proof.
  intros [->| ->] L; unfold splitroot; cbn [append];
    change (Ascii.eqb "/" slash) with true; cbv iota zeta;
    cbn [lstrip]; change (Ascii.eqb slash "/") with true; cbv iota;
    rewrite lstrip_id by exact L; cbn [String.length].
  - replace (S (String.length s) - String.length s) with 1 by lia.
    reflexivity.
  - replace (S (S (String.length s)) - String.length s) with 2 by lia.
    reflexivity.
Qed.

Lemma join_leading ps :
  Forall component ps -> startswith (join "/" ps) "/" = false.
Proof.
  intros F. destruct ps as [|x ps]; [reflexivity|].
  inversion F as [|? ? [K S] _]; subst.
  destruct x as [|c x]; [discriminate|].
  cbn [contains_char] in S. apply orb_false_iff in S. destruct S as [D _].
  unfold slash in D.
  destruct ps; cbn [join append startswith]; rewrite D; reflexivity.
Qed.

(** ** Paths and their strings *)

Lemma path_round_trip p :
  well_formed p -> path_of_string (path_str p) = p.
Proof.
  destruct p as [r ps]. intros [R F]. cbn [root parts] in R, F.
  assert (S : path_str (mkPath r ps) = (r ++ join "/" ps)%string)
    by (destruct R as [->| ->]; reflexivity).
  rewrite S. unfold path_of_string.
  rewrite splitroot_root; [|exact R|exact (join_leading F)]. f_equal.
  destruct ps as [|x ps]; [reflexivity|].
  rewrite split_on_join.
  - apply filter_components. exact F.
  - discriminate.
  - eapply Forall_impl; [|exact F]. intros y [_ Hy]. exact Hy.
Qed.

Lemma path_of_string_components a :
  Forall component (parts (path_of_string a)).
Proof.
  unfold path_of_string. destruct (splitroot a) as [r rel]. cbn [parts].
  apply Forall_forall. intros x Hx. apply filter_In in Hx.
  destruct Hx as [Hin K]. split; [exact K|].
  pose proof (split_on_pieces rel) as P. rewrite Forall_forall in P. auto.
Qed.

Lemma path_of_string_root a :
  is_absolute (path_of_string a) = true ->
  root (path_of_string a) = "/" \/ root (path_of_string a) = "//".
Proof.
  unfold path_of_string, is_absolute.
  destruct (splitroot a) as [r rel] eqn:S. cbn [root].
  unfold splitroot in S. destruct a as [|c a].
  - injection S as <- _. discriminate.
  - destruct (Ascii.eqb c slash).
    + cbv zeta in S. destruct (Nat.eqb _ 2); injection S as <- _; auto.
    + injection S as <- _. discriminate.
Qed.

Lemma resolve_well_formed a :
  is_absolute (path_of_string (getcwd env)) = true ->
  well_formed (resolve env a).
Proof.
  intros C.
  assert (A : well_formed (absolute env (path_of_string a))).
  { unfold absolute. destruct (is_absolute (path_of_string a)) eqn:Ab.
    - split; [apply path_of_string_root; exact Ab|].
      apply path_of_string_components.
    - split; cbn [root parts]; [apply path_of_string_root; exact C|].
      apply Forall_app. split; apply path_of_string_components. }
  unfold resolve. destruct (is_dir env _); [|exact A].
  destruct A as [R F]. split; cbn [joinpath root parts]; [exact R|].
  apply Forall_app. split; [exact F|].
  constructor; [split; reflexivity|constructor].
Qed.

(** X12: what the validator returns it accepts again, unchanged: the
    string of a returned path is an argument for which the validator
    returns that very path.  (The working directory is absolute, as
    [os.getcwd] gives it.) *)
Theorem validator_accepts_its_result :
  forall a p,
    is_absolute (path_of_string (getcwd env)) = true ->
    pyproject_toml_path_creator env a = inl p ->
    pyproject_toml_path_creator env (path_str p) = inl p.
Proof.
  intros a p C H. apply creator_accepts in H. destruct H as [-> V].
  pose proof (resolve_well_formed a C) as W.
  pose proof (resolve_is_absolute env a C) as A.
  set (p := resolve env a) in *.
  assert (R : resolve env (path_str p) = p).
  { unfold resolve. rewrite (path_round_trip W).
    unfold absolute. rewrite A.
    destruct V as (n & L & K & _). unfold is_dir. rewrite L, K.
    reflexivity. }
  rewrite <- R at 2. apply creator_accepts_valid. rewrite R. exact V.
Qed.

End PathFacts.

Section TextFacts.
Variable Version : Type.
Variable env : Env.

Lemma universal_newlines_bounded n : forall t,
  length t <= n -> ~ In 13%N (universal_newlines t).
Proof.
  induction n as [|n IH]; intros [|c r] L; cbn [length] in L;
    try (intros []); try lia.
  cbn [universal_newlines].
  destruct (c =? 13)%N eqn:C.
  - destruct r as [|d r'].
    + intros [X|[]]. discriminate.
    + cbn [length] in L.
      destruct (d =? 10)%N; intros [X|X]; try discriminate;
        revert X; apply IH; cbn [length]; lia.
  - apply N.eqb_neq in C. intros [X|X]; [congruence|].
    revert X. apply IH. lia.
Qed.

Lemma read_text_no_carriage_return p t :
  read_text env p = inl t -> ~ In 13%N t.
Proof.
  intros H. apply read_text_inl in H.
  destruct H as (n & u & _ & _ & _ & _ & ->).
  eapply universal_newlines_bounded. reflexivity.
Qed.

(** X13: the text of a configuration holds no carriage return: the
    files are read in text mode, where CR LF and a lone CR become one
    line feed, so what the formatter is given always has LF line
    ends, whatever the file on disk has. *)
Theorem toml_has_no_carriage_return :
  forall (ns : PyProjectFmtNamespace Version) cs,
    configs env ns = inl cs ->
    Forall (fun c => ~ In 13%N (toml c)) cs.
Proof.
  intros ns. unfold configs. generalize (inputs ns).
  induction l as [|p l IH]; cbn [configs_of]; intros cs H.
  - injection H as <-. constructor.
  - unfold config_for in H.
    destruct (read_text env p) as [t|e] eqn:Rd; [|discriminate].
    destruct (configs_of env ns l) as [cs'|e]; [|discriminate].
    injection H as <-. constructor; [|apply IH; reflexivity].
    cbn [toml]. eapply read_text_no_carriage_return; eauto.
Qed.

End TextFacts.

(** * Instances of the further properties

    All in the setting of [Example]: working directory [/work]. *)



Lemma exit_only_on_request_witness :
  (forall a, In a ["--check"; "missing.toml"] -> asks_to_exit a = false)
  /\ ((exists ns, Example.cli_args ["--check"; "missing.toml"] = Ok ns)
      \/ exists e, Example.cli_args ["--check"; "missing.toml"] = Error e).
Proof.
  assert (NX : forall a, In a ["--check"; "missing.toml"] ->
                         asks_to_exit a = false)
    by (intros a [<-|[<-|[]]]; reflexivity).
  split; [exact NX|].
  exact (@exit_only_on_request
           _ Example.parse_version Example.DEFAULT_INDENT
           Example.DEFAULT_MAX_SUPPORTED_PYTHON Example.env
           ["--check"; "missing.toml"] NX).
Defined.

Lemma unknown_option_is_rejected_witness :
  ~ In "--" ["a.toml"]
  /\ parse_optional "--frobnicate" = Ok (Some (None, "--frobnicate", None))
  /\ (forall ns, Example.cli_args ["a.toml"; "--frobnicate"] <> Ok ns).
Proof.
  assert (NI : ~ In "--" ["a.toml"]) by (intros [H|[]]; discriminate).
  split; [exact NI|]. split; [reflexivity|].
  exact (proj1 (@unknown_option_is_rejected
                  _ Example.parse_version Example.DEFAULT_INDENT
                  Example.DEFAULT_MAX_SUPPORTED_PYTHON Example.env
                  ["a.toml"] "--frobnicate" [] NI eq_refl)).
Defined.

Lemma flag_set_iff_option_given_witness :
  let ns := mkNamespace [Example.work "a.toml"] false (Value 2%Z) true true (Value [3%N; 12%N]) in
  Example.cli_args ["--ch"; "--keep-full-version"; "a.toml"] = Ok ns
  /\ (stdout ns = true <->
      exists a, In a (before_separator ["--ch"; "--keep-full-version"; "a.toml"])
                /\ option_action a = Some AStdout)
  /\ (check ns = true <->
      exists a, In a (before_separator ["--ch"; "--keep-full-version"; "a.toml"])
                /\ option_action a = Some ACheck)
  /\ (keep_full_version ns = true <->
      exists a, In a (before_separator ["--ch"; "--keep-full-version"; "a.toml"])
                /\ option_action a = Some AKeepFullVersion).
Proof.
  intros ns. split; [reflexivity|].
  exact (@flag_set_iff_option_given
           _ Example.parse_version Example.DEFAULT_INDENT
           Example.DEFAULT_MAX_SUPPORTED_PYTHON Example.env
           ["--ch"; "--keep-full-version"; "a.toml"] ns eq_refl).
Defined.

Lemma typed_option_absent_keeps_default_witness :
  let ns := mkNamespace [Example.work "a.toml"] false (Value 2%Z) true false (Value [3%N; 12%N]) in
  Example.cli_args ["--check"; "a.toml"] = Ok ns
  /\ indent ns = Value Example.DEFAULT_INDENT
  /\ max_supported_python ns = Value Example.DEFAULT_MAX_SUPPORTED_PYTHON.
Proof.
  intros ns.
  destruct (@typed_option_absent_keeps_default
              _ Example.parse_version Example.DEFAULT_INDENT
              Example.DEFAULT_MAX_SUPPORTED_PYTHON Example.env
              ["--check"; "a.toml"] ns eq_refl) as [I M].
  split; [reflexivity|]. split.
  - apply I. intros a [<-|[<-|[]]]; discriminate.
  - apply M. intros a [<-|[<-|[]]]; discriminate.
Defined.

Lemma last_typed_option_wins_witness :
  let ns := mkNamespace [Example.work "a.toml"] false (Value 4%Z) false false
                        (Value [3%N; 12%N]) in
  ~ In "--" ["--indent=8"]
  /\ @None string <> Some "--"
  /\ Example.cli_args ["--indent=8"; "--indent"; "4"; "a.toml"] = Ok ns
  /\ parse_optional "--indent" = Ok (Some (Some AIndent, "--indent", None))
  /\ (forall x, In x (before_separator ["4"; "a.toml"]) ->
                option_action x <> Some AIndent)
  /\ exists v z,
       (@None string = Some v
        \/ @None string = None /\ exists rest, ["4"; "a.toml"] = v :: rest)
       /\ py_int v = Some z /\ indent ns = Value z.
Proof.
  intros ns.
  assert (NI : ~ In "--" ["--indent=8"]) by (intros [H|[]]; discriminate).
  assert (NE : @None string <> Some "--") by discriminate.
  assert (No : forall x, In x (before_separator ["4"; "a.toml"]) ->
                         option_action x <> Some AIndent)
    by (intros x [<-|[<-|[]]]; discriminate).
  split; [exact NI|]. split; [exact NE|]. split; [reflexivity|].
  split; [reflexivity|]. split; [exact No|].
  exact (proj1 (@last_typed_option_wins
                  _ Example.parse_version Example.DEFAULT_INDENT
                  Example.DEFAULT_MAX_SUPPORTED_PYTHON Example.env
                  ["--indent=8"] "--indent" ["4"; "a.toml"] "--indent" None ns
                  NI NE eq_refl) eq_refl No).
Defined.

Lemma long_options_may_be_abbreviated_witness :
  In ("--keep-full-version", AKeepFullVersion) option_string_actions
  /\ second_is_dash "--keep-full-version" = true
  /\ startswith "--keep-full-version" "--keep" = true
  /\ 3 <= String.length "--keep"
  /\ parse_optional "--keep"
     = Ok (Some (Some AKeepFullVersion, "--keep-full-version", None))
  /\ forall v, parse_optional ("--keep" ++ "=" ++ v)
               = Ok (Some (Some AKeepFullVersion, "--keep-full-version", Some v)).
Proof.
  assert (Hin : In ("--keep-full-version", AKeepFullVersion)
                   option_string_actions) by (cbn; auto 10).
  assert (Len : 3 <= String.length "--keep") by (cbn; lia).
  split; [exact Hin|]. split; [reflexivity|]. split; [reflexivity|].
  split; [exact Len|].
  exact (@long_options_may_be_abbreviated
           "--keep-full-version" AKeepFullVersion "--keep"
           Hin eq_refl eq_refl Len).
Defined.

Lemma inputs_never_empty_witness :
  let ns := mkNamespace [Example.work "a.toml"] false (Value 2%Z) false false (Value [3%N; 12%N]) in
  Example.cli_args ["a.toml"] = Ok ns /\ inputs ns <> [].
Proof.
  intros ns. split; [reflexivity|].
  exact (@inputs_never_empty
           _ Example.parse_version Example.DEFAULT_INDENT
           Example.DEFAULT_MAX_SUPPORTED_PYTHON Example.env
           ["a.toml"] ns eq_refl).
Defined.

Lemma inputs_must_be_contiguous_witness :
  forallb plain ["a.toml"] = true
  /\ Forall (fun x => valid_input Example.env (resolve Example.env x)) ["a.toml"]
  /\ parse_optional "--check" = Ok (Some (Some ACheck, "--check", None))
  /\ forallb plain ["pyproject.toml"] = true
  /\ Example.cli_args ["a.toml"; "--check"; "pyproject.toml"]
     = Error (EUnrecognized ["pyproject.toml"]).
Proof.
  assert (V : Forall (fun x => valid_input Example.env (resolve Example.env x))
                     ["a.toml"]).
  { repeat constructor; eexists; repeat split; vm_compute; reflexivity. }
  split; [reflexivity|]. split; [exact V|]. split; [reflexivity|].
  split; [reflexivity|].
  exact (@inputs_must_be_contiguous
           _ Example.parse_version Example.DEFAULT_INDENT
           Example.DEFAULT_MAX_SUPPORTED_PYTHON Example.env
           "a.toml" [] "--check" "--check" ACheck "pyproject.toml" []
           eq_refl V eq_refl (or_intror (or_introl eq_refl)) eq_refl).
Defined.

Lemma validator_accepts_its_result_witness :
  is_absolute (path_of_string (getcwd Example.env)) = true
  /\ pyproject_toml_path_creator Example.env "."
     = inl (Example.work "pyproject.toml")
  /\ path_str (Example.work "pyproject.toml") = "/work/pyproject.toml"
  /\ pyproject_toml_path_creator Example.env "/work/pyproject.toml"
     = inl (Example.work "pyproject.toml").
Proof.
  split; [reflexivity|]. split; [reflexivity|]. split; [reflexivity|].
  exact (@validator_accepts_its_result
           Example.env "." (Example.work "pyproject.toml") eq_refl eq_refl).
Defined.

Lemma toml_has_no_carriage_return_witness :
  let ns := mkNamespace [Example.work "crlf.toml"] false (Value 2%Z) false false
                        (Value [3%N; 12%N]) in
  let c := mkConfig (Example.work "crlf.toml") [97%N; 61%N; 49%N; 10%N]
                    (Value 2%Z) false (Value [3%N; 12%N]) in
  configs Example.env ns = inl [c]
  /\ Forall (fun c => ~ In 13%N (toml c)) [c].
Proof.
  intros ns c. split; [reflexivity|].
  exact (@toml_has_no_carriage_return _ Example.env ns [c] eq_refl).
Defined.

Lemma indent_value_must_be_an_integer_witness :
  ~ In "--" ["--check"]
  /\ Some "two" <> Some "--"
  /\ parse_optional "--ind=two" = Ok (Some (Some AIndent, "--indent", Some "two"))
  /\ (forall v, Some "two" = Some v
                \/ (Some "two" = None /\ exists rest, ["a.toml"] = v :: rest) ->
                py_int v = None)
  /\ (forall x, In x ["--check"; "--ind=two"; "a.toml"] ->
                asks_to_exit x = false)
  /\ (forall x, In x ["--check"; "--ind=two"; "a.toml"] ->
                raises Example.env (resolve Example.env x) = false)
  /\ (forall ns, Example.cli_args ["--check"; "--ind=two"; "a.toml"] <> Ok ns)
  /\ exists err,
       Example.cli_args ["--check"; "--ind=two"; "a.toml"] = Error err
       /\ err <> EUncaughtOSError.
Proof.
  assert (NI : ~ In "--" ["--check"]) by (intros [H|[]]; discriminate).
  assert (NE : Some "two" <> Some "--") by discriminate.
  assert (Bad : forall v, Some "two" = Some v
                          \/ (Some "two" = None
                              /\ exists rest, ["a.toml"] = v :: rest) ->
                          py_int v = None)
    by (intros v [E|[E _]]; [injection E as <-; reflexivity|discriminate]).
  assert (NX : forall x, In x (["--check"] ++ "--ind=two" :: ["a.toml"]) ->
                         asks_to_exit x = false)
    by (intros x [<-|[<-|[<-|[]]]]; reflexivity).
  assert (A : forall x, In x (["--check"] ++ "--ind=two" :: ["a.toml"]) ->
                        raises Example.env (resolve Example.env x) = false)
    by (intros x [<-|[<-|[<-|[]]]]; reflexivity).
  destruct (@indent_value_must_be_an_integer
              _ Example.parse_version Example.DEFAULT_INDENT
              Example.DEFAULT_MAX_SUPPORTED_PYTHON Example.env
              ["--check"] "--ind=two" ["a.toml"] "--indent" (Some "two")
              NI NE eq_refl Bad) as (No & _ & Err).
  split; [exact NI|]. split; [exact NE|]. split; [reflexivity|].
  split; [exact Bad|]. split; [exact NX|]. split; [exact A|].
  split; [exact No|exact (Err NX A)].
Defined.





Lemma oserror_only_from_a_query_witness :
  Example.cli_args ["a.toml"; Example.long_name] = Error EUncaughtOSError
  /\ (forall a, In a ["--check"; "missing.toml"] ->
                raises Example.env (resolve Example.env a) = false)
  /\ (exists a, In a ["a.toml"; Example.long_name]
                /\ raises Example.env (resolve Example.env a) = true)
  /\ Example.cli_args ["--check"; "missing.toml"] <> Error EUncaughtOSError.
Proof.
  assert (A : forall a, In a ["--check"; "missing.toml"] ->
                        raises Example.env (resolve Example.env a) = false)
    by (intros a [<-|[<-|[]]]; reflexivity).
  assert (R : Example.cli_args ["a.toml"; Example.long_name]
              = Error EUncaughtOSError) by (vm_compute; reflexivity).
  destruct (@oserror_only_from_a_query
              _ Example.parse_version Example.DEFAULT_INDENT
              Example.DEFAULT_MAX_SUPPORTED_PYTHON Example.env)
    as (_ & B & C).
  split; [exact R|]. split; [exact A|].
  split; [exact (B _ R)|exact (C _ A)].
Defined.
